(** * tokenizer_lambda: the field-masking pipeline of [src/tokenizer_lambda.py]

    A shallow embedding of [lambda_handler] and of the parts of the Python
    runtime it calls ([str.encode], [base64.b64encode], [os.path.basename],
    [str.replace], [str.splitlines], [csv.Sniffer], [csv.DictReader],
    [csv.DictWriter], [io.StringIO]), followed by the properties of the
    pipeline.

    Conventions.
    - A Python [str] is the list of its code points, a [bytes] object the list
      of its byte values, both as [list Z].
    - A raised exception is a value of [error]; code that can raise returns a
      [result].
    - The S3 client is an explicit parameter ([s3_client]) and every call made
      on it is recorded in a trace.
    - [print] only writes to the log and is left out. *)

From stdpp Require Import base option list gmap strings.
From Stdlib Require Import ZArith Lia Sorted.

Open Scope Z_scope.

Ltac Zify.zify_post_hook ::= Z.to_euclidean_division_equations.

(** ** Text and bytes *)

Abbreviation str := (list Z).
Abbreviation bytes := (list Z).

(** The code points of an ASCII literal, to write inputs down. *)
Fixpoint text (s : string) : str :=
  match s with
  | EmptyString => []
  | String a s' => Z.of_N (Ascii.N_of_ascii a) :: text s'
  end.

Definition LF : Z := 10.
Definition CR : Z := 13.
Definition DQUOTE : Z := 34.
Definition SQUOTE : Z := 39.
Definition SPACE : Z := 32.
Definition SLASH : Z := 47.

(** ** Exceptions *)

Inductive csv_error :=
  | CouldNotDetermineDelimiter   (* Sniffer.sniff *)
  | NewlineInUnquotedField       (* reader, after a bare carriage return *)
  | FieldLargerThanFieldLimit.   (* reader, csv.field_size_limit() *)

Inductive error :=
  | ClientError                  (* s3.get_object / s3.put_object *)
  | UnicodeDecodeError           (* bytes.decode('utf-8-sig') *)
  | EvalError                    (* eval(metadata_content) *)
  | IndexError                   (* raw_csv.splitlines()[0] *)
  | CsvError (e : csv_error)     (* csv.Error *)
  | TypeError                    (* DictWriter over fieldnames = None *)
  | ValueError                   (* DictWriter: fields not in fieldnames *)
  | UnicodeEncodeError           (* str.encode() *)
  | NotIterableError             (* TypeError: for field in pii_fields *)
  | UnhashableError              (* TypeError: field in row *)
  | AttributeError.              (* row[field].encode() on a list *)

Inductive result (A : Type) :=
  | Ok (a : A)
  | Raise (e : error).
Arguments Ok {A} a.
Arguments Raise {A} e.

Definition bind {A B} (r : result A) (k : A → result B) : result B :=
  match r with
  | Ok a => k a
  | Raise e => Raise e
  end.

Notation "'let*' x := r 'in' k" := (bind r (fun x => k))
  (at level 10, x name, r at level 200, k at level 200, only parsing).

Definition of_option {A} (e : error) (o : option A) : result A :=
  match o with
  | Some a => Ok a
  | None => Raise e
  end.

(** ** UTF-8 ([str.encode()], [bytes.decode()]) *)

Module Utf8.

Definition is_surrogate (c : Z) : bool := (0xD800 <=? c) && (c <=? 0xDFFF).

(** The code points a [str] obtained by decoding UTF-8 can hold. *)
Definition is_scalar (c : Z) : bool :=
  (0 <=? c) && (c <? 0x110000) && negb (is_surrogate c).

(** One code point: 1 to 4 bytes, [0xxxxxxx], [110xxxxx 10xxxxxx],
    [1110xxxx 10xxxxxx 10xxxxxx], [11110xxx 10xxxxxx 10xxxxxx 10xxxxxx]. *)
Definition encode_char (c : Z) : option bytes :=
  if negb (is_scalar c) then None
  else if c <? 0x80 then Some [c]
  else if c <? 0x800 then Some [0xC0 + c / 64; 0x80 + c mod 64]
  else if c <? 0x10000 then
    Some [0xE0 + c / 4096; 0x80 + (c / 64) mod 64; 0x80 + c mod 64]
  else
    Some [0xF0 + c / 262144; 0x80 + (c / 4096) mod 64;
          0x80 + (c / 64) mod 64; 0x80 + c mod 64].

(** [s.encode()]: [None] is UnicodeEncodeError (a lone surrogate). *)
Fixpoint encode (s : str) : option bytes :=
  match s with
  | [] => Some []
  | c :: s' =>
    match encode_char c, encode s' with
    | Some bs, Some bs' => Some (bs ++ bs')
    | _, _ => None
    end
  end.

Definition is_cont (b : Z) : bool := (0x80 <=? b) && (b <? 0xC0).

(** [bs.decode()], strict: overlong forms, surrogates and code points above
    U+10FFFF are refused. [None] is UnicodeDecodeError. *)
Fixpoint decode (bs : bytes) : option str :=
  match bs with
  | [] => Some []
  | b0 :: r0 =>
    if (0 <=? b0) && (b0 <? 0x80) then cons b0 <$> decode r0
    else if (0xC2 <=? b0) && (b0 <? 0xE0) then
      match r0 with
      | b1 :: r1 =>
        if is_cont b1
        then cons ((b0 - 0xC0) * 64 + (b1 - 0x80)) <$> decode r1
        else None
      | _ => None
      end
    else if (0xE0 <=? b0) && (b0 <? 0xF0) then
      match r0 with
      | b1 :: b2 :: r2 =>
        let c := (b0 - 0xE0) * 4096 + (b1 - 0x80) * 64 + (b2 - 0x80) in
        if is_cont b1 && is_cont b2 && (0x800 <=? c) && negb (is_surrogate c)
        then cons c <$> decode r2
        else None
      | _ => None
      end
    else if (0xF0 <=? b0) && (b0 <? 0xF5) then
      match r0 with
      | b1 :: b2 :: b3 :: r3 =>
        let c := (b0 - 0xF0) * 262144 + (b1 - 0x80) * 4096
                 + (b2 - 0x80) * 64 + (b3 - 0x80) in
        if is_cont b1 && is_cont b2 && is_cont b3
           && (0x10000 <=? c) && (c <? 0x110000)
        then cons c <$> decode r3
        else None
      | _ => None
      end
    else None
  end.

(** [bs.decode('utf-8-sig')]: a leading byte-order mark is dropped. *)
Definition decode_sig (bs : bytes) : option str :=
  match bs with
  | 0xEF :: 0xBB :: 0xBF :: bs' => decode bs'
  | _ => decode bs
  end.

End Utf8.

(** ** Base64 ([base64.b64encode]) *)

Module Base64.

Definition PAD : Z := 61.

(** The alphabet [A-Za-z0-9+/], by index. *)
Definition digit (i : Z) : Z :=
  if i <? 26 then 65 + i
  else if i <? 52 then 97 + (i - 26)
  else if i <? 62 then 48 + (i - 52)
  else if i =? 62 then 43
  else 47.

Definition index (c : Z) : option Z :=
  if (65 <=? c) && (c <=? 90) then Some (c - 65)
  else if (97 <=? c) && (c <=? 122) then Some (c - 97 + 26)
  else if (48 <=? c) && (c <=? 57) then Some (c - 48 + 52)
  else if c =? 43 then Some 62
  else if c =? 47 then Some 63
  else None.

(** [base64.b64encode(bs).decode()]: three bytes give four digits, the last
    group is padded with [=]. *)
Fixpoint b64encode (bs : bytes) : str :=
  match bs with
  | [] => []
  | [b0] => [digit (b0 / 4); digit (b0 mod 4 * 16); PAD; PAD]
  | [b0; b1] =>
    [digit (b0 / 4); digit (b0 mod 4 * 16 + b1 / 16);
     digit (b1 mod 16 * 4); PAD]
  | b0 :: b1 :: b2 :: bs' =>
    digit (b0 / 4) :: digit (b0 mod 4 * 16 + b1 / 16)
    :: digit (b1 mod 16 * 4 + b2 / 64) :: digit (b2 mod 64)
    :: b64encode bs'
  end.

(** The decoder the round-trip law is stated with:
    [base64.b64decode(s, validate=True)]. *)
Fixpoint b64decode (s : str) : option bytes :=
  match s with
  | [] => Some []
  | c0 :: c1 :: c2 :: c3 :: s' =>
    match index c0, index c1 with
    | Some i0, Some i1 =>
      let b0 := i0 * 4 + i1 / 16 in
      match s' with
      | [] =>
        if (c2 =? PAD) && (c3 =? PAD) then Some [b0]
        else match index c2 with
          | Some i2 =>
            let b1 := i1 mod 16 * 16 + i2 / 4 in
            if c3 =? PAD then Some [b0; b1]
            else match index c3 with
              | Some i3 => Some [b0; b1; i2 mod 4 * 64 + i3]
              | None => None
              end
          | None => None
          end
      | _ =>
        match index c2, index c3, b64decode s' with
        | Some i2, Some i3, Some bs' =>
          Some (b0 :: (i1 mod 16 * 16 + i2 / 4) :: (i2 mod 4 * 64 + i3) :: bs')
        | _, _, _ => None
        end
      end
    | _, _ => None
    end
  | _ => None
  end.

End Base64.

(** The value [row[field]] is replaced with (line 51):
    [base64.b64encode(row[field].encode()).decode()]. The final [.decode()] is
    of ASCII bytes and changes nothing. *)
Definition tokenize (v : str) : result str :=
  let* bs := of_option UnicodeEncodeError (Utf8.encode v) in
  Ok (Base64.b64encode bs).

(** What a reader of the output does to get a value back:
    [base64.b64decode(t).decode()]. *)
Definition detokenize (t : str) : option str :=
  Base64.b64decode t ≫= Utf8.decode.

(** ** String methods *)

Module Py.

(** [str.isspace] for one character: what [str.strip()] removes. *)
Definition isspace (c : Z) : bool :=
  ((0x09 <=? c) && (c <=? 0x0D)) || ((0x1C <=? c) && (c <=? 0x20))
  || (c =? 0x85) || (c =? 0xA0) || (c =? 0x1680)
  || ((0x2000 <=? c) && (c <=? 0x200A))
  || (c =? 0x2028) || (c =? 0x2029) || (c =? 0x202F) || (c =? 0x205F)
  || (c =? 0x3000).

Fixpoint lstrip (s : str) : str :=
  match s with
  | c :: s' => if isspace c then lstrip s' else s
  | [] => []
  end.

Definition strip (s : str) : str := reverse (lstrip (reverse (lstrip s))).

(** The line boundaries of [str.splitlines]. *)
Definition is_linebreak (c : Z) : bool :=
  (c =? LF) || (c =? CR) || (c =? 0x0B) || (c =? 0x0C)
  || (c =? 0x1C) || (c =? 0x1D) || (c =? 0x1E)
  || (c =? 0x85) || (c =? 0x2028) || (c =? 0x2029).

(** [s.splitlines()]: the lines without their boundaries; CR LF is one
    boundary; no empty last line after a final boundary. *)
Fixpoint splitlines (s : str) : list str :=
  match s with
  | [] => []
  | c :: s' =>
    if is_linebreak c then
      match s' with
      | c' :: s'' =>
        if (c =? CR) && (c' =? LF) then [] :: splitlines s''
        else [] :: splitlines s'
      | [] => [[]]
      end
    else
      match splitlines s' with
      | [] => [[c]]
      | l :: ls => (c :: l) :: ls
      end
  end.

(** [s.startswith(p)]. *)
Fixpoint startswith (p s : str) : bool :=
  match p, s with
  | [], _ => true
  | a :: p', b :: s' => (a =? b) && startswith p' s'
  | _ :: _, [] => false
  end.

(** [s.replace(old, '')] for a non-empty [old]: every occurrence found by a
    scan from the left is dropped; after a match the scan resumes behind it
    ([skip] counts the characters of the match still to pass). *)
Fixpoint remove_from (old : str) (skip : nat) (s : str) : str :=
  match s with
  | [] => []
  | c :: s' =>
    match skip with
    | S k => remove_from old k s'
    | O =>
      if startswith old s then remove_from old (Nat.pred (length old)) s'
      else c :: remove_from old 0 s'
    end
  end.

Definition replace_with_empty (old s : str) : str :=
  match old with
  | [] => s
  | _ => remove_from old 0 s
  end.

(** [os.path.basename(p)] (posixpath): what follows the last slash. *)
Fixpoint basename (p : str) : str :=
  match p with
  | [] => []
  | _ :: p' => if bool_decide (SLASH ∈ p) then basename p' else p
  end.

(** [s.endswith(p)]. *)
Definition endswith (p s : str) : bool := startswith (reverse p) (reverse s).

(** [old in s]. *)
Fixpoint contains (old s : str) : bool :=
  match s with
  | [] => startswith old []
  | _ :: s' => startswith old s || contains old s'
  end.

End Py.

(** ** Paths (lines 17-19) *)

Definition PII_SUFFIX : str := text "_pii_fields.json".

Definition filename_base (metadata_key : str) : str :=
  Py.replace_with_empty PII_SUFFIX (Py.basename metadata_key).

Definition raw_key (metadata_key : str) : str :=
  text "raw/" ++ filename_base metadata_key ++ text ".csv".

Definition output_key (metadata_key : str) : str :=
  text "tokenized/" ++ filename_base metadata_key ++ text "_tokenized.csv".

(** ** The csv module

    [csv.reader] and [csv.writer] as CPython (3.11, 3.12) implements them in
    [Modules/_csv.c], for the dialect the handler uses: the default [excel]
    dialect (the double quote as quote character, doubled quotes, minimal
    quoting, no escape character, not strict, line terminator CR LF) with
    the delimiter [d] given at lines 44 and 45. The states of the escape
    character are left out; they are not reached without one. *)

Module Csv.

(** *** Writer *)

(** A field is quoted when it holds the delimiter, the quote character or a
    character of the line terminator. *)
Definition special (d c : Z) : bool :=
  (c =? d) || (c =? DQUOTE) || (c =? CR) || (c =? LF).

Definition double_quotes (f : str) : str :=
  flat_map (λ c, if c =? DQUOTE then [DQUOTE; DQUOTE] else [c]) f.

Definition quote (f : str) : str := DQUOTE :: double_quotes f ++ [DQUOTE].

Definition write_field (d : Z) (f : str) : str :=
  if existsb (special d) f then quote f else f.

Fixpoint join (d : Z) (fs : list str) : str :=
  match fs with
  | [] => []
  | [f] => f
  | f :: fs' => f ++ d :: join d fs'
  end.

(** [writer.writerow(row)]: the text handed to the stream. A record made of
    one empty field is written as two quote characters. *)
Definition writerow (d : Z) (row : list str) : str :=
  match row with
  | [[]] => [DQUOTE; DQUOTE; CR; LF]
  | _ => join d (map (write_field d) row) ++ [CR; LF]
  end.

(** *** Reader *)

Inductive parser_state :=
  | START_RECORD | START_FIELD | IN_FIELD
  | IN_QUOTED_FIELD | QUOTE_IN_QUOTED_FIELD | EAT_CRNL.

Global Instance parser_state_eq_dec : EqDecision parser_state.
Proof. solve_decision. Defined.

Record reader := Reader {
  state : parser_state;
  field : str;            (* the characters of the field being read *)
  fields : list str       (* the fields of the record being read *)
}.

(** [parse_reset] *)
Definition fresh : reader := Reader START_RECORD [] [].

Definition field_limit : Z := 131072.

Definition set_state (s : parser_state) (r : reader) : reader :=
  Reader s (field r) (fields r).

Definition parse_add_char (r : reader) (c : Z) : result reader :=
  if field_limit <=? Z.of_nat (length (field r))
  then Raise (CsvError FieldLargerThanFieldLimit)
  else Ok (Reader (state r) (field r ++ [c]) (fields r)).

Definition parse_save_field (r : reader) : reader :=
  Reader (state r) [] (fields r ++ [field r]).

(** What the state machine is fed: a character of a line, or the marker
    processed at the end of every line. *)
Inductive input :=
  | Char (c : Z)
  | EOL.

Definition is_crlf (c : Z) : bool := (c =? LF) || (c =? CR).

Definition at_start_field (d : Z) (r : reader) (i : input) : result reader :=
  match i with
  | EOL => Ok (set_state START_RECORD (parse_save_field r))
  | Char c =>
    if is_crlf c then Ok (set_state EAT_CRNL (parse_save_field r))
    else if c =? DQUOTE then Ok (set_state IN_QUOTED_FIELD r)
    else if c =? d then Ok (parse_save_field r)
    else
      let* r' := parse_add_char r c in
      Ok (set_state IN_FIELD r')
  end.

(** [parse_process_char] *)
Definition parse_process_char (d : Z) (r : reader) (i : input)
  : result reader :=
  match state r with
  | START_RECORD =>
    match i with
    | EOL => Ok r
    | Char c =>
      if is_crlf c then Ok (set_state EAT_CRNL r)
      else at_start_field d (set_state START_FIELD r) i
    end
  | START_FIELD => at_start_field d r i
  | IN_FIELD =>
    match i with
    | EOL => Ok (set_state START_RECORD (parse_save_field r))
    | Char c =>
      if is_crlf c then Ok (set_state EAT_CRNL (parse_save_field r))
      else if c =? d then Ok (set_state START_FIELD (parse_save_field r))
      else parse_add_char r c
    end
  | IN_QUOTED_FIELD =>
    match i with
    | EOL => Ok r
    | Char c =>
      if c =? DQUOTE then Ok (set_state QUOTE_IN_QUOTED_FIELD r)
      else parse_add_char r c
    end
  | QUOTE_IN_QUOTED_FIELD =>
    match i with
    | EOL => Ok (set_state START_RECORD (parse_save_field r))
    | Char c =>
      if c =? DQUOTE then
        let* r' := parse_add_char r c in
        Ok (set_state IN_QUOTED_FIELD r')
      else if c =? d then Ok (set_state START_FIELD (parse_save_field r))
      else if is_crlf c then Ok (set_state EAT_CRNL (parse_save_field r))
      else
        let* r' := parse_add_char r c in
        Ok (set_state IN_FIELD r')
    end
  | EAT_CRNL =>
    match i with
    | EOL => Ok (set_state START_RECORD r)
    | Char c =>
      if is_crlf c then Ok r
      else Raise (CsvError NewlineInUnquotedField)
    end
  end.

(** The lines [io.StringIO(s)] yields when iterated: each ends behind a line
    feed, the last one maybe at the end of the text. *)
Fixpoint readlines (s : str) : list str :=
  match s with
  | [] => []
  | c :: s' =>
    if c =? LF then [c] :: readlines s'
    else
      match readlines s' with
      | [] => [[c]]
      | l :: ls => (c :: l) :: ls
      end
  end.

(** The characters of a line, one by one. *)
Fixpoint feed (d : Z) (r : reader) (cs : str) : result reader :=
  match cs with
  | [] => Ok r
  | c :: cs' =>
    let* r' := parse_process_char d r (Char c) in
    feed d r' cs'
  end.

Definition process_line (d : Z) (r : reader) (line : str) : result reader :=
  let* r' := feed d r line in
  parse_process_char d r' EOL.

(** What iterating a reader gives: records, until the input ends or an
    exception is raised. *)
Inductive records :=
  | Stop
  | Yield (record : list str) (rest : records)
  | Throw (e : error).

(** [Reader_iternext], called until StopIteration: lines are consumed until
    the state is START_RECORD again; when the lines run out in the middle of
    a record, the record read so far is returned. *)
Fixpoint read (d : Z) (r : reader) (lines : list str) : records :=
  match lines with
  | [] =>
    if bool_decide (field r ≠ []) || bool_decide (state r = IN_QUOTED_FIELD)
    then Yield (fields (parse_save_field r)) Stop
    else Stop
  | l :: ls =>
    match process_line d r l with
    | Raise e => Throw e
    | Ok r' =>
      if bool_decide (state r' = START_RECORD)
      then Yield (fields r') (read d fresh ls)
      else read d r' ls
    end
  end.

(** [csv.reader(io.StringIO(s), delimiter=d)] *)
Definition reader_of (d : Z) (s : str) : records := read d fresh (readlines s).

End Csv.

(** ** DictReader and DictWriter *)

(** The dict a [DictReader] yields: column names to cells, a cell being a
    string or [None] (the [restval] of a short row); and, for a long row, the
    surplus fields as a list under the key [None] (the [restkey]). *)
Record rowdict := RowDict {
  cells : gmap str (option str);
  restkey : option (list str)
}.

(** [dict(zip(fieldnames, row))]: a later cell replaces an earlier one of the
    same name. *)
Fixpoint dict_zip (fieldnames : list str) (row : list str)
    (acc : gmap str (option str)) : gmap str (option str) :=
  match fieldnames, row with
  | k :: ks, v :: vs => dict_zip ks vs (<[k := Some v]> acc)
  | _, _ => acc
  end.

(** [for key in keys: d[key] = None] *)
Definition fill_restval (keys : list str)
    (acc : gmap str (option str)) : gmap str (option str) :=
  foldl (λ m k, <[k := None]> m) acc keys.

(** The body of [DictReader.__next__] for a non-blank record. *)
Definition to_dict (fieldnames : list str) (row : list str) : rowdict :=
  let d := dict_zip fieldnames row ∅ in
  let lf := length fieldnames in
  let lr := length row in
  if bool_decide (lf < lr)%nat then RowDict d (Some (drop lf row))
  else RowDict (fill_restval (drop lr fieldnames) d) None.

(** Lines 50-51 for one [field]. *)
Definition mask_field (field : str) (row : rowdict) : result rowdict :=
  match cells row !! field with
  | Some (Some v) =>
    if bool_decide (v ≠ []) then
      let* t := tokenize v in
      Ok (RowDict (<[field := Some t]> (cells row)) (restkey row))
    else Ok row
  | _ => Ok row
  end.

(** Lines 49-51: the loop over [pii_fields] as given, for a field list that
    is a list of strings. *)
Fixpoint mask_row (pii_fields : list str) (row : rowdict) : result rowdict :=
  match pii_fields with
  | [] => Ok row
  | field :: rest =>
    let* row' := mask_field field row in
    mask_row rest row'
  end.

(** How the writer renders a cell: [None] as the empty string. *)
Definition cell_text (c : option str) : str := default [] c.

(** [DictWriter._dict_to_list]: ValueError when the dict has a key that is
    not a field name (the default [extrasaction='raise']); a missing key is
    written as [restval = ''].*)
Definition dict_to_list (fieldnames : list str) (row : rowdict)
  : result (list str) :=
  if bool_decide (restkey row = None)
     && bool_decide (dom (cells row) ⊆ list_to_set fieldnames)
  then Ok (map (λ k, cell_text (default (Some []) (cells row !! k))) fieldnames)
  else Raise ValueError.

Definition DictWriter_writerow (d : Z) (fieldnames : list str) (row : rowdict)
  : result str :=
  let* values := dict_to_list fieldnames row in
  Ok (Csv.writerow d values).

(** ** The transformer (lines 41-52) *)

(** Lines 48-52, for a field list that is a list of strings. [out] is what
    [output_stream] holds so far. Blank records are passed over by the
    DictReader. *)
Fixpoint transform_rows (d : Z) (fieldnames pii_fields : list str)
    (rows : Csv.records) (out : str) : result str :=
  match rows with
  | Csv.Stop => Ok out
  | Csv.Throw e => Raise e
  | Csv.Yield [] rest => transform_rows d fieldnames pii_fields rest out
  | Csv.Yield r rest =>
    let* row := mask_row pii_fields (to_dict fieldnames r) in
    let* line := DictWriter_writerow d fieldnames row in
    transform_rows d fieldnames pii_fields rest (out ++ line)
  end.

(** Lines 41-52 and [output_stream.getvalue()]. [reader.fieldnames] is the
    first record; with no record at all it is [None] and [writeheader]
    raises TypeError. *)
Definition transform (delimiter : Z) (pii_fields : list str) (raw_csv : str)
  : result str :=
  match Csv.reader_of delimiter raw_csv with
  | Csv.Stop => Raise TypeError
  | Csv.Throw e => Raise e
  | Csv.Yield fieldnames rows =>
    transform_rows delimiter fieldnames pii_fields rows
      (Csv.writerow delimiter fieldnames)
  end.

(** ** The value of the metadata text (line 28)

    [eval(metadata_content)] gives whatever the text of the metadata object
    evaluates to, a list of strings or not, and nothing is checked before the
    loop of lines 49-51 uses it. What the loop can tell of a value: whether
    it can be iterated, whether it gives its items every time or only once,
    and what each item is to a row. A value whose iteration itself raises or
    does not end, and an item with an equality or a hash of its own making,
    are not covered. *)

Inductive pyitem :=
  | PyStr (s : str)   (* a string *)
  | PyNone            (* None: the key of the surplus fields of a long row *)
  | PyOther           (* another hashable object (a number, a tuple, bytes):
                         equal to no key of a row *)
  | PyUnhashable.     (* a list, a dict, a set: [field in row] raises *)

Inductive pyvalue :=
  | PyIterable (items : list pyitem)   (* a list, tuple, str, dict, set or
                                          range: the same items every time *)
  | PyIterator (items : list pyitem)   (* a generator or another iterator:
                                          its items once, then none *)
  | PyNotIterable.                     (* a number, None, a function *)

(** The value of the text of a Python list of strings. *)
Definition strings (fields : list str) : pyvalue :=
  PyIterable (PyStr <$> fields).

(** [for field in pii_fields] (line 49), begun once for every row: the items
    this time, and the value as it is afterwards. *)
Definition iterate (pii_fields : pyvalue)
  : result (list pyitem * pyvalue) :=
  match pii_fields with
  | PyIterable items => Ok (items, pii_fields)
  | PyIterator items => Ok (items, PyIterator [])
  | PyNotIterable => Raise NotIterableError
  end.

(** Lines 50-51 for one item. Under [None] a row holds a list, the surplus
    fields of a long row, which is not empty and has no [encode]. *)
Definition mask_item (field : pyitem) (row : rowdict) : result rowdict :=
  match field with
  | PyStr f => mask_field f row
  | PyNone =>
    match restkey row with
    | Some _ => Raise AttributeError
    | None => Ok row
    end
  | PyOther => Ok row
  | PyUnhashable => Raise UnhashableError
  end.

Fixpoint mask_items (fields : list pyitem) (row : rowdict)
  : result rowdict :=
  match fields with
  | [] => Ok row
  | field :: rest =>
    let* row' := mask_item field row in
    mask_items rest row'
  end.

(** Lines 48-52 for any value of [pii_fields]. *)
Fixpoint transform_rows_with (d : Z) (fieldnames : list str)
    (pii_fields : pyvalue) (rows : Csv.records) (out : str) : result str :=
  match rows with
  | Csv.Stop => Ok out
  | Csv.Throw e => Raise e
  | Csv.Yield [] rest => transform_rows_with d fieldnames pii_fields rest out
  | Csv.Yield r rest =>
    let* it := iterate pii_fields in
    let* row := mask_items it.1 (to_dict fieldnames r) in
    let* line := DictWriter_writerow d fieldnames row in
    transform_rows_with d fieldnames it.2 rest (out ++ line)
  end.

(** Lines 41-52 for any value of [pii_fields]; for a list of strings it is
    [transform] (see [transform_with_strings]). *)
Definition transform_with (delimiter : Z) (pii_fields : pyvalue)
    (raw_csv : str) : result str :=
  match Csv.reader_of delimiter raw_csv with
  | Csv.Stop => Raise TypeError
  | Csv.Throw e => Raise e
  | Csv.Yield fieldnames rows =>
    transform_rows_with delimiter fieldnames pii_fields rows
      (Csv.writerow delimiter fieldnames)
  end.

(** ** csv.Sniffer (lines 36-38)

    [Sniffer.sniff(sample)] as CPython's [Lib/csv.py] has it, for a sample
    that is one line (the handler passes [raw_csv.splitlines()[0]], which
    holds no line feed), and as far as the delimiter goes: the handler uses
    nothing else of the dialect. The character class [\w] needs the Unicode
    character database above U+007F; this part, [str.isalnum] of one
    character, is the parameter [isalnum]. *)

Module Sniffer.

Section Patterns.

Variable isalnum : Z → bool.

(** [\w] *)
Definition is_word (c : Z) : bool :=
  if c <? 128 then
    ((48 <=? c) && (c <=? 57)) || ((65 <=? c) && (c <=? 90))
    || ((97 <=? c) && (c <=? 122)) || (c =? 95)
  else isalnum c.

Definition is_quote (c : Z) : bool := (c =? DQUOTE) || (c =? SQUOTE).

(** The class of the group [delim]: neither [\w], nor a line feed, nor a
    quote. *)
Definition is_delim (c : Z) : bool :=
  negb (is_word c) && negb (c =? LF) && negb (is_quote c).

(** The groups of one match. *)
Record groups := Groups {
  quote : Z;
  delim : option Z;
  space : bool
}.

(** A lazy [.*?] (with DOTALL) followed by [k]: the shortest stretch after
    which [k] matches. The number is the count of characters matched. *)
Fixpoint lazy_any {A} (k : str → option (A * nat)) (s : str)
  : option (A * nat) :=
  match k s with
  | Some r => Some r
  | None =>
    match s with
    | [] => None
    | _ :: s' => prod_map id S <$> lazy_any k s'
    end
  end.

Definition or_else {A} (a b : option A) : option A :=
  match a with
  | Some _ => a
  | None => b
  end.

(** The groups [space] (an optional space) and [quote] (a single or double
    quote), followed by [k]: the space is tried first. *)
Definition space_quote {A} (k : bool → Z → str → option (A * nat)) (s : str)
  : option (A * nat) :=
  or_else
    match s with
    | sp :: q :: s' =>
      if (sp =? SPACE) && is_quote q
      then prod_map id (λ n, S (S n)) <$> k true q s'
      else None
    | _ => None
    end
    match s with
    | q :: s' =>
      if is_quote q then prod_map id S <$> k false q s' else None
    | [] => None
    end.

(** The closing quote and the same delimiter again. *)
Definition close_delim (q d : Z) (s : str) : option (unit * nat) :=
  match s with
  | q' :: d' :: _ => if (q' =? q) && (d' =? d) then Some ((), 2%nat) else None
  | _ => None
  end.

(** The closing quote, a delimiter and maybe a space. *)
Definition close_new_delim (q : Z) (s : str) : option ((Z * bool) * nat) :=
  match s with
  | q' :: d' :: s' =>
    if (q' =? q) && is_delim d' then
      match s' with
      | sp :: _ =>
        if sp =? SPACE then Some ((d', true), 3%nat)
        else Some ((d', false), 2%nat)
      | [] => Some ((d', false), 2%nat)
      end
    else None
  | _ => None
  end.

(** The closing quote at the end of the line. *)
Definition close_end (q : Z) (s : str) : option (unit * nat) :=
  match s with
  | [q'] => if q' =? q then Some ((), 1%nat) else None
  | _ => None
  end.

(** The four patterns, each matched at the head of [s]:
    [delim space? quote .*? quote delim], at the start of the line
    [quote .*? quote delim space?], [delim space? quote .*? quote] up to the
    end of the line, and the whole line [quote .*? quote]. *)
Definition pattern1 (s : str) : option (groups * nat) :=
  match s with
  | d :: s' =>
    if is_delim d then
      prod_map id S <$>
      space_quote (λ sp q s'',
        prod_map (λ _, Groups q (Some d) sp) id
          <$> lazy_any (close_delim q d) s'') s'
    else None
  | [] => None
  end.

Definition pattern2 (s : str) : option (groups * nat) :=
  match s with
  | q :: s' =>
    if is_quote q then
      prod_map (λ '(d, sp), Groups q (Some d) sp) S
        <$> lazy_any (close_new_delim q) s'
    else None
  | [] => None
  end.

Definition pattern3 (s : str) : option (groups * nat) :=
  match s with
  | d :: s' =>
    if is_delim d then
      prod_map id S <$>
      space_quote (λ sp q s'',
        prod_map (λ _, Groups q (Some d) sp) id
          <$> lazy_any (close_end q) s'') s'
    else None
  | [] => None
  end.

Definition pattern4 (s : str) : option (groups * nat) :=
  match s with
  | q :: s' =>
    if is_quote q then
      prod_map (λ _, Groups q None false) S <$> lazy_any (close_end q) s'
    else None
  | [] => None
  end.

(** [regexp.findall(data)]: the matches from left to right, none
    overlapping ([skip] counts the characters of the last match still to
    pass). *)
Fixpoint findall (m : str → option (groups * nat)) (skip : nat) (s : str)
  : list groups :=
  match s with
  | [] => []
  | _ :: s' =>
    match skip with
    | S k => findall m k s'
    | O =>
      match m s with
      | Some (g, n) => g :: findall m (Nat.pred n) s'
      | None => findall m 0 s'
      end
    end
  end.

(** A pattern that begins with [^] matches at the start of the line only. *)
Definition findall_at_start (m : str → option (groups * nat)) (s : str)
  : list groups :=
  match m s with
  | Some (g, _) => [g]
  | None => []
  end.

(** The matches of the first pattern that has any. *)
Definition matches (data : str) : list groups :=
  match findall pattern1 0 data with
  | (_ :: _) as ms => ms
  | [] =>
    match findall_at_start pattern2 data with
    | (_ :: _) as ms => ms
    | [] =>
      match findall pattern3 0 data with
      | (_ :: _) as ms => ms
      | [] => findall_at_start pattern4 data
      end
    end
  end.

(** [delims[key] = delims.get(key, 0) + 1] on a dict in insertion order. *)
Fixpoint bump (key : Z) (delims : list (Z * nat)) : list (Z * nat) :=
  match delims with
  | [] => [(key, 1%nat)]
  | (k, n) :: rest =>
    if k =? key then (k, S n) :: rest else (k, n) :: bump key rest
  end.

(** [max(delims, key=delims.get)]: the first key with the highest count. *)
Fixpoint max_key (best : Z * nat) (delims : list (Z * nat)) : Z :=
  match delims with
  | [] => best.1
  | (k, n) :: rest =>
    if (best.2 <? n)%nat then max_key (k, n) rest else max_key best rest
  end.

(** [_guess_quote_and_delimiter]: the delimiter, [None] for the empty
    string it returns when it finds none. *)
Definition guess_quote_and_delimiter (data : str) : option Z :=
  let delims :=
    foldl (λ acc g, match delim g with Some k => bump k acc | None => acc end)
      [] (matches data) in
  match delims with
  | [] => None
  | first :: rest => Some (max_key first rest)
  end.

End Patterns.

(** [line.count(char)] *)
Definition count (c : Z) (line : str) : nat := length (filter (λ x, x = c) line).

(** The 7-bit characters [chr(0) .. chr(126)]. *)
Definition ascii : list Z := Z.of_nat <$> seq 0 127.

(** [Sniffer.preferred]: comma, tab, semicolon, space, colon. *)
Definition preferred : list Z := [44; 9; 59; 32; 58].

(** The last of the candidates with the highest count ([items.sort()] on
    (count, character); the candidates come in increasing order). *)
Fixpoint dominant (line : str) (best : Z) (cs : list Z) : Z :=
  match cs with
  | [] => best
  | c :: cs' =>
    if (count best line <=? count c line)%nat then dominant line c cs'
    else dominant line best cs'
  end.

(** [_guess_delimiter] over one line: every 7-bit character that occurs in
    the line is fully consistent; one candidate is taken as it is, several
    are settled by the preferred list, then by the count. *)
Definition guess_delimiter (line : str) : option Z :=
  match filter (λ c, (0 < count c line)%nat) ascii with
  | [] => None
  | [c] => Some c
  | c :: cs =>
    match filter (λ p, p ∈ c :: cs) preferred with
    | p :: _ => Some p
    | [] => Some (dominant line c cs)
    end
  end.

(** [Sniffer().sniff(sample).delimiter] *)
Definition sniff (isalnum : Z → bool) (sample : str) : result Z :=
  match guess_quote_and_delimiter isalnum sample with
  | Some d => Ok d
  | None =>
    match guess_delimiter sample with
    | Some d => Ok d
    | None => Raise (CsvError CouldNotDetermineDelimiter)
    end
  end.

End Sniffer.

(** Lines 36-38: the sample is the first line of the dataset. *)
Definition detect_delimiter (isalnum : Z → bool) (raw_csv : str) : result Z :=
  match Py.splitlines raw_csv with
  | [] => Raise IndexError
  | first_line :: _ => Sniffer.sniff isalnum first_line
  end.

(** ** The handler *)

(** The S3 client: what the calls answer. [get_object] gives the bytes
    [Body.read()] returns, [None] when the call raises; [put_object] tells
    whether the call returns. *)
Record s3_client := S3 {
  get_object : str → str → option bytes;
  put_object : str → str → bytes → bool
}.

(** [event['Records'][0]['s3']]: bucket name and object key. *)
Record event := Event {
  bucket_name : str;
  object_key : str
}.

(** A call made on the client: by the handler, or by the expression that
    line 28 evaluates, which has the client and the bucket name in scope. *)
Inductive s3_call :=
  | GetObject (Bucket Key : str)
  | PutObject (Bucket Key : str) (Body : bytes)
  | OtherCall (operation : str).

(** What the handler takes from its environment in a run: the S3 client;
    [eval], which gives for the text it is handed the calls the evaluation
    makes on the client and the value of the text ([None] when the
    evaluation raises); and [str.isalnum] for the sniffer. An expression that
    replaces what the handler goes on with (its modules, its client) is not
    covered. *)
Record runtime := Runtime {
  s3 : s3_client;
  eval : str → list s3_call * option pyvalue;
  isalnum : Z → bool
}.

(** A computation that calls S3: from the calls made so far to the calls
    made then, and the outcome. *)
Definition io (A : Type) : Type := list s3_call → list s3_call * result A.

Definition io_bind {A B} (c : io A) (k : A → io B) : io B :=
  λ calls,
    match c calls with
    | (calls', Ok a) => k a calls'
    | (calls', Raise e) => (calls', Raise e)
    end.

Definition lift {A} (r : result A) : io A := λ calls, (calls, r).

Notation "'let!' x := c 'in' k" := (io_bind c (fun x => k))
  (at level 10, x name, c at level 200, k at level 200, only parsing).

Definition s3_get_object (rt : runtime) (Bucket Key : str) : io bytes :=
  λ calls,
    (calls ++ [GetObject Bucket Key],
     of_option ClientError (get_object (s3 rt) Bucket Key)).

Definition s3_put_object (rt : runtime) (Bucket Key : str) (Body : bytes)
  : io unit :=
  λ calls,
    (calls ++ [PutObject Bucket Key Body],
     if put_object (s3 rt) Bucket Key Body then Ok () else Raise ClientError).

(** Line 28: the text is evaluated, with whatever calls that makes. *)
Definition run_eval (rt : runtime) (metadata_content : str) : io pyvalue :=
  λ calls,
    (calls ++ (eval rt metadata_content).1,
     of_option EvalError (eval rt metadata_content).2).

(** Lines 26-28: the field list is loaded. *)
Definition load_pii_fields (rt : runtime) (bucket metadata_key : str)
  : io pyvalue :=
  let! metadata_obj := s3_get_object rt bucket metadata_key in
  let! metadata_content :=
    lift (of_option UnicodeDecodeError
            (Py.strip <$> Utf8.decode_sig metadata_obj)) in
  run_eval rt metadata_content.

(** Lines 32-33: the dataset is loaded. *)
Definition load_raw_csv (rt : runtime) (bucket raw_key : str) : io str :=
  let! raw_obj := s3_get_object rt bucket raw_key in
  lift (of_option UnicodeDecodeError (Utf8.decode_sig raw_obj)).

Definition lambda_handler (rt : runtime) (ev : event) : io unit :=
  let metadata_key := object_key ev in
  let raw_key := raw_key metadata_key in
  let output_key := output_key metadata_key in
  let bucket := bucket_name ev in
  let! pii_fields := load_pii_fields rt bucket metadata_key in
  let! raw_csv := load_raw_csv rt bucket raw_key in
  let! delimiter := lift (detect_delimiter (isalnum rt) raw_csv) in
  let! output := lift (transform_with delimiter pii_fields raw_csv) in
  let! body := lift (of_option UnicodeEncodeError (Utf8.encode output)) in
  s3_put_object rt bucket output_key body.

(** What the steps before [put_object] come to: the complete output, or the
    exception of the first step that fails. *)
Definition complete_output (rt : runtime) (ev : event) : result bytes :=
  let bucket := bucket_name ev in
  let metadata_key := object_key ev in
  let* pii_fields := (load_pii_fields rt bucket metadata_key []).2 in
  let* raw_csv := (load_raw_csv rt bucket (raw_key metadata_key) []).2 in
  let* delimiter := detect_delimiter (isalnum rt) raw_csv in
  let* output := transform_with delimiter pii_fields raw_csv in
  of_option UnicodeEncodeError (Utf8.encode output).

(** The bodies handed to [put_object] among the calls made. *)
Definition stored (calls : list s3_call) : list bytes :=
  flat_map (λ c, match c with
                 | PutObject _ _ Body => [Body]
                 | _ => []
                 end) calls.

(** ** A bucket to run the handler on *)

Module Example.

Definition BUCKET : str := text "pii-bucket".

(** The text of the Python list of the two strings email and ssn, and the
    list it evaluates to. *)
Definition metadata : str :=
  [91; DQUOTE] ++ text "email" ++ [DQUOTE; 44; DQUOTE] ++ text "ssn"
  ++ [DQUOTE; 93].

Definition pii_fields : list str := [text "email"; text "ssn"].

(** A client over the listed objects that accepts every [put_object]. *)
Definition client (objects : list (str * str)) : s3_client :=
  S3 (λ _ Key, (λ o, o.2.2) <$> list_find (λ o, o.1 = Key) objects)
     (λ _ _ _, true).

(** Its texts are ASCII, for which [str.isalnum] above U+007F is not
    consulted and the bytes of an object are the code points of its text.
    The evaluation of [metadata] calls nothing. *)
Definition runtime_of (objects : list (str * str)) : runtime :=
  Runtime (client objects)
    (λ s, ([], if bool_decide (s = metadata) then Some (strings pii_fields)
               else None))
    (λ _, false).

(** A metadata text that stores an object before it gives its list: the
    call returns a response, which is true, so that the value is the list. *)
Definition injection : str :=
  text "s3.put_object(Bucket=bucket, Key='x', Body=b'x') and ['email']".



End Example.

(** ** Notions the properties are stated with *)

Definition is_byte (b : Z) : Prop := 0 <= b < 256.

Definition is_ascii (c : Z) : Prop := 0 <= c < 128.

(** The text a strict UTF-8 decoder produces: Unicode scalar values. *)
Definition is_text (v : str) : Prop := Forall (λ c, Utf8.is_scalar c = true) v.

Global Instance is_text_dec v : Decision (is_text v).
Proof. unfold is_text. apply _. Defined.

(** Every cell of the row is such text. *)
Definition row_is_text (row : rowdict) : Prop :=
  map_Forall (λ _ c, from_option is_text True c) (cells row).

Global Instance row_is_text_dec row : Decision (row_is_text row).
Proof.
  unfold row_is_text. apply map_Forall_dec. intros _ [v|]; cbn; apply _.
Defined.

(** [n] tokenizations in a row. *)
Fixpoint tokenize_n (n : nat) (v : str) : result str :=
  match n with
  | O => Ok v
  | S n' =>
    let* t := tokenize v in
    tokenize_n n' t
  end.

(** [sep.join(parts)]. *)
Fixpoint join_with (sep : str) (parts : list str) : str :=
  match parts with
  | [] => []
  | [p] => p
  | p :: ps => p ++ sep ++ join_with sep ps
  end.

(** How often [k] is listed in [fields]. *)
Definition occurrences (k : str) (fields : list str) : nat :=
  length (filter (λ f, f = k) fields).

(** The characters the sniffer counts: [chr(0)] to [chr(126)]. *)
Definition is_7bit (c : Z) : Prop := 0 <= c < 127.

(** A delimiter that is none of the other characters of the dialect. *)
Definition delim_ok (d : Z) : Prop := d ≠ DQUOTE ∧ d ≠ CR ∧ d ≠ LF.

(** A field the reader accepts: within [csv.field_size_limit()]. *)
Definition fits (f : str) : Prop := Z.of_nat (length f) <= Csv.field_limit.

Global Instance fits_dec f : Decision (fits f).
Proof. unfold fits. apply _. Defined.

(** The text of a dataset, from its records. *)
Definition render (d : Z) (rows : list (list str)) : str :=
  concat (map (Csv.writerow d) rows).

(** A reader that gives the records [rows] and stops. *)
Definition yields (rows : list (list str)) : Csv.records :=
  foldr Csv.Yield Csv.Stop rows.

(** The lists handed to [writer.writerow] by the loop of lines 48-52. *)
Fixpoint transform_records (fieldnames pii_fields : list str)
    (rows : Csv.records) : result (list (list str)) :=
  match rows with
  | Csv.Stop => Ok []
  | Csv.Throw e => Raise e
  | Csv.Yield [] rest => transform_records fieldnames pii_fields rest
  | Csv.Yield r rest =>
    let* row := mask_row pii_fields (to_dict fieldnames r) in
    let* values := dict_to_list fieldnames row in
    let* more := transform_records fieldnames pii_fields rest in
    Ok (values :: more)
  end.

(** The header and the rows handed to the writer in a run of the
    transformer. *)
Definition written (d : Z) (pii_fields : list str) (raw_csv : str)
  : result (list str * list (list str)) :=
  match Csv.reader_of d raw_csv with
  | Csv.Stop => Raise TypeError
  | Csv.Throw e => Raise e
  | Csv.Yield fieldnames rows =>
    let* more := transform_records fieldnames pii_fields rows in
    Ok (fieldnames, more)
  end.

(** What a second pass makes of a written row: under a listed column a
    non-empty value is tokenized again, once per occurrence of the column
    in the list, and is another value then; every other value stays. *)
Definition reencoded (pii_fields header values values2 : list str) : Prop :=
  length values2 = length values
  ∧ ∀ j k t,
      header !! j = Some k → values !! j = Some t →
      (k ∈ pii_fields → t ≠ [] →
       ∃ t', values2 !! j = Some t'
             ∧ tokenize_n (occurrences k pii_fields) t = Ok t' ∧ t' ≠ t)
      ∧ (k ∉ pii_fields ∨ t = [] → values2 !! j = Some t).

(** The lines of a text whose first line may still be going on. *)
Definition open_lines (s : str) : list str :=
  match Csv.readlines s with
  | [] => [[]]
  | ls => ls
  end.

(** The reader in front of a field. *)
Definition before_field (r : Csv.reader) : Prop :=
  (Csv.state r = Csv.START_RECORD ∨ Csv.state r = Csv.START_FIELD)
  ∧ Csv.field r = [].

(** The reader behind the text of the field [f]. *)
Definition behind_field (f : str) (fs : list str) (r : Csv.reader) : Prop :=
  Csv.field r = f ∧ Csv.fields r = fs
  ∧ (Csv.state r = Csv.IN_FIELD ∨ Csv.state r = Csv.QUOTE_IN_QUOTED_FIELD
     ∨ (Csv.state r = Csv.START_FIELD ∨ Csv.state r = Csv.START_RECORD)
       ∧ f = []).

(** The calls the evaluation of the metadata text makes in a run: none when
    the run does not get that far. *)
Definition evaluated (rt : runtime) (ev : event) : list s3_call :=
  match get_object (s3 rt) (bucket_name ev) (object_key ev) with
  | Some metadata_obj =>
    match Utf8.decode_sig metadata_obj with
    | Some metadata_text => (eval rt (Py.strip metadata_text)).1
    | None => []
    end
  | None => []
  end.

(** The reader holds no field above the limit. *)
Definition reader_fits (r : Csv.reader) : Prop :=
  fits (Csv.field r) ∧ Forall fits (Csv.fields r).

(** The text of a record as the writer writes it, without the line
    terminator. *)
Definition record_text (d : Z) (row : list str) : str :=
  match row with
  | [[]] => [DQUOTE; DQUOTE]
  | _ => Csv.join d (map (Csv.write_field d) row)
  end.

(** The text of a dataset whose records all end with [nl]. *)
Definition render_with (nl : str) (d : Z) (rows : list (list str)) : str :=
  concat (map (λ row, record_text d row ++ nl) rows).

(** What a reader gives is in order: every record satisfies [Q] and an
    exception, if one ends the records, is a csv.Error. *)
Fixpoint records_ok (Q : list str → Prop) (rs : Csv.records) : Prop :=
  match rs with
  | Csv.Stop => True
  | Csv.Yield r rest => Q r ∧ records_ok Q rest
  | Csv.Throw e => ∃ c, e = CsvError c
  end.

(** The characters the reader holds satisfy [P]. *)
Definition reader_chars (P : Z → Prop) (r : Csv.reader) : Prop :=
  Forall P (Csv.field r) ∧ Forall (Forall P) (Csv.fields r).

(** A column name that is written as it is and does not mislead the
    detection: it holds no delimiter, no quote and no line boundary. *)
Definition plain (d : Z) (f : str) : Prop :=
  Forall (λ c, c ≠ d ∧ Sniffer.is_quote c = false
               ∧ Py.is_linebreak c = false) f.

Global Instance plain_dec d f : Decision (plain d f).
Proof. unfold plain. apply _. Defined.

(** What the transformer makes of the record [r] under the header: every
    field read is tokenized once per occurrence of its column in
    [pii_fields], the columns the record does not reach are empty. *)
Definition masked (pii_fields header r values : list str) : Prop :=
  length values = length header
  ∧ (∀ i k v,
       header !! i = Some k → r !! i = Some v →
       ∃ t, tokenize_n (occurrences k pii_fields) v = Ok t
            ∧ values !! i = Some t)
  ∧ ∀ i, (length r ≤ i < length header)%nat → values !! i = Some [].

(** * Properties *)

Ltac by_compute := apply (bool_decide_unpack _); vm_compute; exact I.

Ltac bool_lia :=
  repeat match goal with
  | |- context [if ?b then _ else _] =>
    first [ replace b with true by lia | replace b with false by lia ]
  end.

Lemma utf8_decode_char c bs rest :
  Utf8.encode_char c = Some bs →
  Utf8.decode (bs ++ rest) = cons c <$> Utf8.decode rest.
Proof.
  unfold Utf8.encode_char, Utf8.is_scalar, Utf8.is_surrogate.
  destruct (negb _) eqn:Hs; [done|].
  apply negb_false_iff in Hs.
  repeat case_match; intros [= <-]; cbn [app Utf8.decode];
    unfold Utf8.is_cont, Utf8.is_surrogate; bool_lia.
  - done.
  - f_equal. f_equal. lia.
  - cbv zeta. bool_lia. f_equal. f_equal. lia.
  - cbv zeta. bool_lia. f_equal. f_equal. lia.
Qed.

Lemma utf8_roundtrip s bs :
  Utf8.encode s = Some bs → Utf8.decode bs = Some s.
Proof.
  revert bs. induction s as [|c s IH]; intros bs; cbn [Utf8.encode].
  - by intros [= <-].
  - destruct (Utf8.encode_char c) as [b|] eqn:Hc; [|done].
    destruct (Utf8.encode s) as [bs'|]; [|done].
    intros [= <-]. rewrite (utf8_decode_char _ _ _ Hc), (IH bs' eq_refl). done.
Qed.

Lemma utf8_encode_char_bytes c bs :
  Utf8.encode_char c = Some bs → Forall is_byte bs.
Proof.
  unfold Utf8.encode_char, Utf8.is_scalar, Utf8.is_surrogate, is_byte.
  destruct (negb _) eqn:Hs; [done|].
  apply negb_false_iff in Hs.
  repeat case_match; intros [= <-]; repeat constructor; lia.
Qed.

Lemma utf8_encode_bytes s bs :
  Utf8.encode s = Some bs → Forall is_byte bs.
Proof.
  revert bs. induction s as [|c s IH]; intros bs; cbn [Utf8.encode].
  - intros [= <-]. constructor.
  - destruct (Utf8.encode_char c) as [b|] eqn:Hc; [|done].
    destruct (Utf8.encode s) as [bs'|]; [|done].
    intros [= <-]. apply Forall_app. split; [by eapply utf8_encode_char_bytes|by apply IH].
Qed.

Lemma utf8_encode_length s bs :
  Utf8.encode s = Some bs → (length s ≤ length bs)%nat.
Proof.
  revert bs. induction s as [|c s IH]; intros bs; cbn [Utf8.encode].
  - intros [= <-]. done.
  - destruct (Utf8.encode_char c) as [b|] eqn:Hc; [|done].
    destruct (Utf8.encode s) as [bs'|]; [|done].
    intros [= <-]. rewrite length_app. specialize (IH _ eq_refl).
    assert (1 ≤ length b)%nat; [|simpl; lia].
    revert Hc. unfold Utf8.encode_char. repeat case_match; intros [= <-]; simpl; lia.
Qed.

Lemma utf8_encode_scalar s :
  Forall (λ c, Utf8.is_scalar c = true) s → is_Some (Utf8.encode s).
Proof.
  induction 1 as [|c s Hc _ [bs IH]]; cbn [Utf8.encode]; [by eexists|].
  rewrite IH. unfold Utf8.encode_char. rewrite Hc. cbn [negb].
  repeat case_match; by eexists.
Qed.

Lemma index_digit i : 0 <= i < 64 → Base64.index (Base64.digit i) = Some i.
Proof.
  intros Hi. unfold Base64.digit, Base64.index.
  repeat case_match; try lia; f_equal; lia.
Qed.

Lemma digit_range i : 0 <= i < 64 → 43 <= Base64.digit i <= 122 ∧ Base64.digit i ≠ Base64.PAD.
Proof.
  intros Hi. unfold Base64.digit, Base64.PAD. repeat case_match; lia.
Qed.

Lemma list_ind3 {A} (P : list A → Prop) :
  P [] → (∀ a, P [a]) → (∀ a b, P [a; b]) →
  (∀ a b c l, P l → P (a :: b :: c :: l)) → ∀ l, P l.
Proof.
  intros H0 H1 H2 H3. fix IH 1.
  intros [|a [|b [|c l]]]; [apply H0|apply H1|apply H2|apply H3, IH].
Qed.

Lemma b64encode_nil bs : Base64.b64encode bs = [] → bs = [].
Proof. by destruct bs as [|? [|? [|? ?]]]. Qed.

Lemma b64_roundtrip bs :
  Forall is_byte bs → Base64.b64decode (Base64.b64encode bs) = Some bs.
Proof.
  unfold is_byte.
  induction bs as [|a|a b|a b c l IH] using list_ind3; intros Hb.
  - done.
  - apply Forall_cons in Hb as [Ha _].
    cbn [Base64.b64encode Base64.b64decode].
    rewrite !index_digit by lia. cbv zeta. rewrite !Z.eqb_refl. cbn [andb].
    f_equal. f_equal. lia.
  - apply Forall_cons in Hb as [Ha Hb]. apply Forall_cons in Hb as [Hb _].
    cbn [Base64.b64encode Base64.b64decode].
    rewrite !index_digit by lia. cbv zeta. rewrite !Z.eqb_refl.
    destruct (digit_range (b mod 16 * 4)) as [_ Hp]; [lia|].
    apply Z.eqb_neq in Hp. rewrite Hp. cbn [andb].
    f_equal. f_equal; [lia|]. f_equal. lia.
  - apply Forall_cons in Hb as [Ha Hb]. apply Forall_cons in Hb as [Hb Hc].
    apply Forall_cons in Hc as [Hc Hl].
    cbn [Base64.b64encode Base64.b64decode].
    rewrite !index_digit by lia. cbv zeta. rewrite IH by done.
    destruct (Base64.b64encode l) eqn:Hl'.
    + apply b64encode_nil in Hl' as ->.
      destruct (digit_range (b mod 16 * 4 + c / 64)) as [_ Hp]; [lia|].
      destruct (digit_range (c mod 64)) as [_ Hp']; [lia|].
      apply Z.eqb_neq in Hp, Hp'. rewrite Hp, Hp'. cbn [andb].
      f_equal. f_equal; [lia|]. f_equal; [lia|]. f_equal. lia.
    + f_equal. f_equal; [lia|]. f_equal; [lia|]. f_equal. lia.
Qed.

Lemma b64encode_ascii bs :
  Forall is_byte bs → Forall is_ascii (Base64.b64encode bs).
Proof.
  unfold is_byte, is_ascii.
  induction bs as [|a|a b|a b c l IH] using list_ind3; intros Hb;
    cbn [Base64.b64encode]; unfold Base64.PAD;
    repeat match goal with
    | H : Forall _ (_ :: _) |- _ => apply Forall_cons in H as [? H]
    end;
    repeat (apply Forall_cons; split); try apply Forall_nil; auto;
    match goal with
    | |- _ <= Base64.digit ?i < _ => pose proof (digit_range i); lia
    | _ => lia
    end.
Qed.

Lemma b64encode_length bs :
  (4 * length bs ≤ 3 * length (Base64.b64encode bs))%nat.
Proof.
  induction bs as [|a|a b|a b c l IH] using list_ind3;
    cbn [Base64.b64encode length]; lia.
Qed.

Lemma is_ascii_scalar c : is_ascii c → Utf8.is_scalar c = true.
Proof. unfold is_ascii, Utf8.is_scalar, Utf8.is_surrogate. lia. Qed.

Lemma tokenize_ok v : is_text v → ∃ t, tokenize v = Ok t.
Proof.
  intros [bs Hbs]%utf8_encode_scalar. unfold tokenize. rewrite Hbs. by eexists.
Qed.

Lemma tokenize_inv v t :
  tokenize v = Ok t →
  ∃ bs, Utf8.encode v = Some bs ∧ t = Base64.b64encode bs.
Proof.
  unfold tokenize. destruct (Utf8.encode v) as [bs|]; [|done].
  intros [= <-]. by exists bs.
Qed.

Lemma tokenize_roundtrip v t : tokenize v = Ok t → detokenize t = Some v.
Proof.
  intros (bs & Hbs & ->)%tokenize_inv. unfold detokenize.
  rewrite b64_roundtrip by by eapply utf8_encode_bytes.
  by apply utf8_roundtrip.
Qed.

Lemma tokenize_ascii v t : tokenize v = Ok t → Forall is_ascii t.
Proof.
  intros (bs & Hbs & ->)%tokenize_inv.
  by eapply b64encode_ascii, utf8_encode_bytes.
Qed.

Lemma tokenize_text v t : tokenize v = Ok t → is_text t.
Proof.
  intros H%tokenize_ascii. eapply Forall_impl; [done|]. apply is_ascii_scalar.
Qed.

Lemma tokenize_length v t :
  tokenize v = Ok t → v ≠ [] → (length v < length t)%nat.
Proof.
  intros (bs & Hbs & ->)%tokenize_inv Hv.
  pose proof (utf8_encode_length _ _ Hbs). pose proof (b64encode_length bs).
  destruct v; [done|]. simpl in *. lia.
Qed.

Lemma tokenize_nonempty v t : tokenize v = Ok t → v ≠ [] → t ≠ [].
Proof. intros H Hv%(tokenize_length _ _ H). by destruct t; simpl in *; [lia|]. Qed.

Lemma tokenize_n_last n v :
  tokenize_n (S n) v = (let* u := tokenize_n n v in tokenize u).
Proof.
  revert v. induction n as [|n IH]; intros v.
  - cbn. by destruct (tokenize v).
  - change (tokenize_n (S (S n)) v) with (let* t := tokenize v in tokenize_n (S n) t).
    cbn [tokenize_n]. destruct (tokenize v); [|done]. cbn [bind]. apply IH.
Qed.

Lemma tokenize_n_length n v t :
  tokenize_n n v = Ok t → v ≠ [] → (n ≠ 0)%nat → (length v < length t)%nat.
Proof.
  revert v. induction n as [|n IH]; intros v; [done|].
  cbn [tokenize_n]. destruct (tokenize v) as [u|] eqn:Hu; [|done]. cbn [bind].
  intros Ht Hv _. pose proof (tokenize_length _ _ Hu Hv).
  destruct n as [|n]; [cbn in Ht; by simplify_eq|].
  pose proof (IH u Ht (tokenize_nonempty _ _ Hu Hv)). lia.
Qed.

Lemma row_is_text_lookup row k v :
  row_is_text row → cells row !! k = Some (Some v) → is_text v.
Proof. intros Hrow Hk. apply (Hrow _ _ Hk). Qed.

Lemma mask_field_other f k row row' :
  mask_field f row = Ok row' → f ≠ k → cells row' !! k = cells row !! k.
Proof.
  unfold mask_field. intros H Hne.
  destruct (cells row !! f) as [[v|]|]; try by simplify_eq.
  case_bool_decide; [|by simplify_eq].
  destruct (tokenize v); [|done]. cbn in H. simplify_eq. cbn.
  by rewrite lookup_insert_ne.
Qed.

Lemma mask_field_restkey f row row' :
  mask_field f row = Ok row' → restkey row' = restkey row.
Proof.
  unfold mask_field. intros H.
  destruct (cells row !! f) as [[v|]|]; try by simplify_eq.
  case_bool_decide; [|by simplify_eq].
  destruct (tokenize v); [|done]. cbn in H. by simplify_eq.
Qed.

Lemma mask_field_dom f row row' :
  mask_field f row = Ok row' → dom (cells row') = dom (cells row).
Proof.
  unfold mask_field. intros H.
  destruct (cells row !! f) as [[v|]|] eqn:Hf; try by simplify_eq.
  case_bool_decide; [|by simplify_eq].
  destruct (tokenize v); [|done]. cbn in H. simplify_eq. cbn.
  rewrite dom_insert_L. apply (elem_of_dom_2 (cells row)) in Hf. set_solver.
Qed.

Lemma mask_field_hit f row v :
  cells row !! f = Some (Some v) → v ≠ [] →
  mask_field f row
  = (let* t := tokenize v in Ok (RowDict (<[f := Some t]> (cells row)) (restkey row))).
Proof. intros Hf Hv. unfold mask_field. rewrite Hf. by rewrite bool_decide_true. Qed.

Lemma mask_field_miss f row :
  cells row !! f = Some (Some []) ∨ cells row !! f = Some None ∨ cells row !! f = None →
  mask_field f row = Ok row.
Proof. unfold mask_field. by intros [->|[->| ->]]. Qed.

Lemma mask_field_text f row row' :
  mask_field f row = Ok row' → row_is_text row → row_is_text row'.
Proof.
  unfold mask_field. intros H Hrow.
  destruct (cells row !! f) as [[v|]|] eqn:Hf; try by simplify_eq.
  case_bool_decide; [|by simplify_eq].
  destruct (tokenize v) as [t|] eqn:Ht; [|done]. cbn in H. simplify_eq.
  apply map_Forall_insert_2; [|done]. by eapply tokenize_text.
Qed.

Lemma mask_field_ok f row : row_is_text row → ∃ row', mask_field f row = Ok row'.
Proof.
  intros Hrow. unfold mask_field.
  destruct (cells row !! f) as [[v|]|] eqn:Hf; try by eexists.
  case_bool_decide; [|by eexists].
  destruct (tokenize_ok v (row_is_text_lookup _ _ _ Hrow Hf)) as [t ->].
  by eexists.
Qed.

Lemma mask_row_ok fields row :
  row_is_text row → ∃ row', mask_row fields row = Ok row'.
Proof.
  revert row. induction fields as [|f fields IH]; intros row Hrow; [by eexists|].
  cbn [mask_row]. destruct (mask_field_ok f row Hrow) as [row1 H1].
  rewrite H1. cbn [bind]. apply IH. by eapply mask_field_text.
Qed.

Lemma mask_row_restkey fields row row' :
  mask_row fields row = Ok row' → restkey row' = restkey row.
Proof.
  revert row. induction fields as [|f fields IH]; intros row; cbn [mask_row].
  - by intros [= <-].
  - destruct (mask_field f row) as [row1|] eqn:H1; [|done]. cbn [bind].
    intros ->%IH. by eapply mask_field_restkey.
Qed.

Lemma mask_row_dom fields row row' :
  mask_row fields row = Ok row' → dom (cells row') = dom (cells row).
Proof.
  revert row. induction fields as [|f fields IH]; intros row; cbn [mask_row].
  - by intros [= <-].
  - destruct (mask_field f row) as [row1|] eqn:H1; [|done]. cbn [bind].
    intros ->%IH. by eapply mask_field_dom.
Qed.

(** A cell the loop does not touch. *)
Lemma mask_row_pass fields row row' k :
  mask_row fields row = Ok row' →
  k ∉ fields ∨ cells row !! k = Some (Some []) ∨ cells row !! k = Some None
  ∨ cells row !! k = None →
  cells row' !! k = cells row !! k.
Proof.
  revert row. induction fields as [|f fields IH]; intros row; cbn [mask_row].
  - by intros [= <-].
  - destruct (mask_field f row) as [row1|] eqn:H1; [|done]. cbn [bind].
    intros Hrest Hk. destruct (decide (f = k)) as [->|Hne].
    + destruct Hk as [Hk|Hk]; [set_solver|].
      rewrite mask_field_miss in H1 by done. simplify_eq. apply IH; auto.
    + rewrite <- (mask_field_other _ _ _ _ H1 Hne). apply IH; [done|].
      rewrite (mask_field_other _ _ _ _ H1 Hne). set_solver.
Qed.

(** A cell the loop does touch: once per occurrence of its name. *)
Lemma mask_row_hit fields row row' k v :
  mask_row fields row = Ok row' →
  cells row !! k = Some (Some v) → v ≠ [] →
  ∃ t, tokenize_n (occurrences k fields) v = Ok t
       ∧ cells row' !! k = Some (Some t).
Proof.
  revert row v. induction fields as [|f fields IH]; intros row v; cbn [mask_row].
  - intros [= <-] Hk _. by exists v.
  - destruct (mask_field f row) as [row1|] eqn:H1; [|done]. cbn [bind].
    intros Hrest Hk Hv. unfold occurrences. rewrite filter_cons.
    destruct (decide (f = k)) as [->|Hne].
    + rewrite (mask_field_hit _ _ v) in H1 by done.
      destruct (tokenize v) as [u|] eqn:Hu; [|done]. cbn in H1. simplify_eq.
      cbn [length tokenize_n]. rewrite Hu. cbn [bind].
      apply (IH _ u Hrest); [cbn; by rewrite lookup_insert_eq|].
      by eapply tokenize_nonempty.
    + apply (IH _ v Hrest); [|done].
      by rewrite (mask_field_other _ _ _ _ H1 Hne).
Qed.

Lemma dict_to_list_lookup fieldnames row values i k :
  dict_to_list fieldnames row = Ok values →
  fieldnames !! i = Some k →
  values !! i = Some (cell_text (default (Some []) (cells row !! k))).
Proof.
  unfold dict_to_list. case_match; [|done]. intros [= <-] Hi.
  change map with (@fmap list _) . by rewrite list_lookup_fmap, Hi.
Qed.

Lemma occurrences_pos k fields : k ∈ fields → (0 < occurrences k fields)%nat.
Proof.
  unfold occurrences. induction 1 as [k fields|k f fields _ IH].
  - rewrite filter_cons_True by done. simpl. lia.
  - rewrite filter_cons. case_decide; simpl; lia.
Qed.

(** C10. The loop goes through [pii_fields] as given: a non-empty cell is
    encoded once per occurrence of its name in the list, each time the
    result of the time before; one decoding gives the original value back
    exactly when the name is listed once. *)
Theorem duplicate_field_encodes_again pii_fields row field v :
  field ∈ pii_fields →
  cells row !! field = Some (Some v) → v ≠ [] →
  row_is_text row →
  ∃ row' t,
    mask_row pii_fields row = Ok row'
    ∧ tokenize_n (occurrences field pii_fields) v = Ok t
    ∧ cells row' !! field = Some (Some t)
    ∧ (detokenize t = Some v ↔ occurrences field pii_fields = 1%nat).
Proof.
  intros Hin Hk Hv Hrow.
  destruct (mask_row_ok pii_fields row Hrow) as [row' Hrow'].
  destruct (mask_row_hit _ _ _ _ _ Hrow' Hk Hv) as (t & Ht & Hk').
  exists row', t. repeat split; try done.
  - intros Hdec. apply occurrences_pos in Hin.
    destruct (occurrences field pii_fields) as [|[|m]]; [lia|done|].
    rewrite tokenize_n_last in Ht.
    destruct (tokenize_n (S m) v) as [u|] eqn:Hu; [|done]. cbn [bind] in Ht.
    rewrite (tokenize_roundtrip _ _ Ht) in Hdec. simplify_eq.
    pose proof (tokenize_n_length _ _ _ Hu Hv). lia.
  - intros Hone. rewrite Hone in Ht. cbn in Ht.
    destruct (tokenize v) as [u|] eqn:Hu; [|done]. cbn in Ht. simplify_eq.
    by apply tokenize_roundtrip.
Qed.

Lemma duplicate_field_encodes_again_witness :
  ∃ row' t,
    mask_row [text "a"; text "b"; text "a"]
      (to_dict [text "a"; text "b"] [text "x"; text "y"]) = Ok row'
    ∧ tokenize_n (occurrences (text "a") [text "a"; text "b"; text "a"])
        (text "x") = Ok t
    ∧ cells row' !! text "a" = Some (Some t)
    ∧ (detokenize t = Some (text "x")
       ↔ occurrences (text "a") [text "a"; text "b"; text "a"] = 1%nat).
Proof.
  apply duplicate_field_encodes_again.
  - constructor.
  - vm_compute. reflexivity.
  - discriminate.
  - apply (bool_decide_unpack _). vm_compute. exact I.
Defined.

(** ** Paths *)

Lemma basename_no_slash p : SLASH ∉ p → Py.basename p = p.
Proof. destruct p; [done|]. intros H. cbn. by rewrite bool_decide_false. Qed.

Lemma basename_app dir p :
  dir = [] ∨ last dir = Some SLASH → SLASH ∉ p →
  Py.basename (dir ++ p) = p.
Proof.
  intros Hdir Hp. induction dir as [|c dir IH]; [by apply basename_no_slash|].
  cbn [app Py.basename]. destruct Hdir as [|Hlast]; [done|].
  rewrite bool_decide_true.
  - apply IH. destruct dir; [by left|by right].
  - rewrite app_comm_cons. apply elem_of_app. left.
    clear IH. revert c Hlast. induction dir as [|c' dir IH]; intros c Hlast.
    + cbn in Hlast. simplify_eq. constructor.
    + apply elem_of_cons. right. apply IH. done.
Qed.

Lemma startswith_lookup p s i :
  Py.startswith p s = true → (i < length p)%nat → s !! i = p !! i.
Proof.
  revert s i. induction p as [|a p IH]; intros [|b s] i; cbn; try done; try lia.
  intros [->%Z.eqb_eq Hps]%andb_true_iff Hi.
  destruct i as [|i]; [done|]. cbn. apply IH; [done|lia].
Qed.

Lemma startswith_long p s r :
  (length p ≤ length s)%nat →
  Py.startswith p (s ++ r) = Py.startswith p s.
Proof.
  revert s. induction p as [|a p IH]; intros [|b s]; cbn; try done; try lia.
  intros Hlen. rewrite IH by lia. done.
Qed.

(** The suffix cannot overlap itself: its last character occurs nowhere
    else in it. *)
Lemma suffix_last_unique j :
  (j < 15)%nat → PII_SUFFIX !! j ≠ PII_SUFFIX !! 15%nat.
Proof.
  intros Hj. do 15 (destruct j as [|j]; [vm_compute; discriminate|]). lia.
Qed.

Lemma suffix_not_at x X :
  Py.startswith PII_SUFFIX (x :: X) = false →
  Py.startswith PII_SUFFIX ((x :: X) ++ PII_SUFFIX) = false.
Proof.
  intros Hno. destruct (decide (16 ≤ length (x :: X))%nat) as [Hlen|Hlen].
  - by rewrite startswith_long.
  - apply not_true_is_false. intros Hyes.
    pose proof (startswith_lookup _ _ 15 Hyes) as H15.
    rewrite lookup_app_r in H15 by lia.
    assert (15 - length (x :: X) < 15)%nat as Hj by (cbn [length]; lia).
    apply (suffix_last_unique _ Hj). apply H15. vm_compute. lia.
Qed.

Lemma remove_suffix_end X :
  Py.contains PII_SUFFIX X = false →
  Py.remove_from PII_SUFFIX 0 (X ++ PII_SUFFIX) = X.
Proof.
  induction X as [|x X IH]; [done|].
  cbn [Py.contains]. intros [Hhere Hrest]%orb_false_iff.
  change (Py.remove_from PII_SUFFIX 0 ((x :: X) ++ PII_SUFFIX))
    with (if Py.startswith PII_SUFFIX ((x :: X) ++ PII_SUFFIX)
          then Py.remove_from PII_SUFFIX (Nat.pred (length PII_SUFFIX))
                 (X ++ PII_SUFFIX)
          else x :: Py.remove_from PII_SUFFIX 0 (X ++ PII_SUFFIX)).
  rewrite suffix_not_at by done. by rewrite IH.
Qed.

Lemma remove_absent old s :
  Py.contains old s = false → Py.remove_from old 0 s = s.
Proof.
  induction s as [|c s IH]; [done|].
  cbn [Py.contains Py.remove_from]. intros [-> Hrest]%orb_false_iff.
  by rewrite IH.
Qed.

Lemma contains_slash_free X :
  SLASH ∉ X → SLASH ∉ X ++ PII_SUFFIX.
Proof.
  intros HX [H|H]%elem_of_app; [done|].
  vm_compute in H. repeat (apply elem_of_cons in H as [H|H]; [discriminate|]).
  by apply elem_of_nil in H.
Qed.

Lemma filename_base_suffix dir X :
  dir = [] ∨ last dir = Some SLASH → SLASH ∉ X →
  Py.contains PII_SUFFIX X = false →
  filename_base (dir ++ X ++ PII_SUFFIX) = X
  ∧ filename_base (dir ++ X) = X.
Proof.
  intros Hdir HX Hno. unfold filename_base.
  rewrite !basename_app by auto using contains_slash_free.
  split; [by apply remove_suffix_end|by apply remove_absent].
Qed.

Lemma suffix_not_at_before x X rest :
  Py.startswith PII_SUFFIX (x :: X) = false →
  Py.startswith PII_SUFFIX ((x :: X) ++ PII_SUFFIX ++ rest) = false.
Proof.
  intros Hno. rewrite app_assoc, startswith_long; [by apply suffix_not_at|].
  rewrite length_app. lia.
Qed.

(** One occurrence of the suffix behind a text that holds none: the scan
    copies the text, drops the occurrence and resumes behind it. *)
Lemma remove_suffix_before X rest :
  Py.contains PII_SUFFIX X = false →
  Py.remove_from PII_SUFFIX 0 (X ++ PII_SUFFIX ++ rest)
  = X ++ Py.remove_from PII_SUFFIX 0 rest.
Proof.
  induction X as [|x X IH]; [done|].
  cbn [Py.contains]. intros [Hhere Hrest]%orb_false_iff.
  change (Py.remove_from PII_SUFFIX 0 ((x :: X) ++ PII_SUFFIX ++ rest))
    with (if Py.startswith PII_SUFFIX ((x :: X) ++ PII_SUFFIX ++ rest)
          then Py.remove_from PII_SUFFIX (Nat.pred (length PII_SUFFIX))
                 (X ++ PII_SUFFIX ++ rest)
          else x :: Py.remove_from PII_SUFFIX 0 (X ++ PII_SUFFIX ++ rest)).
  rewrite suffix_not_at_before by done. by rewrite IH.
Qed.

Lemma remove_joined parts :
  Forall (λ X, Py.contains PII_SUFFIX X = false) parts →
  Py.remove_from PII_SUFFIX 0 (join_with PII_SUFFIX parts) = concat parts.
Proof.
  induction 1 as [|X parts HX Hparts IH]; [done|].
  destruct parts as [|Y parts].
  - cbn [join_with concat]. rewrite app_nil_r. by apply remove_absent.
  - change (join_with PII_SUFFIX (X :: Y :: parts))
      with (X ++ PII_SUFFIX ++ join_with PII_SUFFIX (Y :: parts)).
    rewrite remove_suffix_before by done. by rewrite IH.
Qed.

Lemma joined_slash_free parts :
  Forall (λ X, SLASH ∉ X) parts → SLASH ∉ join_with PII_SUFFIX parts.
Proof.
  induction 1 as [|X parts HX Hparts IH]; [by apply not_elem_of_nil|].
  destruct parts as [|Y parts]; [done|].
  change (join_with PII_SUFFIX (X :: Y :: parts))
    with (X ++ PII_SUFFIX ++ join_with PII_SUFFIX (Y :: parts)).
  rewrite app_assoc. intros [H|H]%elem_of_app; [|done].
  by apply (contains_slash_free X).
Qed.

Lemma filename_base_joined dir parts :
  dir = [] ∨ last dir = Some SLASH →
  Forall (λ X, (SLASH ∉ X) ∧ Py.contains PII_SUFFIX X = false) parts →
  filename_base (dir ++ join_with PII_SUFFIX parts) = concat parts.
Proof.
  intros Hdir Hparts. unfold filename_base.
  rewrite basename_app; [|done|].
  - apply remove_joined. eapply Forall_impl; [done|]. by intros X [_ ?].
  - apply joined_slash_free. eapply Forall_impl; [done|]. by intros X [? _].
Qed.

(** C4 (as amended). Paths are resolved without any check of the key: the
    base name of the key (what follows its last slash) loses every
    occurrence of [_pii_fields.json]. For a key
    [dir/X1_pii_fields.jsonX2_pii_fields.json...Xn], where [dir/] is empty
    or ends with a slash and no [Xi] holds a slash or the suffix, the
    dataset is [raw/X1X2...Xn.csv] and the output
    [tokenized/X1X2...Xn_tokenized.csv]. So a key [dir/X_pii_fields.json]
    gives [raw/X.csv] and [tokenized/X_tokenized.csv], and a key [dir/X]
    without the suffix is not refused: it gives the same two paths. *)
Theorem path_resolver dir parts :
  dir = [] ∨ last dir = Some SLASH →
  Forall (λ X, (SLASH ∉ X) ∧ Py.contains PII_SUFFIX X = false) parts →
  (raw_key (dir ++ join_with PII_SUFFIX parts)
   = text "raw/" ++ concat parts ++ text ".csv"
   ∧ output_key (dir ++ join_with PII_SUFFIX parts)
     = text "tokenized/" ++ concat parts ++ text "_tokenized.csv")
  ∧ (∀ X, parts = [X; []] →
       raw_key (dir ++ X ++ PII_SUFFIX) = text "raw/" ++ X ++ text ".csv"
       ∧ output_key (dir ++ X ++ PII_SUFFIX)
         = text "tokenized/" ++ X ++ text "_tokenized.csv")
  ∧ (∀ X, parts = [X] →
       raw_key (dir ++ X) = text "raw/" ++ X ++ text ".csv"
       ∧ output_key (dir ++ X)
         = text "tokenized/" ++ X ++ text "_tokenized.csv").
Proof.
  intros Hdir Hparts. unfold raw_key, output_key.
  pose proof (filename_base_joined dir parts Hdir Hparts) as Hbase.
  split; [by rewrite Hbase|]. split; intros X ->.
  - cbn [join_with concat] in Hbase. rewrite !app_nil_r in Hbase.
    by rewrite Hbase.
  - cbn [join_with concat] in Hbase. rewrite !app_nil_r in Hbase.
    by rewrite Hbase.
Qed.

Lemma path_resolver_witness :
  let dir := text "metadata/" in
  let parts := [text "a"; text "b"; []] in
  dir ++ join_with PII_SUFFIX parts
  = text "metadata/a_pii_fields.jsonb_pii_fields.json"
  ∧ (raw_key (dir ++ join_with PII_SUFFIX parts)
     = text "raw/" ++ concat parts ++ text ".csv"
     ∧ output_key (dir ++ join_with PII_SUFFIX parts)
       = text "tokenized/" ++ concat parts ++ text "_tokenized.csv")
  ∧ (∀ X, parts = [X; []] →
       raw_key (dir ++ X ++ PII_SUFFIX) = text "raw/" ++ X ++ text ".csv"
       ∧ output_key (dir ++ X ++ PII_SUFFIX)
         = text "tokenized/" ++ X ++ text "_tokenized.csv")
  ∧ (∀ X, parts = [X] →
       raw_key (dir ++ X) = text "raw/" ++ X ++ text ".csv"
       ∧ output_key (dir ++ X)
         = text "tokenized/" ++ X ++ text "_tokenized.csv").
Proof.
  cbv zeta. split; [reflexivity|]. apply path_resolver.
  - right. vm_compute. reflexivity.
  - by_compute.
Defined.

(** C4 (as stated) fails: a key that does not end with the suffix is not
    refused. The handler, triggered by [metadata/data.json], reads
    [raw/data.json.csv] and stores [tokenized/data.json_tokenized.csv]. *)
Lemma path_resolver_accepts_any_key :
  let key := text "metadata/data.json" in
  let rt := Example.runtime_of
    [(key, Example.metadata);
     (text "raw/data.json.csv",
      text "id,email" ++ [LF] ++ text "1,a@b.com" ++ [LF])] in
  Py.endswith PII_SUFFIX key = false
  ∧ lambda_handler rt (Event Example.BUCKET key) []
    = ([GetObject Example.BUCKET key;
        GetObject Example.BUCKET (text "raw/data.json.csv");
        PutObject Example.BUCKET (text "tokenized/data.json_tokenized.csv")
          (text "id,email" ++ [CR; LF] ++ text "1,YUBiLmNvbQ=="
           ++ [CR; LF])],
       Ok ()).
Proof. vm_compute. done. Qed.

(** ** The handler and the store *)

Ltac run_io :=
  unfold lambda_handler, load_pii_fields, load_raw_csv, run_eval, io_bind,
    lift, s3_get_object, s3_put_object, of_option; cbn [fst snd app].

(** For a list of strings the loop is [mask_row] and the transformer is
    [transform]. *)
Lemma mask_items_strings fields row :
  mask_items (PyStr <$> fields) row = mask_row fields row.
Proof.
  revert row. induction fields as [|f fields IH]; intros row; [done|].
  cbn [fmap list_fmap mask_items mask_item mask_row].
  destruct (mask_field f row); [apply IH|done].
Qed.

Lemma transform_rows_with_strings d fieldnames fields rows out :
  transform_rows_with d fieldnames (strings fields) rows out
  = transform_rows d fieldnames fields rows out.
Proof.
  revert out. induction rows as [|r rest IH|e]; intros out; [done| |done].
  destruct r as [|f r]; [apply IH|].
  cbn [transform_rows_with transform_rows iterate strings bind fst snd].
  rewrite mask_items_strings.
  destruct (mask_row fields _) as [row|]; [|done]. cbn [bind].
  destruct (DictWriter_writerow d fieldnames row); [|done]. cbn [bind].
  apply IH.
Qed.

Lemma transform_with_strings d fields raw_csv :
  transform_with d (strings fields) raw_csv = transform d fields raw_csv.
Proof.
  unfold transform_with, transform.
  destruct (Csv.reader_of d raw_csv); try done.
  apply transform_rows_with_strings.
Qed.

(** The calls of the loading of the field list: the one of the handler, and
    those of the evaluation. *)
Lemma load_pii_fields_calls rt ev :
  (load_pii_fields rt (bucket_name ev) (object_key ev) []).1
  = GetObject (bucket_name ev) (object_key ev) :: evaluated rt ev.
Proof.
  unfold evaluated. run_io.
  destruct (get_object (s3 rt) (bucket_name ev) (object_key ev)) as [m|];
    [|done].
  by destruct (Utf8.decode_sig m) as [mt|].
Qed.

Lemma stored_app calls calls' :
  stored (calls ++ calls') = stored calls ++ stored calls'.
Proof. unfold stored. apply flat_map_app. Qed.

Lemma stored_behind_get b k b' k' calls :
  stored ((GetObject b k :: calls) ++ [GetObject b' k']) = stored calls.
Proof.
  change (GetObject b k :: calls) with ([GetObject b k] ++ calls).
  rewrite !stored_app. cbn. by rewrite app_nil_r.
Qed.

Lemma lambda_handler_run rt ev :
  let bucket := bucket_name ev in
  let key := object_key ev in
  match complete_output rt ev with
  | Raise e =>
    stored (lambda_handler rt ev []).1 = stored (evaluated rt ev)
    ∧ (lambda_handler rt ev []).2 = Raise e
  | Ok body =>
    lambda_handler rt ev []
    = (GetObject bucket key :: evaluated rt ev
       ++ [GetObject bucket (raw_key key);
           PutObject bucket (output_key key) body],
       if put_object (s3 rt) bucket (output_key key) body
       then Ok () else Raise ClientError)
  end.
Proof.
  cbv zeta. unfold complete_output, evaluated. run_io.
  destruct (get_object (s3 rt) (bucket_name ev) (object_key ev)) as [m|];
    [|done].
  destruct (Utf8.decode_sig m) as [mt|]; cbn [fmap option_fmap option_map];
    [|done].
  destruct (eval rt (Py.strip mt)) as [called [pii_fields|]]; cbn [fst snd];
    [|done].
  destruct (get_object (s3 rt) (bucket_name ev) (raw_key (object_key ev)))
    as [raw|]; cbn [fst snd bind]; [|split; [apply stored_behind_get|done]].
  destruct (Utf8.decode_sig raw) as [raw_csv|]; cbn [fst snd bind];
    [|split; [apply stored_behind_get|done]].
  destruct (detect_delimiter (isalnum rt) raw_csv) as [delimiter|e];
    cbn [fst snd bind]; [|split; [apply stored_behind_get|done]].
  destruct (transform_with delimiter pii_fields raw_csv) as [output|e];
    cbn [fst snd bind]; [|split; [apply stored_behind_get|done]].
  destruct (Utf8.encode output) as [body|]; cbn [fst snd bind];
    [|split; [apply stored_behind_get|done]].
  by rewrite <- app_assoc.
Qed.




(** C8. The pipeline is deterministic. Two runs that load the same field
    list and the same dataset text, and detect the same delimiter in it,
    come to the same output, byte for byte: it depends on nothing else (not
    on the bucket, the keys, the other objects, or what [put_object]
    answers). What the two runs store is the same as well, where the
    evaluations of the metadata texts store the same. *)
Theorem deterministic rt1 rt2 ev1 ev2 :
  (load_pii_fields rt1 (bucket_name ev1) (object_key ev1) []).2
  = (load_pii_fields rt2 (bucket_name ev2) (object_key ev2) []).2 →
  (load_raw_csv rt1 (bucket_name ev1) (raw_key (object_key ev1)) []).2
  = (load_raw_csv rt2 (bucket_name ev2) (raw_key (object_key ev2)) []).2 →
  (∀ raw_csv,
     (load_raw_csv rt1 (bucket_name ev1) (raw_key (object_key ev1)) []).2
     = Ok raw_csv →
     detect_delimiter (isalnum rt1) raw_csv
     = detect_delimiter (isalnum rt2) raw_csv) →
  complete_output rt1 ev1 = complete_output rt2 ev2
  ∧ (stored (evaluated rt1 ev1) = stored (evaluated rt2 ev2) →
     stored (lambda_handler rt1 ev1 []).1
     = stored (lambda_handler rt2 ev2 []).1).
Proof.
  intros Hfields Hraw Hdelim.
  assert (complete_output rt1 ev1 = complete_output rt2 ev2) as Hout.
  { unfold complete_output. rewrite <- Hfields, <- Hraw.
    destruct (load_pii_fields rt1 _ _ []).2; [|done]. cbn [bind].
    destruct (load_raw_csv rt1 _ _ []).2 as [raw_csv|] eqn:Hcsv; [|done].
    cbn [bind]. by rewrite (Hdelim raw_csv). }
  split; [done|]. intros Hstored.
  pose proof (lambda_handler_run rt1 ev1) as H1.
  pose proof (lambda_handler_run rt2 ev2) as H2. cbv zeta in H1, H2.
  rewrite <- Hout in H2. destruct (complete_output rt1 ev1) as [body|e].
  - rewrite H1, H2. cbn [fst].
    change (GetObject ?b ?k :: ?l) with ([GetObject b k] ++ l).
    rewrite !stored_app, Hstored. done.
  - destruct H1 as [-> _], H2 as [-> _]. done.
Qed.

Lemma deterministic_witness :
  let raw := text "id,email" ++ [LF] ++ text "1,a@b.com" ++ [LF] in
  let rt1 := Example.runtime_of
    [(text "m/a_pii_fields.json", Example.metadata);
     (text "raw/a.csv", raw)] in
  let rt2 := Example.runtime_of
    [(text "raw/b.csv", raw); (text "raw/c.csv", text "x;y");
     (text "b_pii_fields.json", Example.metadata)] in
  let ev1 := Event Example.BUCKET (text "m/a_pii_fields.json") in
  let ev2 := Event (text "other") (text "b_pii_fields.json") in
  complete_output rt1 ev1 = complete_output rt2 ev2
  ∧ (stored (evaluated rt1 ev1) = stored (evaluated rt2 ev2) →
     stored (lambda_handler rt1 ev1 []).1
     = stored (lambda_handler rt2 ev2 []).1).
Proof.
  cbv zeta. apply deterministic.
  - vm_compute. reflexivity.
  - vm_compute. reflexivity.
  - intros raw_csv _. reflexivity.
Defined.

(** ** Rows and the header *)

Lemma dict_zip_dom fieldnames row acc :
  dom (dict_zip fieldnames row acc) ⊆ dom acc ∪ list_to_set fieldnames.
Proof.
  revert row acc. induction fieldnames as [|k ks IH]; intros [|v vs] acc;
    cbn [dict_zip]; try set_solver.
  etrans; [apply IH|]. rewrite dom_insert. set_solver.
Qed.

Lemma fill_restval_dom (keys : list str) acc :
  dom (fill_restval keys acc) ⊆ dom acc ∪ list_to_set keys.
Proof.
  unfold fill_restval. revert acc. induction keys as [|k ks IH]; intros acc;
    cbn [foldl]; [set_solver|].
  etrans; [apply IH|]. rewrite dom_insert. set_solver.
Qed.

Lemma fill_restval_keep (keys : list str) (acc : gmap str (option str)) k :
  acc !! k = Some None → fill_restval keys acc !! k = Some None.
Proof.
  unfold fill_restval. revert acc.
  induction keys as [|k' ks IH]; intros acc Hk; cbn [foldl]; [done|].
  apply IH. destruct (decide (k' = k)) as [->|];
    [apply lookup_insert_eq|by rewrite lookup_insert_ne].
Qed.

Lemma fill_restval_lookup (keys : list str) (acc : gmap str (option str)) k :
  k ∈ keys → fill_restval keys acc !! k = Some None.
Proof.
  pose proof fill_restval_keep as Hkeep. unfold fill_restval in *.
  revert acc. induction keys as [|k' ks IH]; intros acc Hin; [by inversion Hin|].
  cbn [foldl]. destruct (decide (k' = k)) as [->|Hne].
  - apply (Hkeep ks), lookup_insert_eq.
  - apply IH. by apply elem_of_cons in Hin as [?|?].
Qed.

Lemma dict_zip_text fieldnames row acc :
  Forall is_text row →
  map_Forall (λ _ c, from_option is_text True c) acc →
  map_Forall (λ _ c, from_option is_text True c) (dict_zip fieldnames row acc).
Proof.
  revert row acc. induction fieldnames as [|k ks IH]; intros [|v vs] acc;
    cbn [dict_zip]; try done.
  intros [Hv Hvs]%Forall_cons Hacc. apply IH; [done|].
  by apply map_Forall_insert_2.
Qed.

Lemma fill_restval_text (keys : list str) acc :
  map_Forall (λ _ c, from_option is_text True c) acc →
  map_Forall (λ _ c, from_option is_text True c) (fill_restval keys acc).
Proof.
  unfold fill_restval. revert acc. induction keys as [|k ks IH]; intros acc Hacc;
    cbn [foldl]; [done|].
  apply IH. by apply map_Forall_insert_2.
Qed.

Lemma to_dict_text fieldnames row :
  Forall is_text row → row_is_text (to_dict fieldnames row).
Proof.
  intros Hrow. unfold to_dict, row_is_text. case_bool_decide; cbn [cells].
  - apply dict_zip_text; [done|]. apply map_Forall_empty.
  - apply fill_restval_text, dict_zip_text; [done|]. apply map_Forall_empty.
Qed.

Lemma to_dict_dom fieldnames row :
  dom (cells (to_dict fieldnames row)) ⊆ list_to_set fieldnames.
Proof.
  unfold to_dict. case_bool_decide; cbn [cells].
  - etrans; [apply dict_zip_dom|]. set_solver.
  - etrans; [apply fill_restval_dom|].
    pose proof (dict_zip_dom fieldnames row ∅).
    assert (list_to_set (C:=gset str) (drop (length row) fieldnames)
            ⊆ list_to_set fieldnames).
    { intros k. rewrite !elem_of_list_to_set. apply subseteq_drop. }
    set_solver.
Qed.

(** What [writerow] gets for a row that is not longer than the header. *)
Lemma short_row_written fieldnames pii_fields r row :
  (length r ≤ length fieldnames)%nat →
  mask_row pii_fields (to_dict fieldnames r) = Ok row →
  ∃ values,
    dict_to_list fieldnames row = Ok values
    ∧ length values = length fieldnames
    ∧ ∀ i, (length r ≤ i < length fieldnames)%nat → values !! i = Some [].
Proof.
  intros Hlen Hmask. unfold dict_to_list.
  rewrite (mask_row_restkey _ _ _ Hmask), (mask_row_dom _ _ _ Hmask).
  rewrite bool_decide_true.
  2:{ unfold to_dict. by rewrite bool_decide_false by lia. }
  rewrite bool_decide_true by apply to_dict_dom. cbn [andb].
  eexists. split; [done|]. split; [by rewrite length_map|].
  intros i Hi. destruct (lookup_lt_is_Some_2 fieldnames i) as [k Hk]; [lia|].
  change map with (@fmap list _). rewrite list_lookup_fmap, Hk. cbn.
  rewrite (mask_row_pass _ _ _ k Hmask).
  - unfold to_dict. rewrite bool_decide_false by lia. cbn [cells].
    rewrite fill_restval_lookup; [done|].
    apply list_elem_of_lookup. exists (i - length r)%nat.
    rewrite lookup_drop. rewrite <- Hk. f_equal. lia.
  - right. right. left.
    unfold to_dict. rewrite bool_decide_false by lia. cbn [cells].
    apply fill_restval_lookup.
    apply list_elem_of_lookup. exists (i - length r)%nat.
    rewrite lookup_drop. rewrite <- Hk. f_equal. lia.
Qed.

Lemma dict_zip_notin (ks vs : list str) acc k :
  k ∉ ks → dict_zip ks vs acc !! k = acc !! k.
Proof.
  revert vs acc. induction ks as [|k' ks IH]; intros [|v vs] acc Hk;
    cbn [dict_zip]; try done.
  apply not_elem_of_cons in Hk as [Hne Hk]. rewrite IH by done.
  by rewrite lookup_insert_ne.
Qed.

Lemma dict_zip_lookup (ks vs : list str) acc i k v :
  NoDup ks → ks !! i = Some k → vs !! i = Some v →
  dict_zip ks vs acc !! k = Some (Some v).
Proof.
  revert vs acc i. induction ks as [|k' ks IH]; intros [|v' vs] acc i Hnd;
    try done.
  apply NoDup_cons in Hnd as [Hk' Hnd]. destruct i as [|i]; cbn.
  - intros [= ->] [= ->]. rewrite dict_zip_notin by done.
    apply lookup_insert_eq.
  - by apply IH.
Qed.

Lemma fill_restval_notin (keys : list str) (acc : gmap str (option str)) k :
  k ∉ keys → fill_restval keys acc !! k = acc !! k.
Proof.
  unfold fill_restval. revert acc.
  induction keys as [|k' keys IH]; intros acc Hk; cbn [foldl]; [done|].
  apply not_elem_of_cons in Hk as [Hne Hk]. rewrite IH by done.
  by rewrite lookup_insert_ne.
Qed.

(** Under a header without repeated names the dict of a row holds, for each
    column, the field read in that column. *)
Lemma to_dict_lookup (fieldnames r : list str) i k v :
  NoDup fieldnames → fieldnames !! i = Some k → r !! i = Some v →
  cells (to_dict fieldnames r) !! k = Some (Some v).
Proof.
  intros Hnd Hk Hv. unfold to_dict. case_bool_decide; cbn [cells].
  - by eapply dict_zip_lookup.
  - rewrite fill_restval_notin; [by eapply dict_zip_lookup|].
    intros (j & Hj)%list_elem_of_lookup_1. rewrite lookup_drop in Hj.
    apply lookup_lt_Some in Hv.
    assert (i = length r + j)%nat; [|lia].
    by eapply NoDup_lookup.
Qed.







(** C1 (as stated) also fails under a header that repeats a name: the row
    dict keeps the last cell of the name, so the first column [a] of the
    row [1,2,3] under the header [a,b,a] is written as the token of [3]. *)
Lemma round_trip_repeated_column_fails :
  let fieldnames := [text "a"; text "b"; text "a"] in
  let r := [text "1"; text "2"; text "3"] in
  transform_rows 44 fieldnames [text "a"] (Csv.Yield r Csv.Stop) []
  = Ok (text "Mw==,2,Mw==" ++ [CR; LF])
  ∧ tokenize (text "1") = Ok (text "MQ==")
  ∧ detokenize (text "Mw==") = Some (text "3").
Proof. vm_compute. done. Qed.







(** ** Detection of the delimiter *)

Lemma splitlines_nil s : Py.splitlines s = [] ↔ s = [].
Proof.
  split; [|by intros ->]. destruct s as [|c s]; [done|]. cbn [Py.splitlines].
  repeat case_match; done.
Qed.

Section NoQuote.

Variable isalnum : Z → bool.

Lemma space_quote_none {A} (k : bool → Z → str → option (A * nat)) s :
  Forall (λ c, Sniffer.is_quote c = false) s → Sniffer.space_quote k s = None.
Proof.
  intros Hs. unfold Sniffer.space_quote, Sniffer.or_else.
  destruct s as [|a [|b s]]; [done| |].
  - apply Forall_cons in Hs as [-> _]. done.
  - apply Forall_cons in Hs as [Ha Hs]. apply Forall_cons in Hs as [Hb _].
    rewrite Ha, Hb, andb_false_r. done.
Qed.

Lemma patterns_none s :
  Forall (λ c, Sniffer.is_quote c = false) s →
  Sniffer.pattern1 isalnum s = None ∧ Sniffer.pattern2 isalnum s = None
  ∧ Sniffer.pattern3 isalnum s = None ∧ Sniffer.pattern4 s = None.
Proof.
  intros Hs. unfold Sniffer.pattern1, Sniffer.pattern2, Sniffer.pattern3,
    Sniffer.pattern4.
  destruct s as [|c s]; [done|]. apply Forall_cons in Hs as [Hc Hs].
  rewrite Hc, !space_quote_none by done. by destruct (Sniffer.is_delim _ c).
Qed.

Lemma findall_none m n s :
  (∀ t, Forall (λ c, Sniffer.is_quote c = false) t → m t = None) → Forall (λ c, Sniffer.is_quote c = false) s →
  Sniffer.findall m n s = [].
Proof.
  intros Hm. revert n. induction s as [|c s IH]; intros n Hs; [done|].
  cbn [Sniffer.findall]. pose proof Hs as [_ Hs']%Forall_cons.
  destruct n; [|by apply IH]. rewrite Hm by done. by apply IH.
Qed.

Lemma matches_none s : Forall (λ c, Sniffer.is_quote c = false) s → Sniffer.matches isalnum s = [].
Proof.
  intros Hs. unfold Sniffer.matches, Sniffer.findall_at_start.
  rewrite !findall_none; try done; try (intros t Ht; by apply patterns_none).
  by destruct (patterns_none s Hs) as (_ & -> & _ & ->).
Qed.

End NoQuote.

Lemma elem_of_ascii c : c ∈ Sniffer.ascii ↔ is_7bit c.
Proof.
  unfold Sniffer.ascii, is_7bit. rewrite list_elem_of_fmap. split.
  - intros (n & -> & Hn%elem_of_seq). lia.
  - intros Hc. exists (Z.to_nat c). split; [lia|]. apply elem_of_seq. lia.
Qed.

Lemma count_pos c line : (0 < Sniffer.count c line)%nat ↔ c ∈ line.
Proof.
  unfold Sniffer.count. induction line as [|x line IH].
  - cbn. split; [lia|by intros ?%elem_of_nil].
  - rewrite filter_cons, elem_of_cons. case_decide; cbn [length]; [|naive_solver].
    split; [auto|lia].
Qed.

Lemma guess_delimiter_none line :
  Sniffer.guess_delimiter line = None ↔ Forall (λ c, ¬ is_7bit c) line.
Proof.
  unfold Sniffer.guess_delimiter.
  destruct (filter _ Sniffer.ascii) as [|c cs] eqn:Hf.
  - split; [intros _|done]. apply Forall_forall. intros c Hc H7.
    assert (c ∈ filter (λ c, (0 < Sniffer.count c line)%nat) Sniffer.ascii)
      as Hin by (apply list_elem_of_filter; by rewrite count_pos, elem_of_ascii).
    rewrite Hf in Hin. by apply elem_of_nil in Hin.
  - assert (c ∈ filter (λ c, (0 < Sniffer.count c line)%nat) Sniffer.ascii)
      as [Hc H7]%list_elem_of_filter by (rewrite Hf; constructor).
    apply count_pos in Hc. apply elem_of_ascii in H7.
    split.
    + destruct cs; [done|]. by case_match.
    + intros Hall. rewrite Forall_forall in Hall. by destruct (Hall c Hc).
Qed.

Lemma not_7bit_quote_free line :
  Forall (λ c, ¬ is_7bit c) line → Forall (λ c, Sniffer.is_quote c = false) line.
Proof.
  intros Hline. eapply Forall_impl; [done|]. intros c Hc.
  unfold Sniffer.is_quote, is_7bit, DQUOTE, SQUOTE in *. lia.
Qed.

Lemma sniff_fails isalnum line :
  (∃ e, Sniffer.sniff isalnum line = Raise e)
  ↔ Forall (λ c, ¬ is_7bit c) line.
Proof.
  unfold Sniffer.sniff. split.
  - intros [e He]. apply guess_delimiter_none.
    destruct (Sniffer.guess_quote_and_delimiter isalnum line); [done|].
    by destruct (Sniffer.guess_delimiter line).
  - intros Hline. unfold Sniffer.guess_quote_and_delimiter.
    rewrite matches_none by by apply not_7bit_quote_free. cbn [foldl].
    apply guess_delimiter_none in Hline as ->. by eexists.
Qed.

Lemma sniff_raise isalnum sample e :
  Sniffer.sniff isalnum sample = Raise e →
  e = CsvError CouldNotDetermineDelimiter.
Proof. unfold Sniffer.sniff. repeat case_match; by intros [= <-]. Qed.

Lemma sniff_raises_iff isalnum line :
  Sniffer.sniff isalnum line = Raise (CsvError CouldNotDetermineDelimiter)
  ↔ Forall (λ c, ¬ is_7bit c) line.
Proof.
  rewrite <- (sniff_fails isalnum). split; [by eexists|].
  intros [e He]. by rewrite He, (sniff_raise _ _ _ He).
Qed.

Lemma sniff_returns_iff isalnum line :
  (∃ d, Sniffer.sniff isalnum line = Ok d) ↔ Exists is_7bit line.
Proof.
  split.
  - intros [d Hd]. destruct (decide (Exists is_7bit line)) as [|Hno]; [done|].
    apply not_Exists_Forall in Hno; [|apply _].
    apply (sniff_raises_iff isalnum) in Hno. congruence.
  - intros Hline. destruct (Sniffer.sniff isalnum line) as [d|e] eqn:Hs;
      [by eexists|].
    assert (∃ e, Sniffer.sniff isalnum line = Raise e) as Hf by by eexists.
    apply sniff_fails in Hf. rewrite Forall_forall in Hf.
    apply Exists_exists in Hline as (c & Hc & H7). by destruct (Hf c Hc).
Qed.

Lemma detect_delimiter_raise isalnum raw_csv e :
  detect_delimiter isalnum raw_csv = Raise e →
  e = IndexError ∨ e = CsvError CouldNotDetermineDelimiter.
Proof.
  unfold detect_delimiter. destruct (Py.splitlines raw_csv).
  - intros [= <-]. by left.
  - intros ->%sniff_raise. by right.
Qed.

(** C6 (as amended). Detection looks at the first line of the dataset and
    at nothing else. On an empty dataset it fails with IndexError (there is
    no first line to take); on a dataset whose first line holds no
    character below U+007F, such as a blank first line, it fails with
    csv.Error (could not determine delimiter); it fails in no other case and
    with no other exception. Every other dataset, that is one whose first
    line holds a character below U+007F, gets a delimiter, also a single
    line without any delimiter in it. *)
Theorem detection_fails_iff isalnum raw_csv :
  (detect_delimiter isalnum raw_csv = Raise IndexError ↔ raw_csv = [])
  ∧ (detect_delimiter isalnum raw_csv
     = Raise (CsvError CouldNotDetermineDelimiter)
     ↔ ∃ first_line rest,
         Py.splitlines raw_csv = first_line :: rest
         ∧ Forall (λ c, ¬ is_7bit c) first_line)
  ∧ (∀ e, detect_delimiter isalnum raw_csv = Raise e →
          e = IndexError ∨ e = CsvError CouldNotDetermineDelimiter)
  ∧ ((∃ d, detect_delimiter isalnum raw_csv = Ok d)
     ↔ ∃ first_line rest,
         Py.splitlines raw_csv = first_line :: rest
         ∧ Exists is_7bit first_line)
  ∧ ∀ other,
      head (Py.splitlines other) = head (Py.splitlines raw_csv) →
      detect_delimiter isalnum other = detect_delimiter isalnum raw_csv.
Proof.
  split; [|split; [|split; [apply detect_delimiter_raise|split]]].
  - unfold detect_delimiter.
    destruct (Py.splitlines raw_csv) as [|first_line rest] eqn:Hlines.
    + by apply splitlines_nil in Hlines as ->.
    + split.
      * by intros ?%sniff_raise.
      * intros ->. done.
  - unfold detect_delimiter.
    destruct (Py.splitlines raw_csv) as [|first_line rest] eqn:Hlines.
    + split; [done|]. by intros (l & r & ? & _).
    + rewrite sniff_raises_iff. split.
      * intros Hline. by exists first_line, rest.
      * by intros (l & r & [= <- <-] & Hline).
  - unfold detect_delimiter.
    destruct (Py.splitlines raw_csv) as [|first_line rest] eqn:Hlines.
    + split; [by intros [d ?]|]. by intros (l & r & ? & _).
    + rewrite sniff_returns_iff. split.
      * intros Hline. by exists first_line, rest.
      * by intros (l & r & [= <- <-] & Hline).
  - intros other Hhead. unfold detect_delimiter.
    by destruct (Py.splitlines other), (Py.splitlines raw_csv); simplify_eq/=.
Qed.

(** C6 (as stated) fails on the error too: an empty dataset gives
    IndexError, a blank first line csv.Error. *)
Lemma detection_errors :
  detect_delimiter (λ _, false) [] = Raise IndexError
  ∧ detect_delimiter (λ _, false) (LF :: text "a,b")
    = Raise (CsvError CouldNotDetermineDelimiter).
Proof. vm_compute. done. Qed.

(** C6 (as stated) fails: the one-line dataset [abc], in which no comma,
    semicolon, tab or pipe occurs, gets the delimiter [c]; the handler
    stores an output for it. *)
Lemma one_line_without_delimiter_is_sniffed :
  let key := text "metadata/customers_pii_fields.json" in
  let rt := Example.runtime_of
    [(key, Example.metadata); (text "raw/customers.csv", text "abc")] in
  Py.splitlines (text "abc") = [text "abc"]
  ∧ Forall (λ c, c ∉ text "abc") [44; 59; 9; 124]
  ∧ detect_delimiter (isalnum rt) (text "abc") = Ok 99
  ∧ lambda_handler rt (Event Example.BUCKET key) []
    = ([GetObject Example.BUCKET key;
        GetObject Example.BUCKET (text "raw/customers.csv");
        PutObject Example.BUCKET (text "tokenized/customers_tokenized.csv")
          (text "abc" ++ [CR; LF])],
       Ok ()).
Proof.
  cbv zeta. split; [by vm_compute|]. split.
  - apply (bool_decide_unpack _). vm_compute. exact I.
  - split; vm_compute; reflexivity.
Qed.

(** ** The reader reads what the writer writes *)

Import Csv.

Lemma readlines_open s : s ≠ [] → readlines s = open_lines s.
Proof.
  unfold open_lines. destruct s as [|c s]; [done|]. intros _. cbn [readlines].
  repeat case_match; done.
Qed.

Lemma open_lines_cons c s :
  c ≠ LF → open_lines (c :: s) = 
  match open_lines s with l :: ls => (c :: l) :: ls | [] => [[c]] end.
Proof.
  intros Hc. unfold open_lines. cbn [readlines].
  apply Z.eqb_neq in Hc. rewrite Hc. by destruct (readlines s).
Qed.

Lemma open_lines_nonempty s : open_lines s ≠ [].
Proof. unfold open_lines. by destruct (readlines s). Qed.

Lemma read_char d r c s :
  c ≠ LF →
  read d r (open_lines (c :: s))
  = match parse_process_char d r (Char c) with
    | Raise e => Throw e
    | Ok r' => read d r' (open_lines s)
    end.
Proof.
  intros Hc. rewrite open_lines_cons by done.
  pose proof (open_lines_nonempty s).
  destruct (open_lines s) as [|l ls]; [done|].
  cbn [read]. unfold process_line. cbn [feed].
  destruct (parse_process_char d r (Char c)); done.
Qed.

Lemma read_newline d r s :
  read d r (open_lines (LF :: s))
  = match parse_process_char d r (Char LF) with
    | Raise e => Throw e
    | Ok r1 =>
      match parse_process_char d r1 EOL with
      | Raise e => Throw e
      | Ok r2 =>
        if bool_decide (state r2 = START_RECORD)
        then Yield (fields r2) (read d fresh (readlines s))
        else read d r2 (readlines s)
      end
    end.
Proof.
  unfold open_lines. cbn [readlines]. rewrite Z.eqb_refl.
  cbn [read]. unfold process_line. cbn [feed].
  destruct (parse_process_char d r (Char LF)); done.
Qed.

Section RoundTrip.

Variable d : Z.
Hypothesis d_ok : delim_ok d.

Lemma add_char_fits st cur fs c :
  fits (cur ++ [c]) →
  parse_add_char (Reader st cur fs) c = Ok (Reader st (cur ++ [c]) fs).
Proof.
  unfold fits, parse_add_char. rewrite length_app. cbn [field length].
  intros H. case_match; [lia|done].
Qed.

Lemma fits_snoc cur c f : fits (cur ++ c :: f) → fits (cur ++ [c]).
Proof. unfold fits. rewrite !length_app. cbn [length]. lia. Qed.

Lemma special_false c :
  special d c = false → c ≠ d ∧ c ≠ DQUOTE ∧ c ≠ CR ∧ c ≠ LF.
Proof. unfold special. lia. Qed.

(** An unquoted field, from inside the field. *)
Lemma read_unquoted f cur fs s :
  Forall (λ c, special d c = false) f → fits (cur ++ f) →
  read d (Reader IN_FIELD cur fs) (open_lines (f ++ s))
  = read d (Reader IN_FIELD (cur ++ f) fs) (open_lines s).
Proof.
  revert cur. induction f as [|c f IH]; intros cur Hf Hfit.
  - by rewrite app_nil_r.
  - apply Forall_cons in Hf as [(Hd & Hq & Hcr & Hlf)%special_false Hf].
    cbn [app]. rewrite read_char by done.
    unfold parse_process_char. cbn [state]. unfold is_crlf.
    replace ((c =? LF) || (c =? CR)) with false by lia.
    replace (c =? d) with false by lia.
    rewrite add_char_fits by by eapply fits_snoc.
    rewrite IH; [|done|by rewrite <- app_assoc].
    by rewrite <- app_assoc.
Qed.

(** The rest of a quoted field, up to and with the closing quote. *)
Lemma read_quoted f cur fs s :
  fits (cur ++ f) →
  read d (Reader IN_QUOTED_FIELD cur fs)
    (open_lines (double_quotes f ++ DQUOTE :: s))
  = read d (Reader QUOTE_IN_QUOTED_FIELD (cur ++ f) fs) (open_lines s).
Proof.
  revert cur. induction f as [|c f IH]; intros cur Hfit.
  - rewrite app_nil_r. cbn [double_quotes flat_map app].
    rewrite read_char by done. unfold parse_process_char. cbn [state].
    by rewrite Z.eqb_refl.
  - assert (fits (cur ++ [c])) as Hfit1 by by eapply fits_snoc.
    assert (fits ((cur ++ [c]) ++ f)) as Hfit2 by by rewrite <- app_assoc.
    replace (cur ++ c :: f) with ((cur ++ [c]) ++ f) by by rewrite <- app_assoc.
    unfold double_quotes. cbn [flat_map]. fold (double_quotes f).
    destruct (decide (c = DQUOTE)) as [->|Hq].
    + rewrite Z.eqb_refl. cbn [app]. rewrite read_char by done.
      unfold parse_process_char at 1. cbn [state]. rewrite Z.eqb_refl.
      unfold set_state. cbn [field fields].
      rewrite read_char by done.
      unfold parse_process_char at 1. cbn [state]. rewrite Z.eqb_refl.
      rewrite add_char_fits by done. cbn [bind]. unfold set_state.
      cbn [field fields]. by apply IH.
    + replace (c =? DQUOTE) with false by lia. cbn [app].
      destruct (decide (c = LF)) as [->|Hlf].
      * rewrite read_newline. unfold parse_process_char at 1. cbn [state].
        replace (LF =? DQUOTE) with false by done.
        rewrite add_char_fits by done.
        unfold parse_process_char. cbn [state].
        rewrite bool_decide_false by done.
        rewrite readlines_open by by destruct (double_quotes f).
        by apply IH.
      * rewrite read_char by done. unfold parse_process_char at 1.
        cbn [state]. replace (c =? DQUOTE) with false by lia.
        rewrite add_char_fits by done. by apply IH.
Qed.

(** A written field is read back, whatever follows. *)
Lemma read_field f r s :
  before_field r → fits f →
  ∃ r', behind_field f (fields r) r'
        ∧ (state r' = START_RECORD → state r = START_RECORD ∧ f = [])
        ∧ read d r (open_lines (write_field d f ++ s))
          = read d r' (open_lines s).
Proof.
  intros Hr Hfit. destruct d_ok as (Hdq & Hdcr & Hdlf).
  destruct r as [st cur fs]. destruct Hr as [Hst Hcur]. cbn in Hst, Hcur.
  subst cur. cbn [fields state]. unfold write_field in *.
  destruct (existsb (special d) f) eqn:Hsp.
  - exists (Reader QUOTE_IN_QUOTED_FIELD f fs).
    split; [by repeat split; auto|]. split; [done|].
    unfold quote. cbn [app]. rewrite <- app_assoc. cbn [app].
    rewrite read_char by done.
    assert (parse_process_char d (Reader st [] fs) (Char DQUOTE)
            = Ok (Reader IN_QUOTED_FIELD [] fs)) as ->.
    { destruct Hst as [-> | ->]; unfold parse_process_char; cbn [state];
        unfold at_start_field; by cbn. }
    by rewrite read_quoted.
  - assert (Forall (λ c, special d c = false) f) as Hplain.
    { apply Forall_forall. intros c Hc. apply not_true_is_false. intros Htrue.
      assert (existsb (special d) f = true) as Hex; [|congruence].
      apply existsb_exists. exists c. split; [|done]. by apply list_elem_of_In. }
    destruct f as [|c f].
    + exists (Reader st [] fs). split; [repeat split; cbn; tauto|].
      split; [done|]. done.
    + exists (Reader IN_FIELD (c :: f) fs).
      split; [by repeat split; auto|]. split; [done|].
      apply Forall_cons in Hplain as [(Hd & Hq & Hcr & Hlf)%special_false Hf].
      cbn [app]. rewrite read_char by done.
      assert (parse_process_char d (Reader st [] fs) (Char c)
              = Ok (Reader IN_FIELD [c] fs)) as ->.
      { assert (fits ([] ++ [c])) as Hc by by eapply (fits_snoc []).
        destruct Hst as [-> | ->]; unfold parse_process_char; cbn [state];
          unfold at_start_field, is_crlf, set_state; cbn [state field fields];
          replace ((c =? LF) || (c =? CR)) with false by lia;
          replace (c =? DQUOTE) with false by lia;
          replace (c =? d) with false by lia;
          by rewrite add_char_fits. }
      by rewrite (read_unquoted f [c]).
Qed.

(** The delimiter behind a field. *)
Lemma read_delimiter f fs r s :
  behind_field f fs r →
  read d r (open_lines (d :: s))
  = read d (Reader START_FIELD [] (fs ++ [f])) (open_lines s).
Proof.
  destruct d_ok as (Hdq & Hdcr & Hdlf).
  destruct r as [st cur fs']. intros (Hf & Hfs & Hst). cbn in Hf, Hfs, Hst.
  subst cur fs'. rewrite read_char by done.
  assert (parse_process_char d (Reader st f fs) (Char d)
          = Ok (Reader START_FIELD [] (fs ++ [f]))) as ->; [|done].
  unfold parse_process_char, at_start_field, is_crlf. cbn [state].
  destruct Hst as [-> | [-> | [[-> | ->] ->]]]; cbn [set_state state];
    replace ((d =? LF) || (d =? CR)) with false by lia;
    replace (d =? DQUOTE) with false by lia;
    rewrite Z.eqb_refl; done.
Qed.

(** The line terminator behind the last field. *)
Lemma read_terminator f fs r s :
  behind_field f fs r → state r ≠ START_RECORD →
  read d r (open_lines (CR :: LF :: s))
  = Yield (fs ++ [f]) (read d fresh (readlines s)).
Proof.
  destruct d_ok as (Hdq & Hdcr & Hdlf).
  destruct r as [st cur fs']. intros (Hf & Hfs & Hst) Hne.
  cbn in Hf, Hfs, Hst, Hne. subst cur fs'. rewrite read_char by done.
  assert (parse_process_char d (Reader st f fs) (Char CR)
          = Ok (Reader EAT_CRNL [] (fs ++ [f]))) as ->.
  { unfold parse_process_char, at_start_field, is_crlf. cbn [state].
    destruct Hst as [-> | [-> | [[-> | ->] ->]]]; try done;
      cbn [set_state state];
      replace (CR =? d) with false by lia; done. }
  rewrite read_newline. done.
Qed.

(** The fields of a record, the first of them [f], and the terminator. *)
Lemma read_fields f rest r s :
  before_field r → Forall fits (f :: rest) →
  (state r = START_RECORD → f :: rest ≠ [[]]) →
  read d r
    (open_lines (join d (map (write_field d) (f :: rest)) ++ CR :: LF :: s))
  = Yield (fields r ++ f :: rest) (read d fresh (readlines s)).
Proof.
  revert f r. induction rest as [|f' rest IH]; intros f r Hr Hfit Hne.
  - apply Forall_cons in Hfit as [Hf _]. cbn [map join].
    destruct (read_field f r (CR :: LF :: s) Hr Hf) as (r' & Hr' & Hst & ->).
    apply read_terminator; [done|]. intros Hst'%Hst.
    destruct Hst' as [? ->]. by apply Hne.
  - apply Forall_cons in Hfit as [Hf Hfit].
    change (join d (map (write_field d) (f :: f' :: rest)))
      with (write_field d f ++ d :: join d (map (write_field d) (f' :: rest))).
    rewrite <- app_assoc. cbn [app].
    destruct (read_field f r
                (d :: join d (map (write_field d) (f' :: rest)) ++ CR :: LF :: s)
                Hr Hf) as (r' & Hr' & _ & ->).
    rewrite (read_delimiter _ _ _ _ Hr').
    rewrite IH; [|by split; [right|]|done|done].
    cbn [fields]. by rewrite <- app_assoc.
Qed.

(** A written record is read back, whatever follows it. *)
Lemma read_writerow row s :
  Forall fits row →
  read d fresh (readlines (writerow d row ++ s))
  = Yield row (read d fresh (readlines s)).
Proof.
  intros Hfit. rewrite readlines_open.
  2:{ unfold writerow. repeat case_match; try done;
        by destruct (join _ _). }
  destruct row as [|f rest].
  - cbn [writerow map join app]. rewrite read_char by done.
    unfold parse_process_char at 1. cbn -[open_lines read readlines]. by rewrite read_newline.
  - destruct (decide (f :: rest = [[]])) as [[= -> ->]|Hne].
    + cbn [writerow app]. rewrite read_char by done.
      unfold parse_process_char at 1. cbn -[open_lines read readlines]. rewrite read_char by done.
      unfold parse_process_char at 1. cbn -[open_lines read readlines].
      by rewrite (read_terminator [] [] (Reader QUOTE_IN_QUOTED_FIELD [] []));
        [|repeat split; auto|].
    + assert (writerow d (f :: rest)
              = join d (map (write_field d) (f :: rest)) ++ [CR; LF]) as ->.
      { unfold writerow. destruct f; [|done]. by destruct rest. }
      rewrite <- app_assoc. cbn [app].
      by rewrite read_fields; [|split; [left|]|..].
Qed.

End RoundTrip.

Lemma transform_rows_records d fieldnames pii_fields rows out :
  transform_rows d fieldnames pii_fields rows out
  = (let* more := transform_records fieldnames pii_fields rows in
     Ok (out ++ render d more)).
Proof.
  revert out. induction rows as [|r rest IH|e]; intros out.
  - cbn. by rewrite app_nil_r.
  - destruct r as [|f r]; [apply IH|].
    cbn [transform_rows transform_records].
    destruct (mask_row _ _) as [row|]; [|done]. cbn [bind].
    unfold DictWriter_writerow.
    destruct (dict_to_list fieldnames row) as [values|]; [|done]. cbn [bind].
    rewrite IH. destruct (transform_records _ _ rest); [|done]. cbn [bind].
    unfold render. cbn [map concat]. by rewrite app_assoc.
  - done.
Qed.

Lemma transform_written d pii_fields raw_csv :
  transform d pii_fields raw_csv
  = (let* hr := written d pii_fields raw_csv in
     Ok (render d (hr.1 :: hr.2))).
Proof.
  unfold transform, written. destruct (reader_of d raw_csv) as [|h rows|e];
    try done.
  rewrite transform_rows_records.
  destruct (transform_records h pii_fields rows); [|done]. cbn [bind].
  done.
Qed.

Lemma reader_of_render d rows :
  delim_ok d → Forall (Forall fits) rows →
  reader_of d (render d rows) = yields rows.
Proof.
  intros Hd. unfold reader_of, render.
  induction rows as [|row rows IH]; intros Hfit; [done|].
  apply Forall_cons in Hfit as [Hrow Hrows]. cbn [map concat yields foldr].
  rewrite read_writerow by done. by rewrite IH.
Qed.

Lemma mask_row_ok_fields fields row :
  (∀ k v, k ∈ fields → cells row !! k = Some (Some v) → is_text v) →
  ∃ row', mask_row fields row = Ok row'.
Proof.
  revert row. induction fields as [|f fields IH]; intros row Hrow;
    [by eexists|].
  cbn [mask_row]. unfold mask_field.
  destruct (cells row !! f) as [[v|]|] eqn:Hf; cbn [bind];
    try (apply IH; intros k w Hk; apply Hrow; by right).
  case_bool_decide; cbn [bind];
    [|apply IH; intros k w Hk; apply Hrow; by right].
  destruct (tokenize_ok v) as [t Ht]; [apply (Hrow f); [by left|done]|].
  rewrite Ht. cbn [bind]. apply IH. intros k w Hk. cbn [cells].
  destruct (decide (f = k)) as [->|Hne].
  - rewrite lookup_insert_eq. intros [= <-]. by eapply tokenize_text.
  - rewrite lookup_insert_ne by done. apply Hrow. by right.
Qed.

Lemma tokenize_n_text n v t :
  tokenize_n n v = Ok t → (n ≠ 0)%nat → is_text t.
Proof.
  destruct n as [|n]; [done|]. rewrite tokenize_n_last.
  destruct (tokenize_n n v) as [u|]; [|done]. cbn [bind].
  intros Ht _. by eapply tokenize_text.
Qed.

Lemma mask_row_text_at fields row row' k t :
  mask_row fields row = Ok row' → k ∈ fields →
  cells row' !! k = Some (Some t) → is_text t.
Proof.
  intros Hmask Hk Ht.
  destruct (cells row !! k) as [[v|]|] eqn:Hv.
  - destruct (decide (v = [])) as [->|Hne].
    + rewrite (mask_row_pass _ _ _ k Hmask) in Ht by auto.
      rewrite Hv in Ht. simplify_eq. constructor.
    + destruct (mask_row_hit _ _ _ _ _ Hmask Hv Hne) as (t' & Ht' & Hk').
      rewrite Hk' in Ht. simplify_eq. eapply tokenize_n_text; [done|].
      apply occurrences_pos in Hk. lia.
  - rewrite (mask_row_pass _ _ _ k Hmask) in Ht by auto. congruence.
  - rewrite (mask_row_pass _ _ _ k Hmask) in Ht by auto. congruence.
Qed.

Lemma dict_zip_fmap_lookup (g : str → str) (h : list str) acc k :
  dict_zip h (g <$> h) acc !! k
  = if decide (k ∈ h) then Some (Some (g k)) else acc !! k.
Proof.
  revert acc. induction h as [|k' h IH]; intros acc; cbn [fmap list_fmap dict_zip].
  - by rewrite decide_False by apply not_elem_of_nil.
  - rewrite IH. destruct (decide (k ∈ h)) as [Hin|Hnin].
    + by rewrite decide_True by by right.
    + destruct (decide (k' = k)) as [->|Hne].
      * rewrite decide_True by by left. apply lookup_insert_eq.
      * rewrite lookup_insert_ne by done.
        by rewrite decide_False by by intros [?|?]%elem_of_cons.
Qed.

Lemma to_dict_fmap (g : str → str) (h : list str) :
  to_dict h (g <$> h) = RowDict (dict_zip h (g <$> h) ∅) None.
Proof.
  unfold to_dict. rewrite length_fmap.
  rewrite bool_decide_false by lia. by rewrite drop_all.
Qed.

Lemma dict_to_list_inv h row values :
  dict_to_list h row = Ok values →
  restkey row = None ∧ dom (cells row) ⊆ list_to_set h
  ∧ values = (λ k, cell_text (default (Some []) (cells row !! k))) <$> h.
Proof.
  unfold dict_to_list. case_match eqn:Hb; [|done]. intros [= <-].
  apply andb_true_iff in Hb as [H1%bool_decide_eq_true H2%bool_decide_eq_true].
  done.
Qed.

Lemma dict_to_list_ok h row :
  restkey row = None → dom (cells row) ⊆ list_to_set h →
  dict_to_list h row
  = Ok ((λ k, cell_text (default (Some []) (cells row !! k))) <$> h).
Proof.
  intros H1 H2. unfold dict_to_list. by rewrite !bool_decide_true.
Qed.

Lemma second_pass h pii_fields r row values :
  r ≠ [] →
  mask_row pii_fields (to_dict h r) = Ok row →
  dict_to_list h row = Ok values →
  values ≠ []
  ∧ ∃ row2 values2,
      mask_row pii_fields (to_dict h values) = Ok row2
      ∧ dict_to_list h row2 = Ok values2
      ∧ reencoded pii_fields h values values2.
Proof.
  intros Hr Hmask Hvalues.
  destruct (dict_to_list_inv _ _ _ Hvalues) as (Hrest & Hdom & ->).
  set (g := λ k, cell_text (default (Some []) (cells row !! k))).
  assert (h ≠ []) as Hh.
  { rewrite (mask_row_restkey _ _ _ Hmask) in Hrest. unfold to_dict in Hrest.
    case_bool_decide; [done|]. destruct h; [|done]. destruct r; [done|].
    cbn [length] in *. lia. }
  split; [by destruct h|]. rewrite to_dict_fmap.
  destruct (mask_row_ok_fields pii_fields (RowDict (dict_zip h (g <$> h) ∅) None))
    as [row2 Hrow2].
  { intros k v Hk. cbn [cells]. rewrite dict_zip_fmap_lookup.
    case_decide; [|by rewrite lookup_empty]. intros [= <-]. unfold g.
    destruct (cells row !! k) as [[t|]|] eqn:Ht; cbn; try constructor.
    by eapply mask_row_text_at. }
  exists row2, ((λ k, cell_text (default (Some []) (cells row2 !! k))) <$> h).
  split; [done|]. split.
  - apply dict_to_list_ok; [by rewrite (mask_row_restkey _ _ _ Hrow2)|].
    rewrite (mask_row_dom _ _ _ Hrow2). cbn [cells].
    etrans; [apply dict_zip_dom|]. set_solver.
  - split; [by rewrite !length_fmap|]. intros j k t Hj.
    rewrite !list_lookup_fmap, Hj. cbn. intros [= Ht].
    assert (cells (RowDict (dict_zip h (g <$> h) ∅) None) !! k = Some (Some t))
      as Hk.
    { cbn [cells]. rewrite dict_zip_fmap_lookup, decide_True, Ht; [done|].
      by eapply list_elem_of_lookup_2. }
    split.
    + intros Hpii Hne.
      destruct (mask_row_hit _ _ _ _ _ Hrow2 Hk Hne) as (t' & Ht' & Hk').
      exists t'. rewrite Hk'. split; [done|]. split; [done|].
      apply occurrences_pos in Hpii.
      pose proof (tokenize_n_length _ _ _ Ht' Hne). intros ->. lia.
    + intros Hpass. rewrite (mask_row_pass _ _ _ k Hrow2), Hk; [done|].
      destruct Hpass as [?| ->]; [by left|right; left; by rewrite Hk].
Qed.

Lemma second_run h pii_fields rows vs :
  transform_records h pii_fields rows = Ok vs →
  ∃ vs2, transform_records h pii_fields (yields vs) = Ok vs2
         ∧ Forall2 (reencoded pii_fields h) vs vs2.
Proof.
  revert vs. induction rows as [|r rest IH|e]; intros vs.
  - intros [= <-]. by exists [].
  - destruct r as [|f r]; [apply IH|]. cbn [transform_records].
    destruct (mask_row _ _) as [row|] eqn:Hrow; [|done]. cbn [bind].
    destruct (dict_to_list h row) as [values|] eqn:Hvalues; [|done].
    cbn [bind].
    destruct (transform_records h pii_fields rest) as [more|]; [|done].
    cbn [bind]. intros [= <-].
    destruct (IH more eq_refl) as (more2 & Hmore2 & Hall).
    destruct (second_pass h pii_fields (f :: r) row values)
      as (Hne & row2 & values2 & Hrow2 & Hvalues2 & Hre); [done..|].
    exists (values2 :: more2). split; [|by constructor].
    cbn [yields foldr]. fold (yields more).
    destruct values as [|v values]; [done|]. cbn [transform_records].
    rewrite Hrow2. cbn [bind]. rewrite Hvalues2. cbn [bind].
    rewrite Hmore2. done.
  - done.
Qed.

Lemma fits_nil : fits [].
Proof. by unfold fits, field_limit. Qed.

Lemma parse_add_char_fits r c r' :
  reader_fits r → parse_add_char r c = Ok r' →
  reader_fits r' ∧ state r' = state r.
Proof.
  unfold parse_add_char, reader_fits, fits. intros [Hf Hfs].
  case_match; [done|]. intros [= <-]. cbn. rewrite length_app. cbn [length].
  split; [split; [lia|done]|done].
Qed.

Lemma parse_save_field_fits r :
  reader_fits r → reader_fits (parse_save_field r).
Proof.
  intros [Hf Hfs]. split; [apply fits_nil|]. cbn.
  apply Forall_app. split; [done|by constructor].
Qed.

Lemma parse_process_char_fits d r i r' :
  reader_fits r → parse_process_char d r i = Ok r' → reader_fits r'.
Proof.
  intros Hr. unfold parse_process_char, at_start_field.
  pose proof (parse_save_field_fits r Hr) as Hsave.
  destruct (state r), i as [c|]; repeat case_match; intros Hstep;
    simplify_eq; try done;
    repeat match goal with
    | H : bind (parse_add_char ?r0 ?c0) _ = Ok _ |- _ =>
      destruct (parse_add_char r0 c0) as [r1|] eqn:Hadd; [|done];
      cbn [bind] in H; simplify_eq;
      apply parse_add_char_fits in Hadd as [Hadd _]; [|done]
    | H : parse_add_char _ _ = Ok _ |- _ =>
      apply parse_add_char_fits in H as [H _]; [|done]
    end; try done.
Qed.

Lemma process_line_fits d r line r' :
  reader_fits r → process_line d r line = Ok r' → reader_fits r'.
Proof.
  unfold process_line. revert r. induction line as [|c line IH]; intros r Hr.
  - cbn. by apply parse_process_char_fits.
  - cbn [feed].
    destruct (parse_process_char d r (Char c)) as [r1|] eqn:H1; [|done].
    cbn [bind]. apply IH. by eapply parse_process_char_fits.
Qed.

Lemma read_first_fits d r lines h rest :
  reader_fits r → read d r lines = Yield h rest → Forall fits h.
Proof.
  revert r. induction lines as [|l ls IH]; intros r Hr; cbn [read].
  - case_match; [|done]. intros [= <- _]. by apply parse_save_field_fits.
  - destruct (process_line d r l) as [r'|] eqn:Hl; [|done].
    pose proof (process_line_fits _ _ _ _ Hr Hl) as Hr'.
    case_bool_decide; [by intros [= <- _]; apply Hr'|]. by apply IH.
Qed.

Lemma reader_of_header_fits d raw h rest :
  reader_of d raw = Yield h rest → Forall fits h.
Proof.
  apply read_first_fits. split; [apply fits_nil|constructor].
Qed.

Lemma written_header_fits d pii_fields raw_csv header rows :
  written d pii_fields raw_csv = Ok (header, rows) → Forall fits header.
Proof.
  unfold written. destruct (reader_of d raw_csv) as [|h rs|] eqn:Hread;
    try done.
  destruct (transform_records h pii_fields rs); [|done]. cbn [bind].
  intros [= <- <-]. by eapply reader_of_header_fits.
Qed.

(** C7 (as amended). The transformer is not idempotent. Fed its own output
    with the same field list and delimiter, where the delimiter is none of
    the double quote, CR and LF and every value of the first output is
    within the reader's field size limit of 131072 characters, it reads the
    header and the rows it wrote and encodes every non-empty value of a
    listed column again: the second output holds another value there, and
    the same value everywhere else. *)
Theorem double_encoding d pii_fields raw_csv header rows :
  delim_ok d →
  written d pii_fields raw_csv = Ok (header, rows) →
  Forall (Forall fits) rows →
  ∃ rows2,
    transform d pii_fields raw_csv = Ok (render d (header :: rows))
    ∧ written d pii_fields (render d (header :: rows)) = Ok (header, rows2)
    ∧ transform d pii_fields (render d (header :: rows))
      = Ok (render d (header :: rows2))
    ∧ Forall2 (reencoded pii_fields header) rows rows2.
Proof.
  intros Hd Hwritten Hfit.
  pose proof (written_header_fits _ _ _ _ _ Hwritten) as Hheader.
  assert (transform d pii_fields raw_csv = Ok (render d (header :: rows)))
    as Hout by by rewrite transform_written, Hwritten.
  unfold written in Hwritten.
  destruct (reader_of d raw_csv) as [|h rs|]; try done.
  destruct (transform_records h pii_fields rs) as [vs|] eqn:Hvs; [|done].
  cbn [bind] in Hwritten. simplify_eq.
  destruct (second_run _ _ _ _ Hvs) as (rows2 & Hrows2 & Hall).
  assert (written d pii_fields (render d (header :: rows)) = Ok (header, rows2))
    as Hwritten2.
  { unfold written. rewrite reader_of_render; [|done|by constructor].
    cbn [yields foldr]. fold (yields rows). by rewrite Hrows2. }
  exists rows2. split; [done|]. split; [done|]. split; [|done].
  by rewrite transform_written, Hwritten2.
Qed.

Lemma double_encoding_witness :
  let raw := text "id,email,ssn" ++ [LF] ++ text "1,a@b.com,123-45-6789"
             ++ [LF] ++ text "2,,000" in
  let header := [text "id"; text "email"; text "ssn"] in
  let rows := [[text "1"; text "YUBiLmNvbQ=="; text "MTIzLTQ1LTY3ODk="];
               [text "2"; []; text "MDAw"]] in
  ∃ rows2,
    transform 44 [text "email"; text "ssn"] raw
    = Ok (render 44 (header :: rows))
    ∧ written 44 [text "email"; text "ssn"] (render 44 (header :: rows))
      = Ok (header, rows2)
    ∧ transform 44 [text "email"; text "ssn"] (render 44 (header :: rows))
      = Ok (render 44 (header :: rows2))
    ∧ Forall2 (reencoded [text "email"; text "ssn"] header) rows rows2.
Proof.
  cbv zeta. apply double_encoding.
  - repeat split; discriminate.
  - vm_compute. reflexivity.
  - apply (bool_decide_unpack _). vm_compute. exact I.
Defined.

(** C5 (as amended). The header row of the output is the column names read
    from the input, in their order, as the writer writes them (the
    delimiter, minimal quoting, CR LF): reading the output gives the same
    names, and where the input header row is written that way the output
    header row is the same bytes. *)
Theorem header_row d pii_fields raw_csv out :
  delim_ok d →
  transform d pii_fields raw_csv = Ok out →
  ∃ header rows body,
    reader_of d raw_csv = Yield header rows
    ∧ out = writerow d header ++ body
    ∧ (∃ rows', reader_of d out = Yield header rows')
    ∧ ∀ names rest,
        Forall fits names → raw_csv = writerow d names ++ rest →
        out = writerow d names ++ body.
Proof.
  intros Hd. rewrite transform_written. unfold written.
  destruct (reader_of d raw_csv) as [|header rows|] eqn:Hread; try done.
  destruct (transform_records header pii_fields rows) as [more|]; [|done].
  cbn [bind fst snd]. intros [= <-].
  exists header, rows, (render d more). split; [done|]. split; [done|].
  pose proof (reader_of_header_fits _ _ _ _ Hread) as Hfit.
  split.
  - eexists. unfold reader_of, render. cbn [map concat].
    by rewrite read_writerow.
  - intros names rest Hnames ->. unfold reader_of in Hread.
    rewrite read_writerow in Hread by done. by simplify_eq.
Qed.

Lemma header_row_witness :
  let raw := text "id,email" ++ [CR; LF] ++ text "1,a@b.com" ++ [LF] in
  ∃ header rows body,
    reader_of 44 raw = Yield header rows
    ∧ text "id,email" ++ [CR; LF] ++ text "1,YUBiLmNvbQ==" ++ [CR; LF]
      = writerow 44 header ++ body
    ∧ (∃ rows',
         reader_of 44
           (text "id,email" ++ [CR; LF] ++ text "1,YUBiLmNvbQ==" ++ [CR; LF])
         = Yield header rows')
    ∧ ∀ names rest,
        Forall fits names → raw = writerow 44 names ++ rest →
        text "id,email" ++ [CR; LF] ++ text "1,YUBiLmNvbQ==" ++ [CR; LF]
        = writerow 44 names ++ body.
Proof.
  cbv zeta. apply (header_row 44 [text "email"]).
  - repeat split; discriminate.
  - vm_compute. reflexivity.
Defined.

Section Overflow.

Variable d : Z.
Hypothesis d_ok : delim_ok d.

Lemma read_unquoted_overflow f cur fs s :
  Forall (λ c, special d c = false) f → fits cur → ¬ fits (cur ++ f) →
  read d (Reader IN_FIELD cur fs) (open_lines (f ++ s))
  = Throw (CsvError FieldLargerThanFieldLimit).
Proof.
  revert cur. induction f as [|c f IH]; intros cur Hf Hcur Hover.
  - by rewrite app_nil_r in Hover.
  - apply Forall_cons in Hf as [Hc Hf].
    pose proof (special_false d c Hc) as (Hd & Hq & Hcr & Hlf).
    cbn [app]. rewrite read_char by done.
    unfold parse_process_char. cbn [state]. unfold is_crlf.
    replace ((c =? LF) || (c =? CR)) with false by lia.
    replace (c =? d) with false by lia.
    destruct (decide (fits (cur ++ [c]))) as [Hfit|Hfit].
    + rewrite add_char_fits by done. apply IH; [done..|].
      by rewrite <- app_assoc.
    + unfold parse_add_char. cbn [field]. unfold fits in *.
      rewrite length_app in Hfit. cbn [length] in Hfit.
      destruct (field_limit <=? Z.of_nat (length cur)) eqn:Hlim; [done|lia].
Qed.

Lemma read_overflow f s :
  Forall (λ c, special d c = false) f → ¬ fits f →
  read d fresh (open_lines (f ++ s))
  = Throw (CsvError FieldLargerThanFieldLimit).
Proof.
  intros Hf Hover. destruct f as [|c f]; [by destruct Hover; apply fits_nil|].
  pose proof Hf as [Hc Hf']%Forall_cons.
  pose proof (special_false d c Hc) as (Hd & Hq & Hcr & Hlf).
  cbn [app]. rewrite read_char by done.
  assert (parse_process_char d fresh (Char c) = Ok (Reader IN_FIELD [c] []))
    as ->.
  { unfold parse_process_char, fresh; cbn [state];
      unfold at_start_field, is_crlf, set_state; cbn [state field fields].
    replace ((c =? LF) || (c =? CR)) with false by lia.
    replace (c =? DQUOTE) with false by lia.
    replace (c =? d) with false by lia. done. }
  apply read_unquoted_overflow; [done| |done].
  unfold fits, field_limit. cbn. lia.
Qed.

End Overflow.

Lemma b64encode_alphabet bs :
  Forall is_byte bs → Forall (λ c, 43 <= c <= 122) (Base64.b64encode bs).
Proof.
  unfold is_byte.
  induction bs as [|a|a b|a b c l IH] using list_ind3; intros Hb;
    cbn [Base64.b64encode]; unfold Base64.PAD;
    repeat match goal with
    | H : Forall _ (_ :: _) |- _ => apply Forall_cons in H as [? H]
    end;
    repeat (apply Forall_cons; split); try apply Forall_nil; auto;
    match goal with
    | |- _ <= Base64.digit ?i <= _ => pose proof (digit_range i); lia
    | _ => lia
    end.
Qed.

Lemma token_plain v t :
  tokenize v = Ok t → Forall (λ c, special 9 c = false) t.
Proof.
  intros (bs & Hbs & ->)%tokenize_inv.
  eapply Forall_impl; [by eapply b64encode_alphabet, utf8_encode_bytes|].
  intros c Hc. cbv beta in Hc. unfold special, DQUOTE, CR, LF. lia.
Qed.

Lemma utf8_encode_replicate n c :
  0 <= c < 128 → Utf8.encode (replicate n c) = Some (replicate n c).
Proof.
  intros Hc. induction n as [|n IH]; [done|]. cbn [replicate Utf8.encode].
  rewrite IH. unfold Utf8.encode_char, Utf8.is_scalar, Utf8.is_surrogate.
  repeat case_match; simplify_eq; try done; lia.
Qed.

Lemma write_field_plain d f :
  Forall (λ c, special d c = false) f → write_field d f = f.
Proof.
  intros Hf. unfold write_field.
  replace (existsb (special d) f) with false; [done|].
  symmetry. apply not_true_is_false.
  intros (c & Hc%list_elem_of_In & Hsp)%existsb_exists.
  rewrite Forall_forall in Hf. by rewrite (Hf c Hc) in Hsp.
Qed.

Lemma writerow_two d f g :
  writerow d [f; g] = write_field d f ++ d :: write_field d g ++ [CR; LF].
Proof. unfold writerow. destruct f; cbn [map join]; by rewrite <- app_assoc. Qed.

(** A value whose token is above the field limit: the first run stores the
    token, the second run cannot read it. *)
Lemma overlong_token v t :
  v ≠ [] → fits v → tokenize v = Ok t → ¬ fits t →
  transform 9 [text "a"] (render 9 [[text "a"; text "b"]; [v; text "1"]])
  = Ok (render 9 [[text "a"; text "b"]; [t; text "1"]])
  ∧ transform 9 [text "a"] (render 9 [[text "a"; text "b"]; [t; text "1"]])
    = Raise (CsvError FieldLargerThanFieldLimit).
Proof.
  intros Hv Hfit Htok Hover.
  assert (delim_ok 9) as Hd by (repeat split; discriminate).
  assert (Forall fits [text "a"; text "b"]) as Hheader.
  { apply (bool_decide_unpack _). vm_compute. exact I. }
  assert (fits (text "1")) as Hone.
  { apply (bool_decide_unpack _). vm_compute. exact I. }
  split.
  - rewrite transform_written. unfold written.
    rewrite reader_of_render; [|done|by repeat constructor].
    cbn [yields foldr transform_records mask_row].
    rewrite (mask_field_hit _ _ v); [|vm_compute; reflexivity|done].
    rewrite Htok. cbn [bind]. vm_compute. reflexivity.
  - unfold transform, reader_of, render. cbn [map concat].
    rewrite read_writerow by done. rewrite app_nil_r.
    pose proof (token_plain _ _ Htok) as Hplain.
    rewrite writerow_two, (write_field_plain 9 t) by done.
    rewrite readlines_open by (destruct t; [by destruct Hover; apply fits_nil|done]).
    by rewrite read_overflow.
Qed.

(** C7 (as stated) fails for a long value: the token of 98305 characters
    is longer than the field size limit, and the second run raises
    csv.Error instead of encoding it again. *)
Lemma long_value_breaks_second_run :
  let value := replicate (Z.to_nat 98305) 120 in
  let raw := render 9 [[text "a"; text "b"]; [value; text "1"]] in
  let out := render 9 [[text "a"; text "b"];
                       [Base64.b64encode value; text "1"]] in
  transform 9 [text "a"] raw = Ok out
  ∧ transform 9 [text "a"] out = Raise (CsvError FieldLargerThanFieldLimit).
Proof.
  cbv zeta.
  assert (tokenize (replicate (Z.to_nat 98305) 120)
          = Ok (Base64.b64encode (replicate (Z.to_nat 98305) 120))) as Htok.
  { unfold tokenize. by rewrite utf8_encode_replicate. }
  apply overlong_token; [| |exact Htok|].
  - intros H.
    assert (length (replicate (Z.to_nat 98305) 120) = 0%nat) as Hlen
      by by rewrite H.
    rewrite length_replicate in Hlen. lia.
  - unfold fits, field_limit. rewrite length_replicate. lia.
  - unfold fits, field_limit.
    pose proof (b64encode_length (replicate (Z.to_nat 98305) 120)) as Hlen.
    rewrite length_replicate in Hlen. lia.
Qed.

(** C5 (as stated) fails: a quoted name in the header of the input is
    written without quotes, and the line feed behind it as CR LF. *)
Lemma quoted_header_is_rewritten :
  let key := text "metadata/customers_pii_fields.json" in
  let raw := [DQUOTE] ++ text "a" ++ [DQUOTE] ++ text ",b" ++ [LF]
             ++ text "1,2" ++ [LF] in
  let out := text "a,b" ++ [CR; LF] ++ text "1,2" ++ [CR; LF] in
  let rt := Example.runtime_of
              [(key, Example.metadata); (text "raw/customers.csv", raw)] in
  lambda_handler rt (Event Example.BUCKET key) []
  = ([GetObject Example.BUCKET key;
      GetObject Example.BUCKET (text "raw/customers.csv");
      PutObject Example.BUCKET (text "tokenized/customers_tokenized.csv") out],
     Ok ())
  ∧ head (Py.splitlines raw) = Some ([DQUOTE] ++ text "a" ++ [DQUOTE] ++ text ",b")
  ∧ head (Py.splitlines out) = Some (text "a,b")
  ∧ take 4 raw ≠ take 4 out.
Proof.
  cbv zeta. split; [vm_compute; reflexivity|].
  split; [vm_compute; reflexivity|]. split; [vm_compute; reflexivity|].
  vm_compute. discriminate.
Qed.

(** * Further properties *)

(** A decidable statement about given values, by evaluation. *)

(** ** The resolved keys *)

Lemma basename_slash_free p : SLASH ∉ Py.basename p.
Proof.
  induction p as [|c p IH]; [by apply not_elem_of_nil|].
  cbn [Py.basename]. by case_bool_decide.
Qed.

Lemma remove_from_elem old skip s c :
  c ∈ Py.remove_from old skip s → c ∈ s.
Proof.
  revert skip. induction s as [|x s IH]; intros skip; [done|].
  cbn [Py.remove_from]. destruct skip as [|k].
  - destruct (Py.startswith old (x :: s)).
    + intros H%IH. by right.
    + intros [->|H%IH]%elem_of_cons; [left|by right].
  - intros H%IH. by right.
Qed.

Lemma startswith_length p s :
  Py.startswith p s = true → (length p ≤ length s)%nat.
Proof.
  revert s. induction p as [|a p IH]; intros [|b s]; cbn; try done; try lia.
  intros [_ H%IH]%andb_true_iff. lia.
Qed.

Lemma remove_from_length old skip s :
  old ≠ [] → (skip ≤ length s)%nat →
  ∃ n, length s
       = (length (Py.remove_from old skip s) + skip + n * length old)%nat.
Proof.
  intros Hold. revert skip. induction s as [|x s IH]; intros skip Hskip.
  - exists 0%nat. cbn in *. lia.
  - cbn [Py.remove_from]. destruct skip as [|k].
    + destruct (Py.startswith old (x :: s)) eqn:Hst.
      * apply startswith_length in Hst. cbn [length] in Hst.
        destruct old as [|o old]; [done|]. cbn [length Nat.pred] in *.
        destruct (IH (length old)) as [n Hn]; [lia|]. exists (S n). lia.
      * destruct (IH 0%nat) as [n Hn]; [lia|]. exists n. cbn [length]. lia.
    + cbn [length] in Hskip. destruct (IH k) as [n Hn]; [lia|].
      exists n. cbn [length]. lia.
Qed.

Lemma filename_base_length key :
  ∃ n, length (Py.basename key)
       = (length (filename_base key) + n * 16)%nat.
Proof.
  unfold filename_base, Py.replace_with_empty.
  change PII_SUFFIX with (95 :: tl PII_SUFFIX) at 1.
  cbv iota.
  destruct (remove_from_length PII_SUFFIX 0 (Py.basename key)) as [n Hn]; [done|lia|].
  change (length PII_SUFFIX) with 16%nat in Hn. exists n. lia.
Qed.

Lemma filename_base_slash_free key : SLASH ∉ filename_base key.
Proof.
  unfold filename_base, Py.replace_with_empty.
  change PII_SUFFIX with (95 :: tl PII_SUFFIX) at 1. cbv iota.
  intros H%remove_from_elem. by apply (basename_slash_free key).
Qed.

(** X1. The dataset and the output are always direct children of [raw/] and
    [tokenized/]: whatever the key of the event, the name put between the
    prefix and the extension holds no slash. *)
Theorem resolved_keys_are_flat key :
  (SLASH ∉ filename_base key)
  ∧ raw_key key = text "raw/" ++ filename_base key ++ text ".csv"
  ∧ output_key key
    = text "tokenized/" ++ filename_base key ++ text "_tokenized.csv".
Proof. split; [apply filename_base_slash_free|done]. Qed.

Lemma filename_base_dir dir p :
  SLASH ∉ p → filename_base (dir ++ SLASH :: p) = filename_base p.
Proof.
  intros Hp. unfold filename_base.
  rewrite (basename_no_slash p) by done.
  replace (dir ++ SLASH :: p) with ((dir ++ [SLASH]) ++ p)
    by by rewrite <- app_assoc.
  rewrite basename_app; [done| |done]. right. by rewrite last_snoc.
Qed.

(** X2. The directory of the key of the event is ignored: two metadata
    objects of the same base name in different directories resolve to the
    same dataset and the same output. *)
Theorem directory_is_ignored dir name :
  SLASH ∉ name →
  raw_key (dir ++ SLASH :: name) = raw_key name
  ∧ output_key (dir ++ SLASH :: name) = output_key name.
Proof.
  intros H. unfold raw_key, output_key. by rewrite filename_base_dir.
Qed.

Lemma directory_is_ignored_witness :
  raw_key (text "in/2024" ++ SLASH :: text "users_pii_fields.json")
  = raw_key (text "users_pii_fields.json")
  ∧ output_key (text "in/2024" ++ SLASH :: text "users_pii_fields.json")
    = output_key (text "users_pii_fields.json").
Proof.
  apply (directory_is_ignored (text "in/2024") (text "users_pii_fields.json")).
  by_compute.
Defined.

Lemma basename_of_resolved (pre X suf : str) :
  last pre = Some SLASH → SLASH ∉ X → SLASH ∉ suf →
  Py.basename (pre ++ X ++ suf) = X ++ suf.
Proof.
  intros Hpre HX Hsuf. apply basename_app; [by right|].
  rewrite elem_of_app. tauto.
Qed.

(** X3. The handler never reads the dataset from, and never writes the
    output to, the key that triggered it, and the output never replaces the
    dataset: the three keys of a run are different, for every key of the
    event. *)
Theorem resolved_keys_are_distinct key :
  raw_key key ≠ key ∧ output_key key ≠ key ∧ output_key key ≠ raw_key key.
Proof.
  pose proof (filename_base_slash_free key) as Hflat.
  destruct (filename_base_length key) as [n Hn].
  split; [|split].
  - intros Heq. rewrite <- Heq in Hn at 1. unfold raw_key in Hn.
    rewrite basename_of_resolved in Hn; [|done|done|by_compute].
    rewrite length_app in Hn. cbn in Hn. lia.
  - intros Heq. rewrite <- Heq in Hn at 1. unfold output_key in Hn.
    rewrite basename_of_resolved in Hn; [|done|done|by_compute].
    rewrite length_app in Hn. cbn in Hn. lia.
  - unfold output_key, raw_key. cbn. by intros [=].
Qed.

(** ** Tokens *)

Lemma utf8_encode_char_length c bs :
  Utf8.encode_char c = Some bs → (1 ≤ length bs ≤ 4)%nat.
Proof.
  unfold Utf8.encode_char. repeat case_match; intros [= <-]; cbn; lia.
Qed.

Lemma utf8_encode_length_le s bs :
  Utf8.encode s = Some bs → (length bs ≤ 4 * length s)%nat.
Proof.
  revert bs. induction s as [|c s IH]; intros bs; cbn [Utf8.encode].
  - by intros [= <-].
  - destruct (Utf8.encode_char c) as [b|] eqn:Hc; [|done].
    destruct (Utf8.encode s) as [bs'|]; [|done]. intros [= <-].
    apply utf8_encode_char_length in Hc. specialize (IH _ eq_refl).
    rewrite length_app. cbn [length]. lia.
Qed.

Lemma utf8_encode_text s bs : Utf8.encode s = Some bs → is_text s.
Proof.
  revert bs. induction s as [|c s IH]; intros bs; cbn [Utf8.encode].
  - intros _. constructor.
  - destruct (Utf8.encode_char c) as [b|] eqn:Hc; [|done].
    destruct (Utf8.encode s) as [bs'|]; [|done]. intros _.
    constructor; [|by eapply IH].
    unfold Utf8.encode_char in Hc. by destruct (Utf8.is_scalar c).
Qed.

Lemma b64encode_length_eq bs :
  length (Base64.b64encode bs) = (4 * ((length bs + 2) / 3))%nat.
Proof.
  induction bs as [|a|a b|a b c l IH] using list_ind3; try done.
  cbn [Base64.b64encode length]. rewrite IH.
  replace (S (S (S (length l))) + 2)%nat with (1 * 3 + (length l + 2))%nat
    by lia.
  rewrite Nat.div_add_l by done. lia.
Qed.

Lemma tokenize_raise v e : tokenize v = Raise e → e = UnicodeEncodeError.
Proof.
  unfold tokenize. destruct (Utf8.encode v); cbn; [done|]. by intros [= <-].
Qed.

Lemma b64encode_digits bs :
  Forall is_byte bs →
  Forall (λ c, is_Some (Base64.index c) ∨ c = Base64.PAD) (Base64.b64encode bs).
Proof.
  unfold is_byte.
  induction bs as [|a|a b|a b c l IH] using list_ind3; intros Hb;
    cbn [Base64.b64encode];
    repeat match goal with
    | H : Forall _ (_ :: _) |- _ => apply Forall_cons in H as [? H]
    end;
    repeat (apply Forall_cons; split); try apply Forall_nil; auto;
    match goal with
    | |- is_Some (Base64.index (Base64.digit ?i)) ∨ _ =>
      left; rewrite index_digit; [by eexists|lia]
    | _ => by right
    end.
Qed.

(** X4. The length of a token: four characters for every three bytes of the
    UTF-8 encoding of the value, the last group filled up, where a value of
    [n] characters has between [n] and [4 n] bytes. *)
Theorem token_length v t :
  tokenize v = Ok t →
  ∃ bs, Utf8.encode v = Some bs
        ∧ length t = (4 * ((length bs + 2) / 3))%nat
        ∧ (length v ≤ length bs ≤ 4 * length v)%nat.
Proof.
  intros (bs & Hbs & ->)%tokenize_inv. exists bs. split; [done|].
  split; [apply b64encode_length_eq|].
  split; [by apply utf8_encode_length|by apply utf8_encode_length_le].
Qed.

Lemma token_length_witness :
  ∃ bs, Utf8.encode (text "a@b.com") = Some bs
        ∧ length (text "YUBiLmNvbQ==") = (4 * ((length bs + 2) / 3))%nat
        ∧ (length (text "a@b.com") ≤ length bs ≤ 4 * length (text "a@b.com"))%nat.
Proof.
  apply (token_length (text "a@b.com") (text "YUBiLmNvbQ==")).
  vm_compute. reflexivity.
Defined.

(** X5. Tokenization is injective: two values get the same token only if
    they are the same value. *)
Theorem tokens_are_distinct v1 v2 t1 t2 :
  tokenize v1 = Ok t1 → tokenize v2 = Ok t2 → (t1 = t2 ↔ v1 = v2).
Proof.
  intros H1 H2. split.
  - intros ->. apply tokenize_roundtrip in H1, H2. congruence.
  - intros ->. congruence.
Qed.

Lemma tokens_are_distinct_witness :
  text "YQ==" = text "Yg==" ↔ text "a" = text "b".
Proof.
  apply (tokens_are_distinct (text "a") (text "b") (text "YQ==") (text "Yg=="));
    vm_compute; reflexivity.
Defined.

(** X6. A token is made of the characters of the Base64 alphabet, so the
    writer writes it as it is, without quotes, whenever the delimiter is not
    one of these characters (letters, digits, plus, slash, equals sign). *)
Theorem token_needs_no_quotes d v t :
  tokenize v = Ok t → Base64.index d = None → d ≠ Base64.PAD →
  Forall (λ c, is_Some (Base64.index c) ∨ c = Base64.PAD) t
  ∧ write_field d t = t.
Proof.
  intros (bs & Hbs & ->)%tokenize_inv Hd Hpad.
  pose proof (b64encode_digits bs (utf8_encode_bytes _ _ Hbs)) as Hdigits.
  split; [done|]. apply write_field_plain.
  eapply Forall_impl; [done|].
  intros c Hc. cbv beta in Hc. unfold special.
  assert (c ≠ d) by (intros ->; destruct Hc as [[? Hc]|Hc]; congruence).
  assert (c ≠ DQUOTE ∧ c ≠ CR ∧ c ≠ LF) as (? & ? & ?).
  { repeat split; intros ->; by destruct Hc as [[? Hc]|Hc]. }
  lia.
Qed.

Lemma token_needs_no_quotes_witness :
  Forall (λ c, is_Some (Base64.index c) ∨ c = Base64.PAD)
    (text "YUBiLmNvbQ==")
  ∧ write_field 44 (text "YUBiLmNvbQ==") = text "YUBiLmNvbQ==".
Proof.
  apply (token_needs_no_quotes 44 (text "a@b.com") (text "YUBiLmNvbQ=="));
    vm_compute; congruence.
Defined.

(** X7. Tokenization fails exactly on a value that holds a code point that
    is no Unicode scalar value (a lone surrogate), and then with
    UnicodeEncodeError. *)
Theorem tokenize_fails_iff v :
  (is_text v ↔ ∃ t, tokenize v = Ok t)
  ∧ (¬ is_text v ↔ tokenize v = Raise UnicodeEncodeError).
Proof.
  assert (is_text v ↔ ∃ t, tokenize v = Ok t) as Hok.
  { split; [apply tokenize_ok|].
    intros (t & (bs & Hbs & _)%tokenize_inv). by eapply utf8_encode_text. }
  split; [done|]. split.
  - intros Hv. destruct (tokenize v) as [t|e] eqn:Ht.
    + destruct Hv. apply Hok. by exists t.
    + by apply tokenize_raise in Ht as ->.
  - intros Hfail [t Ht]%Hok. congruence.
Qed.

(** ** The loop over the field list *)

Lemma mask_field_cases f row :
  (∃ v, cells row !! f = Some (Some v) ∧ v ≠ [])
  ∨ (∀ row', cells row' !! f = cells row !! f → mask_field f row' = Ok row').
Proof.
  destruct (cells row !! f) as [[v|]|] eqn:Hf.
  - destruct (decide (v = [])) as [->|Hv]; [|left; by exists v].
    right. intros row' H. apply mask_field_miss. auto.
  - right. intros row' H. apply mask_field_miss. auto.
  - right. intros row' H. apply mask_field_miss. auto.
Qed.

Lemma mask_field_comm_miss x y row :
  (∀ row', cells row' !! x = cells row !! x → mask_field x row' = Ok row') →
  bind (mask_field x row) (mask_field y)
  = bind (mask_field y row) (mask_field x).
Proof.
  intros Hx. rewrite (Hx row) by done. cbn [bind].
  destruct (decide (x = y)) as [->|Hne];
    [rewrite (Hx row) by done; cbn [bind]; by rewrite (Hx row)|].
  destruct (mask_field y row) as [row'|] eqn:Hy; [|done]. cbn [bind].
  rewrite Hx; [done|]. by eapply mask_field_other.
Qed.

Lemma mask_field_comm x y row :
  bind (mask_field x row) (mask_field y)
  = bind (mask_field y row) (mask_field x).
Proof.
  destruct (decide (x = y)) as [->|Hne]; [done|].
  destruct (mask_field_cases x row) as [(vx & Hx & Hvx)|Hx];
    [|by apply mask_field_comm_miss].
  destruct (mask_field_cases y row) as [(vy & Hy & Hvy)|Hy];
    [|symmetry; by apply mask_field_comm_miss].
  rewrite (mask_field_hit x row vx), (mask_field_hit y row vy) by done.
  destruct (tokenize vx) as [tx|ex] eqn:Ex;
    destruct (tokenize vy) as [ty|ey] eqn:Ey; cbn [bind].
  - rewrite (mask_field_hit y _ vy), (mask_field_hit x _ vx);
      cbn [cells restkey]; rewrite ?lookup_insert_ne by done; try done.
    rewrite Ex, Ey. cbn [bind]. do 2 f_equal. by apply insert_insert_ne.
  - rewrite (mask_field_hit y _ vy);
      cbn [cells restkey]; rewrite ?lookup_insert_ne by done; try done.
    by rewrite Ey.
  - rewrite (mask_field_hit x _ vx);
      cbn [cells restkey]; rewrite ?lookup_insert_ne by done; try done.
    by rewrite Ex.
  - apply tokenize_raise in Ex, Ey. by subst.
Qed.

Lemma mask_row_cons x l row :
  mask_row (x :: l) row = bind (mask_field x row) (mask_row l).
Proof. done. Qed.

(** X8. The order of the field list is irrelevant: the loop gives the same
    row, or fails alike, for every rearrangement of [pii_fields]. *)
Theorem field_list_order_is_irrelevant pii_fields pii_fields' row :
  pii_fields ≡ₚ pii_fields' →
  mask_row pii_fields row = mask_row pii_fields' row.
Proof.
  intros Hp. revert row.
  induction Hp as [|x l l' _ IH|x y l|l l' l'' _ IH1 _ IH2]; intros row.
  - done.
  - rewrite !mask_row_cons. destruct (mask_field x row); [apply IH|done].
  - rewrite !mask_row_cons.
    transitivity (bind (bind (mask_field y row) (mask_field x)) (mask_row l)).
    { by destruct (mask_field y row). }
    rewrite mask_field_comm. by destruct (mask_field x row).
  - by rewrite IH1.
Qed.

Lemma field_list_order_is_irrelevant_witness :
  mask_row [text "email"; text "ssn"]
    (to_dict [text "id"; text "email"; text "ssn"]
             [text "1"; text "a@b.com"; text "123"])
  = mask_row [text "ssn"; text "email"]
      (to_dict [text "id"; text "email"; text "ssn"]
               [text "1"; text "a@b.com"; text "123"]).
Proof.
  apply (field_list_order_is_irrelevant
           [text "email"; text "ssn"] [text "ssn"; text "email"]).
  apply perm_swap.
Defined.

(** ** Rows *)







Lemma transform_records_length fieldnames pii_fields rows vs :
  transform_records fieldnames pii_fields rows = Ok vs →
  Forall (λ values, length values = length fieldnames) vs.
Proof.
  revert vs. induction rows as [|r rest IH|e]; intros vs; cbn.
  - intros [= <-]. constructor.
  - destruct r as [|f r]; [apply IH|].
    destruct (mask_row _ _) as [row|]; [|done]. cbn [bind].
    destruct (dict_to_list fieldnames row) as [values|] eqn:Hv; [|done].
    cbn [bind]. destruct (transform_records _ _ rest) as [more|]; [|done].
    cbn [bind]. intros [= <-]. constructor; [|by apply IH].
    apply dict_to_list_inv in Hv as (_ & _ & ->). by rewrite length_fmap.
  - done.
Qed.

(** X10. The output is rectangular: every row written has as many fields as
    the header, whatever the rows read were like (a short row is filled up,
    a long one makes the run fail). *)
Theorem output_is_rectangular d pii_fields raw_csv header rows :
  written d pii_fields raw_csv = Ok (header, rows) →
  transform d pii_fields raw_csv = Ok (render d (header :: rows))
  ∧ Forall (λ values, length values = length header) rows.
Proof.
  intros H. rewrite transform_written, H. split; [done|].
  unfold written in H. destruct (reader_of d raw_csv) as [|h rs|]; try done.
  destruct (transform_records h pii_fields rs) as [more|] eqn:Hm; [|done].
  cbn in H. injection H as <- <-. by eapply transform_records_length.
Qed.

Lemma output_is_rectangular_witness :
  let raw := text "id,email,ssn" ++ [LF] ++ text "1,a@b.com" ++ [LF]
             ++ text "2" ++ [LF] in
  let header := [text "id"; text "email"; text "ssn"] in
  let rows := [[text "1"; text "YUBiLmNvbQ=="; []]; [text "2"; []; []]] in
  transform 44 [text "email"] raw = Ok (render 44 (header :: rows))
  ∧ Forall (λ values, length values = length header) rows.
Proof.
  apply (output_is_rectangular 44 [text "email"]).
  vm_compute. reflexivity.
Defined.

(** ** One row for every record *)

Lemma transform_records_rows h pii rs vs :
  transform_records h pii rs = Ok vs →
  ∃ recs,
    rs = yields recs
    ∧ Forall2 (λ r values,
                 ∃ row, mask_row pii (to_dict h r) = Ok row
                        ∧ dict_to_list h row = Ok values)
        (filter (λ r, r ≠ []) recs) vs.
Proof.
  revert vs. induction rs as [|r rest IH|e]; intros vs; cbn.
  - intros [= <-]. by exists [].
  - destruct r as [|f r].
    + intros (recs & -> & Hrecs)%IH. exists ([] :: recs). split; [done|].
      by rewrite filter_cons_False by by intros H; apply H.
    + destruct (mask_row _ _) as [row|] eqn:Hrow; [|done]. cbn [bind].
      destruct (dict_to_list h row) as [values|] eqn:Hv; [|done].
      cbn [bind].
      destruct (transform_records _ _ rest) as [more|]; [|done].
      cbn [bind]. intros [= <-].
      destruct (IH more eq_refl) as (recs & -> & Hrecs).
      exists ((f :: r) :: recs). split; [done|].
      rewrite filter_cons_True by done. constructor; [|done]. by exists row.
  - done.
Qed.

(** X11. One row for every record, in order: when the transformer succeeds,
    the reader has given the header and a finite list of records, and the
    output is the header line followed by one line for every record that is
    not blank, in the order of the records: the line of what the loop makes
    of that record. No record is left out, repeated or moved. *)
Theorem one_row_per_record d pii_fields raw_csv output :
  transform d pii_fields raw_csv = Ok output →
  ∃ header recs rows,
    reader_of d raw_csv = yields (header :: recs)
    ∧ output = render d (header :: rows)
    ∧ length rows = length (filter (λ r, r ≠ []) recs)
    ∧ Forall2 (λ r values,
                 ∃ row, mask_row pii_fields (to_dict header r) = Ok row
                        ∧ dict_to_list header row = Ok values)
        (filter (λ r, r ≠ []) recs) rows.
Proof.
  rewrite transform_written. unfold written.
  destruct (reader_of d raw_csv) as [|h rs|]; try done.
  destruct (transform_records h pii_fields rs) as [more|] eqn:Hmore; [|done].
  cbn. intros [= <-].
  apply transform_records_rows in Hmore as (recs & -> & Hrecs).
  exists h, recs, more. split; [done|]. split; [done|]. split; [|done].
  symmetry. by eapply Forall2_length.
Qed.

Lemma one_row_per_record_witness :
  let raw := text "id,email" ++ [LF] ++ text "1,a@b.com" ++ [LF; LF]
             ++ text "2,c@d.org" ++ [LF] in
  let output := text "id,email" ++ [CR; LF] ++ text "1,YUBiLmNvbQ=="
                ++ [CR; LF] ++ text "2,Y0BkLm9yZw==" ++ [CR; LF] in
  ∃ header recs rows,
    reader_of 44 raw = yields (header :: recs)
    ∧ output = render 44 (header :: rows)
    ∧ length rows = length (filter (λ r, r ≠ []) recs)
    ∧ Forall2 (λ r values,
                 ∃ row, mask_row [text "email"] (to_dict header r) = Ok row
                        ∧ dict_to_list header row = Ok values)
        (filter (λ r, r ≠ []) recs) rows.
Proof.
  apply (one_row_per_record 44 [text "email"]). vm_compute. reflexivity.
Defined.

(** ** Records and line ends *)

Lemma writerow_record_text d row :
  writerow d row = record_text d row ++ [CR; LF].
Proof. unfold writerow, record_text. by repeat case_match. Qed.

Lemma render_with_crlf d rows : render_with [CR; LF] d rows = render d rows.
Proof.
  unfold render_with, render. f_equal. apply map_ext. intros row.
  by rewrite writerow_record_text.
Qed.

Section Records.

Variable d : Z.
Hypothesis d_ok : delim_ok d.

(** The fields of a record, up to what follows the last of them. *)
Lemma read_body f rest r s :
  before_field r → Forall fits (f :: rest) →
  ∃ r', behind_field (field r') (fields r') r'
        ∧ fields r' ++ [field r'] = fields r ++ f :: rest
        ∧ (state r' = START_RECORD → state r = START_RECORD ∧ f :: rest = [[]])
        ∧ read d r (open_lines (join d (map (write_field d) (f :: rest)) ++ s))
          = read d r' (open_lines s).
Proof.
  revert f r. induction rest as [|f' rest IH]; intros f r Hr Hfit.
  - apply Forall_cons in Hfit as [Hf _]. cbn [map join].
    destruct (read_field d d_ok f r s Hr Hf) as (r' & Hr' & Hst & ->).
    exists r'. destruct Hr' as (Hf' & Hfs' & Hst').
    split; [by rewrite Hf', Hfs'|]. split; [by rewrite Hf', Hfs'|].
    split; [|done]. intros [? ->]%Hst. done.
  - apply Forall_cons in Hfit as [Hf Hfit].
    change (join d (map (write_field d) (f :: f' :: rest)))
      with (write_field d f ++ d :: join d (map (write_field d) (f' :: rest))).
    rewrite <- app_assoc. cbn [app].
    destruct (read_field d d_ok f r
                (d :: join d (map (write_field d) (f' :: rest)) ++ s)
                Hr Hf) as (r1 & Hr1 & _ & ->).
    rewrite (read_delimiter d d_ok _ _ _ _ Hr1).
    destruct (IH f' (Reader START_FIELD [] (fields r ++ [f])))
      as (r' & Hr' & Hfs & Hst & ->); [by split; [right|]|done|].
    exists r'. split; [done|]. cbn [fields] in Hfs.
    split; [by rewrite Hfs, <- app_assoc|]. split; [|done].
    intros [? _]%Hst. done.
Qed.

(** A line feed behind the last field. *)
Lemma read_line_feed f fs r s :
  behind_field f fs r → state r ≠ START_RECORD →
  read d r (open_lines (LF :: s))
  = Yield (fs ++ [f]) (read d fresh (readlines s)).
Proof.
  destruct d_ok as (Hdq & Hdcr & Hdlf).
  destruct r as [st cur fs']. intros (Hf & Hfs & Hst) Hne.
  cbn in Hf, Hfs, Hst, Hne. subst cur fs'. rewrite read_newline.
  assert (parse_process_char d (Reader st f fs) (Char LF)
          = Ok (Reader EAT_CRNL [] (fs ++ [f]))) as ->.
  { unfold parse_process_char, at_start_field, is_crlf. cbn [state].
    destruct Hst as [-> | [-> | [[-> | ->] ->]]]; try done;
      cbn [set_state state];
      replace (LF =? d) with false by lia; done. }
  done.
Qed.

(** The end of the text behind the last field. *)
Lemma read_end f fs r :
  behind_field f fs r → state r ≠ START_RECORD →
  read d r (open_lines []) = Yield (fs ++ [f]) Stop.
Proof.
  destruct r as [st cur fs']. intros (Hf & Hfs & Hst) Hne.
  cbn in Hf, Hfs, Hst, Hne. subst cur fs'.
  unfold open_lines. cbn [readlines read]. unfold process_line. cbn [feed bind].
  unfold parse_process_char, at_start_field. cbn [state].
  destruct Hst as [-> | [-> | [[-> | ->] ->]]]; done.
Qed.

(** A carriage return behind the last field that no line feed follows. *)
Lemma read_carriage_return f fs r c s :
  behind_field f fs r → c ≠ CR → c ≠ LF →
  read d r (open_lines (CR :: c :: s))
  = Throw (CsvError NewlineInUnquotedField).
Proof.
  destruct d_ok as (Hdq & Hdcr & Hdlf).
  destruct r as [st cur fs']. intros (Hf & Hfs & Hst) Hcr Hlf.
  cbn in Hf, Hfs, Hst. subst cur fs'. rewrite read_char by done.
  assert (∃ fs', parse_process_char d (Reader st f fs) (Char CR)
                 = Ok (Reader EAT_CRNL [] fs')) as [fs' ->].
  { unfold parse_process_char, at_start_field, is_crlf. cbn [state].
    destruct Hst as [-> | [-> | [[-> | ->] ->]]];
      cbn [set_state state];
      replace (CR =? d) with false by lia; by eexists. }
  rewrite read_char by done.
  unfold parse_process_char, is_crlf. cbn [state].
  by replace ((c =? LF) || (c =? CR)) with false by lia.
Qed.

Lemma record_text_nonempty row : row ≠ [] → record_text d row ≠ [].
Proof.
  destruct row as [|f [|f' rest]]; [done| |].
  - intros _. unfold record_text. destruct f as [|c f]; [done|].
    cbn [map join]. unfold write_field. case_match; [done|done].
  - intros _. unfold record_text. cbn [map join].
    destruct f; by destruct (write_field d _).
Qed.

(** A record that ends with a line feed is read as one that ends with
    CR LF. *)
Lemma read_record_lf row s :
  Forall fits row →
  read d fresh (readlines (record_text d row ++ LF :: s))
  = Yield row (read d fresh (readlines s)).
Proof.
  intros Hfit. rewrite readlines_open by by destruct (record_text d row).
  destruct row as [|f rest].
  - cbn [record_text map join app]. by rewrite read_newline.
  - destruct (decide (f :: rest = [[]])) as [[= -> ->]|Hne].
    + cbn [record_text app]. rewrite read_char by done.
      unfold parse_process_char at 1. cbn -[open_lines read readlines].
      rewrite read_char by done.
      unfold parse_process_char at 1. cbn -[open_lines read readlines].
      by rewrite (read_line_feed [] [] (Reader QUOTE_IN_QUOTED_FIELD [] []));
        [|repeat split; auto|].
    + assert (record_text d (f :: rest)
              = join d (map (write_field d) (f :: rest))) as ->.
      { unfold record_text. destruct f; [|done]. by destruct rest. }
      destruct (read_body f rest fresh (LF :: s))
        as (r' & Hr' & Hfs & Hst & ->); [by split; [left|]|done|].
      rewrite (read_line_feed _ _ _ _ Hr'); [by rewrite Hfs|].
      intros [_ ?]%Hst. done.
Qed.

(** The last record needs no line terminator. *)
Lemma read_record_end row :
  row ≠ [] → Forall fits row →
  read d fresh (readlines (record_text d row)) = Yield row Stop.
Proof.
  intros Hrow Hfit. rewrite readlines_open by by apply record_text_nonempty.
  destruct row as [|f rest]; [done|].
  destruct (decide (f :: rest = [[]])) as [[= -> ->]|Hne].
  - cbn [record_text app]. rewrite read_char by done.
    unfold parse_process_char at 1. cbn -[open_lines read readlines].
    rewrite read_char by done.
    unfold parse_process_char at 1. cbn -[open_lines read readlines].
    apply (read_end [] []); [repeat split; cbn; auto|done].
  - assert (record_text d (f :: rest)
            = join d (map (write_field d) (f :: rest))) as Htext.
    { unfold record_text. destruct f; [|done]. by destruct rest. }
    rewrite Htext.
    rewrite <- (app_nil_r (join d (map (write_field d) (f :: rest)))).
    destruct (read_body f rest fresh [])
      as (r' & Hr' & Hfs & Hst & ->); [by split; [left|]|done|].
    rewrite (read_end _ _ _ Hr'); [by rewrite Hfs|].
    intros [_ ?]%Hst. done.
Qed.

(** A record that ends with a carriage return alone, with more text behind
    it, is refused. *)
Lemma read_record_cr row c s :
  Forall fits row → c ≠ CR → c ≠ LF →
  read d fresh (readlines (record_text d row ++ CR :: c :: s))
  = Throw (CsvError NewlineInUnquotedField).
Proof.
  intros Hfit Hcr Hlf.
  rewrite readlines_open by by destruct (record_text d row).
  destruct row as [|f rest].
  - cbn [record_text map join app].
    apply (read_carriage_return [] []); [|done..]. repeat split; auto.
  - destruct (decide (f :: rest = [[]])) as [[= -> ->]|Hne].
    + cbn [record_text app]. rewrite read_char by done.
      unfold parse_process_char at 1. cbn -[open_lines read readlines].
      rewrite read_char by done.
      unfold parse_process_char at 1. cbn -[open_lines read readlines].
      apply (read_carriage_return [] []); [|done..]. repeat split; auto.
    + assert (record_text d (f :: rest)
              = join d (map (write_field d) (f :: rest))) as ->.
      { unfold record_text. destruct f; [|done]. by destruct rest. }
      destruct (read_body f rest fresh (CR :: c :: s))
        as (r' & Hr' & Hfs & Hst & ->); [by split; [left|]|done|].
      by apply (read_carriage_return _ _ _ _ _ Hr').
Qed.

(** Written records are read back, whatever follows them. *)
Lemma read_render rows s :
  Forall (Forall fits) rows →
  read d fresh (readlines (render d rows ++ s))
  = foldr Yield (read d fresh (readlines s)) rows.
Proof.
  unfold render. induction rows as [|row rows IH]; intros Hfit; [done|].
  apply Forall_cons in Hfit as [Hrow Hrows]. cbn [map concat foldr].
  rewrite <- app_assoc, read_writerow by done. by rewrite IH.
Qed.

Lemma reader_of_render_lf rows :
  Forall (Forall fits) rows →
  reader_of d (render_with [LF] d rows) = yields rows.
Proof.
  unfold reader_of, render_with.
  induction rows as [|row rows IH]; intros Hfit; [done|].
  apply Forall_cons in Hfit as [Hrow Hrows]. cbn [map concat yields foldr].
  rewrite <- app_assoc. cbn [app]. rewrite read_record_lf by done.
  by rewrite IH.
Qed.

End Records.

Lemma transform_records_prefix h pii rows R :
  transform_records h pii (foldr Yield R rows)
  = (let* vs := transform_records h pii (yields rows) in
     let* more := transform_records h pii R in
     Ok (vs ++ more)).
Proof.
  induction rows as [|r rows IH].
  - cbn [foldr yields transform_records bind].
    by destruct (transform_records h pii R).
  - cbn [foldr yields]. change (foldr Yield Stop rows) with (yields rows).
    destruct r as [|f r]; [apply IH|].
    cbn [transform_records].
    destruct (mask_row _ _) as [row|]; [|done]. cbn [bind].
    destruct (dict_to_list h row) as [values|]; [|done]. cbn [bind].
    rewrite IH. destruct (transform_records h pii (yields rows)); [|done].
    cbn [bind]. by destruct (transform_records h pii R).
Qed.

Lemma transform_of_reader d pii raw :
  transform d pii raw
  = match reader_of d raw with
    | Stop => Raise TypeError
    | Throw e => Raise e
    | Yield h rows =>
      let* more := transform_records h pii rows in
      Ok (render d (h :: more))
    end.
Proof.
  unfold transform. destruct (reader_of d raw) as [|h rows|e]; try done.
  by rewrite transform_rows_records.
Qed.

Lemma transform_same_records d pii raw raw' :
  reader_of d raw = reader_of d raw' →
  transform d pii raw = transform d pii raw'.
Proof. intros H. by rewrite !transform_of_reader, H. Qed.

Lemma reader_of_render_app d rows s :
  delim_ok d → Forall (Forall fits) rows →
  reader_of d (render d rows ++ s)
  = foldr Yield (read d fresh (readlines s)) rows.
Proof. intros Hd Hfit. by apply read_render. Qed.

(** X12. A blank line between the records of a dataset is dropped: it gives
    no row in the output and changes nothing else. *)
Theorem blank_lines_are_dropped d pii_fields header rows blank s :
  delim_ok d → Forall (Forall fits) (header :: rows) →
  blank = [LF] ∨ blank = [CR; LF] →
  transform d pii_fields (render d (header :: rows) ++ blank ++ s)
  = transform d pii_fields (render d (header :: rows) ++ s).
Proof.
  intros Hd Hfit Hblank. rewrite !transform_of_reader.
  rewrite !reader_of_render_app by done. cbn [foldr].
  rewrite !transform_records_prefix.
  assert (read d fresh (readlines (blank ++ s))
          = Yield [] (read d fresh (readlines s))) as ->; [|done].
  destruct Hblank as [-> | ->]; cbn [app readlines]; by rewrite ?Z.eqb_refl.
Qed.

Lemma blank_lines_are_dropped_witness :
  let header := [text "id"; text "email"] in
  let rows := [[text "1"; text "a@b.com"]] in
  let s := text "2,c@d.org" ++ [CR; LF] in
  transform 44 [text "email"] (render 44 (header :: rows) ++ [LF] ++ s)
  = transform 44 [text "email"] (render 44 (header :: rows) ++ s).
Proof.
  apply (blank_lines_are_dropped 44 [text "email"]).
  - repeat split; discriminate.
  - by_compute.
  - by left.
Defined.

(** X13. A line feed alone ends a record as CR LF does: a dataset with Unix
    line ends is read as, and gives the same output as, the same dataset
    with CR LF line ends (the output has CR LF in both cases). *)
Theorem line_feed_ends_a_record d pii_fields rows :
  delim_ok d → Forall (Forall fits) rows →
  reader_of d (render_with [LF] d rows) = reader_of d (render d rows)
  ∧ transform d pii_fields (render_with [LF] d rows)
    = transform d pii_fields (render d rows).
Proof.
  intros Hd Hfit.
  assert (reader_of d (render_with [LF] d rows) = reader_of d (render d rows))
    as H by by rewrite reader_of_render_lf, reader_of_render.
  split; [done|]. by apply transform_same_records.
Qed.

Lemma line_feed_ends_a_record_witness :
  let rows := [[text "id"; text "email"]; [text "1"; text "a@b.com"]] in
  reader_of 44 (render_with [LF] 44 rows) = reader_of 44 (render 44 rows)
  ∧ transform 44 [text "email"] (render_with [LF] 44 rows)
    = transform 44 [text "email"] (render 44 rows).
Proof.
  apply (line_feed_ends_a_record 44 [text "email"]).
  - repeat split; discriminate.
  - by_compute.
Defined.

(** X14. The last record needs no line terminator: a dataset that ends
    without one gives the same output as with one. *)
Theorem last_record_needs_no_terminator d pii_fields rows row :
  delim_ok d → Forall (Forall fits) rows → Forall fits row → row ≠ [] →
  transform d pii_fields (render d rows ++ record_text d row)
  = transform d pii_fields (render d (rows ++ [row])).
Proof.
  intros Hd Hrows Hrow Hne. apply transform_same_records.
  rewrite reader_of_render_app by done.
  rewrite read_record_end by done.
  rewrite reader_of_render; [|done|apply Forall_app; by repeat constructor].
  unfold yields. by rewrite foldr_app.
Qed.

Lemma last_record_needs_no_terminator_witness :
  let rows := [[text "id"; text "email"]] in
  let row := [text "1"; text "a@b.com"] in
  transform 44 [text "email"] (render 44 rows ++ record_text 44 row)
  = transform 44 [text "email"] (render 44 (rows ++ [row])).
Proof.
  apply (last_record_needs_no_terminator 44 [text "email"]).
  - repeat split; discriminate.
  - by_compute.
  - by_compute.
  - done.
Defined.

(** X15. A dataset with bare carriage returns as line ends (old Mac files) is
    refused: when the header line ends with a CR that is followed by
    anything but CR or LF, the reader raises csv.Error (new-line character
    seen in unquoted field) and nothing is written. *)
Theorem bare_carriage_return_is_refused d pii_fields header c s :
  delim_ok d → Forall fits header → c ≠ CR → c ≠ LF →
  transform d pii_fields (record_text d header ++ CR :: c :: s)
  = Raise (CsvError NewlineInUnquotedField).
Proof.
  intros Hd Hfit Hcr Hlf. unfold transform, reader_of.
  by rewrite read_record_cr.
Qed.

Lemma bare_carriage_return_is_refused_witness :
  transform 44 [text "email"]
    (record_text 44 [text "id"; text "email"] ++ CR :: 49
     :: text ",a@b.com" ++ [CR])
  = Raise (CsvError NewlineInUnquotedField).
Proof.
  apply (bare_carriage_return_is_refused 44 [text "email"]
           [text "id"; text "email"] 49).
  - repeat split; discriminate.
  - by_compute.
  - discriminate.
  - discriminate.
Defined.

Section FieldLimit.

Variable d : Z.
Hypothesis d_ok : delim_ok d.

(** The fields of a record before a given one, each with the delimiter
    behind it. *)
Lemma read_fields_before gs r s :
  before_field r → Forall fits gs →
  ∃ r', before_field r'
        ∧ read d r (open_lines (flat_map (λ g, write_field d g ++ [d]) gs ++ s))
          = read d r' (open_lines s).
Proof.
  revert r. induction gs as [|g gs IH]; intros r Hr Hfit.
  - by exists r.
  - apply Forall_cons in Hfit as [Hg Hgs]. cbn [flat_map].
    rewrite <- !app_assoc. cbn [app].
    destruct (read_field d d_ok g r
                (d :: flat_map (λ g, write_field d g ++ [d]) gs ++ s) Hr Hg)
      as (r1 & Hr1 & _ & ->).
    rewrite (read_delimiter d d_ok _ _ _ _ Hr1).
    apply IH; [by split; [right|]|done].
Qed.

Lemma read_overflow_at r f s :
  before_field r →
  Forall (λ c, special d c = false) f → ¬ fits f →
  read d r (open_lines (f ++ s)) = Throw (CsvError FieldLargerThanFieldLimit).
Proof.
  intros [Hst Hcur] Hf Hover. destruct r as [st cur fs]. cbn in Hst, Hcur.
  subst cur.
  destruct f as [|c f]; [by destruct Hover; apply fits_nil|].
  pose proof Hf as [Hc Hf']%Forall_cons.
  pose proof (special_false d c Hc) as (Hd & Hq & Hcr & Hlf).
  cbn [app]. rewrite read_char by done.
  assert (parse_process_char d (Reader st [] fs) (Char c)
          = Ok (Reader IN_FIELD [c] fs)) as ->.
  { destruct Hst as [-> | ->]; unfold parse_process_char; cbn [state];
      unfold at_start_field, is_crlf, set_state; cbn [state field fields];
      replace ((c =? LF) || (c =? CR)) with false by lia;
      replace (c =? DQUOTE) with false by lia;
      replace (c =? d) with false by lia; done. }
  apply read_unquoted_overflow; [done| |done].
  unfold fits, field_limit. cbn. lia.
Qed.

End FieldLimit.

(** X16. The field size limit of the reader applies to the dataset: behind
    records the transformer accepts, a record with an unquoted field of more
    than 131072 characters makes the run fail with csv.Error (field larger
    than field limit), wherever in the record the field stands. *)
Theorem overlong_field_is_refused d pii_fields header rows written_rows gs f s :
  delim_ok d → Forall (Forall fits) (header :: rows) →
  written d pii_fields (render d (header :: rows)) = Ok (header, written_rows) →
  Forall fits gs → Forall (λ c, special d c = false) f → ¬ fits f →
  transform d pii_fields
    (render d (header :: rows)
     ++ flat_map (λ g, write_field d g ++ [d]) gs ++ f ++ s)
  = Raise (CsvError FieldLargerThanFieldLimit).
Proof.
  intros Hd Hfit Hw Hgs Hf Hover. rewrite transform_of_reader.
  unfold written in Hw. rewrite reader_of_render in Hw by done.
  cbn [yields foldr] in Hw.
  rewrite reader_of_render_app by done. cbn [foldr].
  rewrite transform_records_prefix.
  change (foldr Yield Stop rows) with (yields rows) in Hw.
  destruct (transform_records header pii_fields (yields rows)); [|done].
  cbn [bind].
  assert (read d fresh
            (readlines (flat_map (λ g, write_field d g ++ [d]) gs ++ f ++ s))
          = Throw (CsvError FieldLargerThanFieldLimit)) as ->; [|done].
  rewrite readlines_open.
  2:{ destruct f; [by destruct Hover; apply fits_nil|].
      by destruct (flat_map _ gs). }
  destruct (read_fields_before d Hd gs fresh (f ++ s))
    as (r' & Hr' & ->); [by split; [left|]|done|].
  by apply read_overflow_at.
Qed.

Lemma overlong_field_is_refused_witness :
  let header := [text "id"; text "note"] in
  let rows := [[text "1"; text "short"]] in
  transform 44 [text "note"]
    (render 44 (header :: rows)
     ++ flat_map (λ g, write_field 44 g ++ [44]) [text "2"]
     ++ replicate (Z.to_nat 131073) 120 ++ [CR; LF])
  = Raise (CsvError FieldLargerThanFieldLimit).
Proof.
  apply (overlong_field_is_refused 44 [text "note"]
           [text "id"; text "note"] [[text "1"; text "short"]]
           [[text "1"; text "c2hvcnQ="]]).
  - repeat split; discriminate.
  - by_compute.
  - vm_compute. reflexivity.
  - by_compute.
  - apply Forall_replicate. reflexivity.
  - unfold fits, field_limit. rewrite length_replicate. lia.
Defined.

Lemma dict_to_list_same h row row' :
  restkey row' = None → dom (cells row') ⊆ list_to_set h →
  (∀ k, k ∈ h → cells row' !! k = cells row !! k) →
  dict_to_list h row'
  = Ok ((λ k, cell_text (default (Some []) (cells row !! k))) <$> h).
Proof.
  intros Hrest Hdom Hsame. rewrite dict_to_list_ok by done. f_equal.
  apply list_fmap_ext. intros i k Hk%list_elem_of_lookup_2.
  by rewrite Hsame.
Qed.

Lemma row_without_values_to_mask h pii r :
  NoDup h → r ≠ [] → length r = length h →
  (∀ i k v, h !! i = Some k → r !! i = Some v → k ∈ pii → v = []) →
  ∃ row, mask_row pii (to_dict h r) = Ok row ∧ dict_to_list h row = Ok r.
Proof.
  intros Hnd Hr Hlen Hempty.
  assert (∀ k, k ∈ h → ∃ i v, h !! i = Some k ∧ r !! i = Some v
            ∧ cells (to_dict h r) !! k = Some (Some v)) as Hcell.
  { intros k (i & Hi)%list_elem_of_lookup_1.
    destruct (lookup_lt_is_Some_2 r i) as [v Hv].
    { rewrite Hlen. by eapply lookup_lt_Some. }
    exists i, v. split; [done|]. split; [done|]. by eapply to_dict_lookup. }
  destruct (mask_row_ok_fields pii (to_dict h r)) as [row Hrow].
  { intros k v Hk Hkv.
    assert (k ∈ h) as Hkh.
    { pose proof (to_dict_dom h r) as Hdom.
      assert (k ∈ dom (cells (to_dict h r))) as Hin
        by (apply elem_of_dom; by eexists).
      apply Hdom in Hin. by apply elem_of_list_to_set in Hin. }
    destruct (Hcell k Hkh) as (i & v' & Hi & Hv' & Hc).
    rewrite Hc in Hkv. injection Hkv as <-.
    rewrite (Hempty i k v' Hi Hv' Hk). constructor. }
  exists row. split; [done|].
  rewrite (dict_to_list_same h (to_dict h r)).
  - f_equal. apply list_eq. intros i. rewrite list_lookup_fmap.
    destruct (h !! i) as [k|] eqn:Hi; cbn.
    + destruct (lookup_lt_is_Some_2 r i) as [v Hv].
      { rewrite Hlen. by eapply lookup_lt_Some. }
      rewrite (to_dict_lookup _ _ _ _ _ Hnd Hi Hv). by rewrite Hv.
    + symmetry. apply lookup_ge_None. rewrite Hlen.
      by apply lookup_ge_None.
  - rewrite (mask_row_restkey _ _ _ Hrow). unfold to_dict.
    by rewrite bool_decide_false by lia.
  - rewrite (mask_row_dom _ _ _ Hrow). apply to_dict_dom.
  - intros k Hk. apply (mask_row_pass _ _ _ _ Hrow).
    destruct (decide (k ∈ pii)) as [Hin|]; [|by left].
    destruct (Hcell k Hk) as (i & v & Hi & Hv & Hc).
    right. left. by rewrite Hc, (Hempty i k v Hi Hv Hin).
Qed.

Lemma records_without_values_to_mask h pii rows :
  NoDup h → h ≠ [] → Forall (λ r, length r = length h) rows →
  (∀ r i k v, r ∈ rows → h !! i = Some k → r !! i = Some v →
              k ∈ pii → v = []) →
  transform_records h pii (yields rows) = Ok rows.
Proof.
  intros Hnd Hh. induction rows as [|r rows IH]; intros Hlen Hempty; [done|].
  apply Forall_cons in Hlen as [Hr Hlen]. cbn [yields foldr].
  change (foldr Yield Stop rows) with (yields rows).
  destruct (row_without_values_to_mask h pii r) as (row & Hrow & Hvalues);
    [done| |done| |].
  { intros ->. destruct h; [done|]. done. }
  { intros i k v. apply Hempty. by left. }
  destruct r as [|f r]; [by destruct h|].
  cbn [transform_records]. rewrite Hrow. cbn [bind]. rewrite Hvalues.
  cbn [bind]. rewrite IH; [done|done|].
  intros r' i k v Hr'. apply Hempty. by right.
Qed.

(** X17. With nothing to mask, nothing changes: a dataset as the writer
    writes it (the delimiter, minimal quoting, CR LF), with a header of
    distinct names and rows as long as the header, in which every value of a
    listed column is empty, is transformed into itself. *)
Theorem nothing_to_mask_nothing_changed d pii_fields header rows :
  delim_ok d → Forall (Forall fits) (header :: rows) →
  NoDup header → header ≠ [] →
  Forall (λ r, length r = length header) rows →
  (∀ r i k v, r ∈ rows → header !! i = Some k → r !! i = Some v →
              k ∈ pii_fields → v = []) →
  transform d pii_fields (render d (header :: rows))
  = Ok (render d (header :: rows)).
Proof.
  intros Hd Hfit Hnd Hh Hlen Hempty. rewrite transform_of_reader.
  rewrite reader_of_render by done. cbn [yields foldr].
  change (foldr Yield Stop rows) with (yields rows).
  by rewrite records_without_values_to_mask.
Qed.

Lemma nothing_to_mask_nothing_changed_witness :
  let header := [text "id"; text "email"] in
  let rows := [[text "1"; []]; [text "x,y"; []]] in
  transform 44 [text "email"; text "ssn"] (render 44 (header :: rows))
  = Ok (render 44 (header :: rows)).
Proof.
  apply (nothing_to_mask_nothing_changed 44 [text "email"; text "ssn"]).
  - repeat split; discriminate.
  - by_compute.
  - by_compute.
  - done.
  - by_compute.
  - intros r i k v Hr Hk Hv Hin.
    assert (r !! 1%nat = Some []) as Hempty.
    { repeat (apply elem_of_cons in Hr as [->|Hr]; [done|]).
      by apply elem_of_nil in Hr. }
    destruct i as [|[|i]]; cbn in Hk; simplify_eq.
    + exfalso. revert Hin. by_compute.
    + done.
Defined.

(** X18. The output reads back: read with the same delimiter, the output
    gives exactly the header and the rows that were handed to the writer,
    whatever characters the values hold (delimiters, quotes, line ends), as
    long as the delimiter is none of the double quote, CR and LF and the
    values written are within the field size limit. *)
Theorem output_reads_back d pii_fields raw_csv header rows :
  delim_ok d → written d pii_fields raw_csv = Ok (header, rows) →
  Forall (Forall fits) rows →
  ∃ out, transform d pii_fields raw_csv = Ok out
         ∧ reader_of d out = yields (header :: rows).
Proof.
  intros Hd Hw Hfit. exists (render d (header :: rows)).
  rewrite transform_written, Hw. split; [done|].
  apply reader_of_render; [done|]. constructor; [|done].
  by eapply written_header_fits.
Qed.

Lemma output_reads_back_witness :
  let raw := text "id,note" ++ [LF; 49; 44; DQUOTE] ++ text "a,b" ++ [LF]
             ++ text "c" ++ [DQUOTE; LF] in
  let header := [text "id"; text "note"] in
  let rows := [[text "MQ=="; text "a,b" ++ [LF] ++ text "c"]] in
  ∃ out, transform 44 [text "id"] raw = Ok out
         ∧ reader_of 44 out = yields (header :: rows).
Proof.
  apply (output_reads_back 44 [text "id"]).
  - repeat split; discriminate.
  - vm_compute. reflexivity.
  - by_compute.
Defined.

(** ** The detected delimiter *)

Lemma splitlines_first pre c rest :
  Forall (λ x, Py.is_linebreak x = false) pre → Py.is_linebreak c = true →
  head (Py.splitlines (pre ++ c :: rest)) = Some pre.
Proof.
  intros Hpre Hc. induction Hpre as [|x pre Hx _ IH].
  - cbn [app Py.splitlines]. rewrite Hc. by repeat case_match.
  - cbn [app Py.splitlines]. rewrite Hx.
    destruct (Py.splitlines (pre ++ c :: rest)); cbn in *; congruence.
Qed.

Lemma splitlines_one_line s :
  s ≠ [] → Forall (λ x, Py.is_linebreak x = false) s →
  Py.splitlines s = [s].
Proof.
  intros Hs Hall. induction Hall as [|x s Hx Hall IH]; [done|].
  cbn [Py.splitlines]. rewrite Hx. destruct s as [|y s]; [done|].
  by rewrite IH.
Qed.

Lemma splitlines_head s l ls :
  Py.splitlines s = l :: ls →
  Forall (λ x, Py.is_linebreak x = false ∧ x ∈ s) l.
Proof.
  revert l ls. induction s as [|c s IH]; intros l ls; [done|].
  cbn [Py.splitlines]. destruct (Py.is_linebreak c) eqn:Hc.
  - repeat case_match; intros [= <- <-]; constructor.
  - destruct (Py.splitlines s) as [|l' ls'] eqn:Hs.
    + intros [= <- <-]. constructor; [split; [done|by left]|constructor].
    + intros [= <- <-]. constructor; [split; [done|by left]|].
      eapply Forall_impl; [by eapply IH|]. intros x [? ?]. split; [done|].
      by right.
Qed.

Section Members.

Variable isalnum : Z → bool.

Lemma lazy_any_some {A} (k : str → option (A * nat)) s a n :
  Sniffer.lazy_any k s = Some (a, n) →
  ∃ s' m, s' `suffix_of` s ∧ k s' = Some (a, m).
Proof.
  revert n. induction s as [|c s IH]; intros n; cbn [Sniffer.lazy_any].
  - destruct (k []) as [[a' m]|] eqn:Hk; [|done]. intros [= -> ->].
    by exists [], n.
  - destruct (k (c :: s)) as [[a' m]|] eqn:Hk.
    + intros [= -> ->]. by exists (c :: s), n.
    + intros ([a' m] & H & [= -> ->])%fmap_Some.
      destruct (IH _ H) as (s' & m' & Hs' & Hk').
      exists s', m'. split; [by apply suffix_cons_r|done].
Qed.

Lemma space_quote_some {A} (k : bool → Z → str → option (A * nat)) s a n :
  Sniffer.space_quote k s = Some (a, n) →
  ∃ sp q s' m, k sp q s' = Some (a, m).
Proof.
  unfold Sniffer.space_quote, Sniffer.or_else.
  destruct s as [|x [|y s]].
  - done.
  - destruct (Sniffer.is_quote x); [|done].
    intros ([a' m] & Hk & ?)%fmap_Some. simplify_eq/=. eauto.
  - destruct ((x =? SPACE) && Sniffer.is_quote y).
    + destruct (k true y s) as [[a' m]|] eqn:Hk; cbn [fmap option_fmap option_map].
      * intros ?. simplify_eq/=. eauto.
      * destruct (Sniffer.is_quote x); [|done].
        intros ([a' m] & Hk' & ?)%fmap_Some. simplify_eq/=. eauto.
    + destruct (Sniffer.is_quote x); [|done].
      intros ([a' m] & Hk' & ?)%fmap_Some. simplify_eq/=. eauto.
Qed.

(** A match of the first or the third pattern begins with its delimiter. *)
Lemma pattern1_delim s g n :
  Sniffer.pattern1 isalnum s = Some (g, n) →
  ∃ c, head s = Some c ∧ Sniffer.delim g = Some c.
Proof.
  unfold Sniffer.pattern1. destruct s as [|c s]; [done|].
  destruct (Sniffer.is_delim isalnum c); [|done].
  intros ([g' m] & H & [= -> ->])%fmap_Some.
  apply space_quote_some in H as (sp & q & s' & m' & H).
  apply fmap_Some in H as ([[] m''] & _ & [= -> ->]). by exists c.
Qed.

Lemma pattern3_delim s g n :
  Sniffer.pattern3 isalnum s = Some (g, n) →
  ∃ c, head s = Some c ∧ Sniffer.delim g = Some c.
Proof.
  unfold Sniffer.pattern3. destruct s as [|c s]; [done|].
  destruct (Sniffer.is_delim isalnum c); [|done].
  intros ([g' m] & H & [= -> ->])%fmap_Some.
  apply space_quote_some in H as (sp & q & s' & m' & H).
  apply fmap_Some in H as ([[] m''] & _ & [= -> ->]). by exists c.
Qed.

(** The delimiter of a match of the second pattern stands behind a closing
    quote. *)
Lemma pattern2_delim s g n c :
  Sniffer.pattern2 isalnum s = Some (g, n) → Sniffer.delim g = Some c →
  c ∈ s.
Proof.
  unfold Sniffer.pattern2. destruct s as [|q s]; [done|].
  destruct (Sniffer.is_quote q); [|done].
  intros ([[d' sp] m] & H & [= -> ->])%fmap_Some. cbn. intros [= ->].
  apply lazy_any_some in H as (s' & m' & [pre ->] & H).
  unfold Sniffer.close_new_delim in H.
  destruct s' as [|q' [|d'' s'']]; try done.
  right. apply elem_of_app. right. right.
  repeat case_match; simplify_eq; by left.
Qed.

Lemma pattern4_delim s g n :
  Sniffer.pattern4 s = Some (g, n) → Sniffer.delim g = None.
Proof.
  unfold Sniffer.pattern4. destruct s as [|q s]; [done|].
  destruct (Sniffer.is_quote q); [|done].
  by intros ([[] m] & H & [= -> ->])%fmap_Some.
Qed.

Lemma findall_delim (m : str → option (Sniffer.groups * nat)) skip s g c :
  (∀ t g n c, m t = Some (g, n) → Sniffer.delim g = Some c → c ∈ t) →
  g ∈ Sniffer.findall m skip s → Sniffer.delim g = Some c → c ∈ s.
Proof.
  intros Hm. revert skip. induction s as [|x s IH]; intros skip.
  - by intros ?%elem_of_nil.
  - cbn [Sniffer.findall]. destruct skip as [|k].
    + destruct (m (x :: s)) as [[g' n]|] eqn:Hg.
      * intros [->|Hin]%elem_of_cons Hd; [by eapply Hm|].
        right. by eapply IH.
      * intros Hin Hd. right. by eapply IH.
    + intros Hin Hd. right. by eapply IH.
Qed.

Lemma matches_delim data g c :
  g ∈ Sniffer.matches isalnum data → Sniffer.delim g = Some c → c ∈ data.
Proof.
  assert (∀ t g n c, Sniffer.pattern1 isalnum t = Some (g, n) →
            Sniffer.delim g = Some c → c ∈ t) as H1.
  { intros t g' n c' (x & Hx & Hd)%pattern1_delim Hc.
    destruct t; simplify_eq/=. by left. }
  assert (∀ t g n c, Sniffer.pattern3 isalnum t = Some (g, n) →
            Sniffer.delim g = Some c → c ∈ t) as H3.
  { intros t g' n c' (x & Hx & Hd)%pattern3_delim Hc.
    destruct t; simplify_eq/=. by left. }
  unfold Sniffer.matches, Sniffer.findall_at_start.
  destruct (Sniffer.findall (Sniffer.pattern1 isalnum) 0 data) eqn:E1.
  2:{ rewrite <- E1. intros Hg Hd. by eapply (findall_delim _ _ _ _ _ H1). }
  destruct (Sniffer.pattern2 isalnum data) as [[g2 n2]|] eqn:E2.
  { intros ->%list_elem_of_singleton Hd. by eapply pattern2_delim. }
  destruct (Sniffer.findall (Sniffer.pattern3 isalnum) 0 data) eqn:E3.
  2:{ rewrite <- E3. intros Hg Hd. by eapply (findall_delim _ _ _ _ _ H3). }
  destruct (Sniffer.pattern4 data) as [[g4 n4]|] eqn:E4.
  - intros ->%list_elem_of_singleton Hd.
    apply pattern4_delim in E4. congruence.
  - by intros ?%elem_of_nil.
Qed.

Lemma bump_keys key delims k :
  k ∈ (Sniffer.bump key delims).*1 → k = key ∨ k ∈ delims.*1.
Proof.
  induction delims as [|[k' n] delims IH]; cbn [Sniffer.bump].
  - intros ->%list_elem_of_singleton. by left.
  - destruct (k' =? key) eqn:E; cbn [fmap list_fmap fst].
    + rewrite !elem_of_cons. naive_solver.
    + rewrite !elem_of_cons. intros [->|H]; [right; by left|].
      destruct (IH H); [by left|right; by right].
Qed.

Lemma max_key_elem best delims :
  Sniffer.max_key best delims ∈ (best :: delims).*1.
Proof.
  revert best. induction delims as [|[k n] delims IH]; intros best.
  - cbn. by left.
  - cbn [Sniffer.max_key]. destruct (best.2 <? n)%nat.
    + specialize (IH (k, n)). cbn in *. by right.
    + specialize (IH best). cbn in *.
      apply elem_of_cons in IH as [->|IH]; [by left|right; by right].
Qed.

Lemma guess_quote_and_delimiter_elem data c :
  Sniffer.guess_quote_and_delimiter isalnum data = Some c → c ∈ data.
Proof.
  unfold Sniffer.guess_quote_and_delimiter.
  assert (∀ gs acc k,
            (∀ g, g ∈ gs → g ∈ Sniffer.matches isalnum data) →
            (∀ k, k ∈ acc.*1 → k ∈ data) →
            k ∈ (foldl (λ acc g, match Sniffer.delim g with
                                 | Some k => Sniffer.bump k acc
                                 | None => acc
                                 end) acc gs).*1 → k ∈ data) as Hfold.
  { induction gs as [|g gs IH]; intros acc k Hgs Hacc; cbn [foldl]; [auto|].
    apply IH; [intros g' Hg'; apply Hgs; by right|].
    intros k'. destruct (Sniffer.delim g) as [kg|] eqn:Hg; [|auto].
    intros [->|H]%bump_keys; [|auto].
    eapply matches_delim; [apply Hgs; by left|done]. }
  destruct (foldl _ _ _) as [|first rest] eqn:Hdelims; [done|].
  intros [= <-]. apply (Hfold (Sniffer.matches isalnum data) []); [done| |].
  - by intros k ?%elem_of_nil.
  - rewrite Hdelims. apply max_key_elem.
Qed.

End Members.

Lemma dominant_elem line best cs :
  Sniffer.dominant line best cs ∈ best :: cs.
Proof.
  revert best. induction cs as [|c cs IH]; intros best; cbn; [by left|].
  case_match.
  - right. apply IH.
  - specialize (IH best). apply elem_of_cons in IH as [->|IH];
      [by left|right; by right].
Qed.

Lemma guess_delimiter_elem line c :
  Sniffer.guess_delimiter line = Some c → c ∈ line.
Proof.
  unfold Sniffer.guess_delimiter.
  destruct (filter _ Sniffer.ascii) as [|x cs] eqn:Hf; [done|].
  assert (∀ y, y ∈ x :: cs → y ∈ line) as Hin.
  { intros y Hy. rewrite <- Hf in Hy.
    apply list_elem_of_filter in Hy as [Hy _]. by apply count_pos. }
  destruct cs as [|x' cs].
  - intros [= <-]. apply Hin. by left.
  - destruct (filter _ Sniffer.preferred) as [|p ps] eqn:Hp.
    + intros [= <-]. apply Hin. apply (dominant_elem line x (x' :: cs)).
    + intros [= <-].
      assert (p ∈ p :: ps) as Hpin by by left.
      rewrite <- Hp in Hpin. apply list_elem_of_filter in Hpin as [Hpin _].
      by apply Hin.
Qed.

Lemma sniff_elem isalnum sample c :
  Sniffer.sniff isalnum sample = Ok c → c ∈ sample.
Proof.
  unfold Sniffer.sniff.
  destruct (Sniffer.guess_quote_and_delimiter isalnum sample) as [c'|] eqn:Hq.
  - intros [= <-]. by eapply guess_quote_and_delimiter_elem.
  - destruct (Sniffer.guess_delimiter sample) as [c'|] eqn:Hg; [|done].
    intros [= <-]. by apply guess_delimiter_elem.
Qed.

Lemma detect_delimiter_elem isalnum raw_csv d :
  detect_delimiter isalnum raw_csv = Ok d →
  Py.is_linebreak d = false ∧ d ∈ raw_csv.
Proof.
  unfold detect_delimiter.
  destruct (Py.splitlines raw_csv) as [|l ls] eqn:Hl; [done|].
  intros Hd%sniff_elem. apply splitlines_head in Hl.
  rewrite Forall_forall in Hl. by apply Hl.
Qed.

(** X19. The sample handed to the sniffer is the text of the dataset before
    its first line boundary, the boundaries being those of [str.splitlines]
    (among them the vertical tab, the form feed and the Unicode line and
    paragraph separators, at which the reader does not end a line). *)
Theorem first_line_is_the_sample isalnum line :
  Forall (λ c, Py.is_linebreak c = false) line →
  (∀ c rest, Py.is_linebreak c = true →
     detect_delimiter isalnum (line ++ c :: rest) = Sniffer.sniff isalnum line)
  ∧ (line ≠ [] → detect_delimiter isalnum line = Sniffer.sniff isalnum line).
Proof.
  intros Hline. split.
  - intros c rest Hc. unfold detect_delimiter.
    pose proof (splitlines_first line c rest Hline Hc) as Hhead.
    destruct (Py.splitlines _); cbn in Hhead; by simplify_eq.
  - intros Hne. unfold detect_delimiter.
    by rewrite splitlines_one_line.
Qed.

Lemma first_line_is_the_sample_witness :
  (∀ c rest, Py.is_linebreak c = true →
     detect_delimiter (λ _, false) (text "a;b" ++ c :: rest)
     = Sniffer.sniff (λ _, false) (text "a;b"))
  ∧ (text "a;b" ≠ [] →
     detect_delimiter (λ _, false) (text "a;b")
     = Sniffer.sniff (λ _, false) (text "a;b")).
Proof.
  apply (first_line_is_the_sample (λ _, false) (text "a;b")). by_compute.
Defined.

(** X20. The detected delimiter is a character of the first line of the
    dataset; it is no line boundary, so neither CR nor LF. *)
Theorem detected_delimiter_occurs isalnum raw_csv d :
  detect_delimiter isalnum raw_csv = Ok d →
  (∃ first_line,
     head (Py.splitlines raw_csv) = Some first_line ∧ d ∈ first_line)
  ∧ d ∈ raw_csv ∧ Py.is_linebreak d = false ∧ d ≠ CR ∧ d ≠ LF.
Proof.
  intros Hd. pose proof (detect_delimiter_elem _ _ _ Hd) as [Hlb Hin].
  split; [|split; [done|split; [done|]]].
  - revert Hd. unfold detect_delimiter.
    destruct (Py.splitlines raw_csv) as [|l ls]; [done|].
    intros Hd%sniff_elem. by exists l.
  - split; intros ->; done.
Qed.

Lemma detected_delimiter_occurs_witness :
  let raw := text "id;name" ++ [LF] ++ text "1;x" in
  (∃ first_line,
     head (Py.splitlines raw) = Some first_line ∧ 59 ∈ first_line)
  ∧ 59 ∈ raw ∧ Py.is_linebreak 59 = false ∧ 59 ≠ CR ∧ 59 ≠ LF.
Proof.
  apply (detected_delimiter_occurs (λ _, false)). vm_compute. reflexivity.
Defined.

Lemma filter_head {A} (P : A → Prop) `{!∀ x, Decision (P x)} l i p :
  l !! i = Some p → P p → (∀ q, q ∈ take i l → ¬ P q) →
  head (filter P l) = Some p.
Proof.
  revert i. induction l as [|x l IH]; intros i Hi Hp Hq; [done|].
  destruct i as [|i]; cbn in Hi, Hq.
  - injection Hi as ->. by rewrite filter_cons_True.
  - rewrite filter_cons_False.
    + eapply IH; [done..|]. intros q Hin. apply Hq. by right.
    + apply Hq. by left.
Qed.

Lemma sniff_preferred isalnum line i p :
  Forall (λ c, Sniffer.is_quote c = false) line →
  Sniffer.preferred !! i = Some p → p ∈ line →
  (∀ q, q ∈ take i Sniffer.preferred → q ∉ line) →
  Sniffer.sniff isalnum line = Ok p.
Proof.
  intros Hq Hi Hp Hfirst. unfold Sniffer.sniff.
  unfold Sniffer.guess_quote_and_delimiter. rewrite matches_none by done.
  cbn [foldl]. unfold Sniffer.guess_delimiter.
  assert (is_7bit p) as H7.
  { apply list_elem_of_lookup_2 in Hi. unfold Sniffer.preferred in Hi.
    unfold is_7bit.
    repeat (apply elem_of_cons in Hi as [->|Hi]; [lia|]).
    by apply elem_of_nil in Hi. }
  assert (p ∈ filter (λ c, (0 < Sniffer.count c line)%nat) Sniffer.ascii)
    as Hin by (apply list_elem_of_filter; by rewrite count_pos, elem_of_ascii).
  destruct (filter _ Sniffer.ascii) as [|x cs] eqn:Hf;
    [by apply elem_of_nil in Hin|].
  destruct cs as [|x' cs].
  { apply list_elem_of_singleton in Hin. by subst. }
  assert (head (filter (λ q, q ∈ x :: x' :: cs) Sniffer.preferred) = Some p)
    as Hhead.
  { eapply filter_head; [done..|]. intros q Hq' Hqin.
    apply (Hfirst q Hq'). rewrite <- Hf in Hqin.
    apply list_elem_of_filter in Hqin as [Hqin _]. by apply count_pos. }
  destruct (filter _ Sniffer.preferred) as [|p' ps]; [done|].
  cbn in Hhead. by injection Hhead as ->.
Qed.

(** X21. Where the first line holds no quote character, the delimiter is the
    first of comma, tab, semicolon, space and colon that occurs in the
    line; a comma anywhere in the header line makes the dataset
    comma-separated. *)
Theorem preferred_delimiter isalnum raw_csv line i p :
  head (Py.splitlines raw_csv) = Some line →
  Forall (λ c, Sniffer.is_quote c = false) line →
  Sniffer.preferred !! i = Some p → p ∈ line →
  (∀ q, q ∈ take i Sniffer.preferred → q ∉ line) →
  detect_delimiter isalnum raw_csv = Ok p.
Proof.
  intros Hhead Hq Hi Hp Hfirst. unfold detect_delimiter.
  destruct (Py.splitlines raw_csv) as [|l ls]; cbn in Hhead; simplify_eq.
  by eapply sniff_preferred.
Qed.

Lemma preferred_delimiter_witness :
  detect_delimiter (λ _, false)
    (text "name" ++ [9] ++ text "city;zip" ++ [LF] ++ text "x" ++ [9]
     ++ text "y;1" ++ [LF])
  = Ok 9.
Proof.
  apply (preferred_delimiter (λ _, false) _ (text "name" ++ [9] ++ text "city;zip")
           1 9).
  - vm_compute. reflexivity.
  - by_compute.
  - reflexivity.
  - by_compute.
  - intros q Hq. apply list_elem_of_singleton in Hq as ->. by_compute.
Defined.

(** ** The most frequent character *)

Lemma dominant_max line best cs x :
  x ∈ best :: cs →
  (Sniffer.count x line ≤ Sniffer.count (Sniffer.dominant line best cs) line)%nat.
Proof.
  revert best x. induction cs as [|c cs IH]; intros best x Hx.
  - apply list_elem_of_singleton in Hx as ->. done.
  - cbn [Sniffer.dominant].
    destruct (Sniffer.count best line <=? Sniffer.count c line)%nat eqn:Hle.
    + apply Nat.leb_le in Hle.
      apply elem_of_cons in Hx as [->|Hx]; [|by apply IH].
      etrans; [done|]. apply IH. by left.
    + apply Nat.leb_gt in Hle.
      apply elem_of_cons in Hx as [->|[->|Hx]%elem_of_cons].
      * apply IH. by left.
      * etrans; [apply Nat.lt_le_incl, Hle|]. apply IH. by left.
      * apply IH. by right.
Qed.

(** Among the candidates of the highest count the last one is taken. *)
Lemma dominant_last line best cs x :
  StronglySorted Z.lt (best :: cs) → x ∈ best :: cs →
  Sniffer.count x line = Sniffer.count (Sniffer.dominant line best cs) line →
  x <= Sniffer.dominant line best cs.
Proof.
  revert best x. induction cs as [|c cs IH]; intros best x Hsorted Hx Hcount.
  - apply list_elem_of_singleton in Hx as ->. done.
  - cbn [Sniffer.dominant] in *.
    apply StronglySorted_inv in Hsorted as [Hsorted Hbest].
    pose proof Hsorted as [Hcs Hc]%StronglySorted_inv.
    apply Forall_cons in Hbest as [Hbc Hbest].
    destruct (Sniffer.count best line <=? Sniffer.count c line)%nat eqn:Hle.
    + apply elem_of_cons in Hx as [->|Hx]; [|by apply IH].
      pose proof (dominant_elem line c cs) as Hd.
      apply elem_of_cons in Hd as [->|Hd]; [lia|].
      rewrite Forall_forall in Hc. specialize (Hc _ Hd). lia.
    + apply Nat.leb_gt in Hle.
      assert (StronglySorted Z.lt (best :: cs)) as Hsorted'.
      { by constructor. }
      apply elem_of_cons in Hx as [->|[->|Hx]%elem_of_cons].
      * apply IH; [done|by left|done].
      * pose proof (dominant_max line best cs best) as Hmax.
        specialize (Hmax ltac:(by left)). lia.
      * apply IH; [done|by right|done].
Qed.

Lemma ascii_sorted : StronglySorted Z.lt Sniffer.ascii.
Proof.
  unfold Sniffer.ascii. generalize 0%nat as a, 127%nat as n.
  intros a n. revert a. induction n as [|n IH]; intros a; cbn; constructor.
  - apply IH.
  - apply Forall_fmap, Forall_forall. intros y Hy%elem_of_seq. cbn. lia.
Qed.

Lemma filter_sorted (P : Z → Prop) `{!∀ x, Decision (P x)} l :
  StronglySorted Z.lt l → StronglySorted Z.lt (filter P l).
Proof.
  induction 1 as [|x l _ IH Hx]; [constructor|].
  rewrite filter_cons. case_decide; [|done]. constructor; [done|].
  apply Forall_forall. intros y [_ Hy]%list_elem_of_filter.
  rewrite Forall_forall in Hx. by apply Hx.
Qed.

(** X22. Where the first line holds no quote character and none of comma, tab,
    semicolon, space and colon, the delimiter is the most frequent of its
    characters below U+007F, the one with the highest code point among
    equals: a pipe-separated header line gets the pipe only if no letter or
    digit occurs more often in it. *)
Theorem most_frequent_character_wins isalnum raw_csv line d :
  head (Py.splitlines raw_csv) = Some line →
  Forall (λ c, Sniffer.is_quote c = false) line →
  (∀ q, q ∈ Sniffer.preferred → q ∉ line) →
  detect_delimiter isalnum raw_csv = Ok d →
  is_7bit d
  ∧ ∀ c, is_7bit c →
      (Sniffer.count c line ≤ Sniffer.count d line)%nat
      ∧ (Sniffer.count c line = Sniffer.count d line → c <= d).
Proof.
  intros Hhead Hq Hpref. unfold detect_delimiter.
  destruct (Py.splitlines raw_csv) as [|l ls]; cbn in Hhead; simplify_eq.
  unfold Sniffer.sniff, Sniffer.guess_quote_and_delimiter.
  rewrite matches_none by done. cbn [foldl]. unfold Sniffer.guess_delimiter.
  pose proof (filter_sorted (λ c, (0 < Sniffer.count c line)%nat) _ ascii_sorted)
    as Hsorted.
  assert (∀ c, c ∈ filter (λ c, (0 < Sniffer.count c line)%nat) Sniffer.ascii
               ↔ is_7bit c ∧ (0 < Sniffer.count c line)%nat) as Hcand.
  { intros c. rewrite list_elem_of_filter, elem_of_ascii. tauto. }
  destruct (filter _ Sniffer.ascii) as [|x cs] eqn:Hf; [done|].
  assert (∀ c, is_7bit c → c ∉ x :: cs → Sniffer.count c line = 0%nat)
    as Hzero.
  { intros c H7 Hnot. destruct (Sniffer.count c line) eqn:Hc; [done|].
    destruct Hnot. apply Hcand. split; [done|lia]. }
  assert (filter (λ p, p ∈ x :: cs) Sniffer.preferred = []) as Hnone.
  { destruct (filter (λ p, p ∈ x :: cs) Sniffer.preferred) as [|p ps] eqn:Hp;
      [done|].
    assert (p ∈ p :: ps) as Hin by by left.
    rewrite <- Hp in Hin. apply list_elem_of_filter in Hin as [Hin Hpin].
    apply Hcand in Hin as [_ Hin]. apply count_pos in Hin.
    by destruct (Hpref p). }
  assert (∀ d', d' ∈ x :: cs →
            (∀ c, c ∈ x :: cs →
               (Sniffer.count c line ≤ Sniffer.count d' line)%nat
               ∧ (Sniffer.count c line = Sniffer.count d' line → c <= d')) →
            is_7bit d'
            ∧ ∀ c, is_7bit c →
                (Sniffer.count c line ≤ Sniffer.count d' line)%nat
                ∧ (Sniffer.count c line = Sniffer.count d' line → c <= d'))
    as Hall.
  { intros d' Hd' Hbest. pose proof (proj1 (Hcand d') Hd') as [H7 Hpos].
    split; [done|]. intros c Hc.
    destruct (decide (c ∈ x :: cs)) as [Hin|Hnot]; [by apply Hbest|].
    rewrite (Hzero c Hc Hnot). split; lia. }
  destruct cs as [|x' cs].
  - intros [= <-]. apply Hall; [by left|].
    intros c ->%list_elem_of_singleton. done.
  - rewrite Hnone. intros [= <-].
    apply (Hall (Sniffer.dominant line x (x' :: cs)));
      [apply (dominant_elem line x (x' :: cs))|].
    intros c Hc. split.
    + by apply (dominant_max line x (x' :: cs)).
    + by apply (dominant_last line x (x' :: cs)).
Qed.

Lemma most_frequent_character_wins_witness :
  is_7bit 122
  ∧ ∀ c, is_7bit c →
      (Sniffer.count c (text "zzz|a") ≤ Sniffer.count 122 (text "zzz|a"))%nat
      ∧ (Sniffer.count c (text "zzz|a") = Sniffer.count 122 (text "zzz|a")
         → c <= 122).
Proof.
  apply (most_frequent_character_wins (λ _, false)
           (text "zzz|a" ++ [LF] ++ text "1|2" ++ [LF])).
  - vm_compute. reflexivity.
  - by_compute.
  - intros q Hq. revert q Hq. apply Forall_forall. by_compute.
  - vm_compute. reflexivity.
Defined.

(** ** UTF-8 *)

Lemma utf8_encode_cons c s bs bs' :
  Utf8.encode_char c = Some bs → Utf8.encode s = Some bs' →
  Utf8.encode (c :: s) = Some (bs ++ bs').
Proof. intros Hc Hs. cbn [Utf8.encode]. by rewrite Hc, Hs. Qed.

Lemma utf8_encode_char_2 b0 b1 :
  0xC2 <= b0 < 0xE0 → Utf8.is_cont b1 = true →
  Utf8.encode_char ((b0 - 0xC0) * 64 + (b1 - 0x80)) = Some [b0; b1].
Proof.
  unfold Utf8.is_cont, Utf8.encode_char, Utf8.is_scalar, Utf8.is_surrogate.
  intros H0 H1.
  repeat case_match; try lia; do 2 f_equal; [lia|f_equal; lia].
Qed.

Lemma utf8_encode_char_3 b0 b1 b2 :
  let c := (b0 - 0xE0) * 4096 + (b1 - 0x80) * 64 + (b2 - 0x80) in
  0xE0 <= b0 < 0xF0 → Utf8.is_cont b1 = true → Utf8.is_cont b2 = true →
  0x800 <= c → Utf8.is_surrogate c = false →
  Utf8.encode_char c = Some [b0; b1; b2].
Proof.
  intros c H0 H1 H2 Hc Hs. subst c.
  unfold Utf8.is_cont, Utf8.encode_char, Utf8.is_scalar, Utf8.is_surrogate in *.
  repeat case_match; try lia; do 2 f_equal; [lia|f_equal; [lia|f_equal; lia]].
Qed.

Lemma utf8_encode_char_4 b0 b1 b2 b3 :
  let c := (b0 - 0xF0) * 262144 + (b1 - 0x80) * 4096
           + (b2 - 0x80) * 64 + (b3 - 0x80) in
  0xF0 <= b0 < 0xF5 → Utf8.is_cont b1 = true → Utf8.is_cont b2 = true →
  Utf8.is_cont b3 = true → 0x10000 <= c < 0x110000 →
  Utf8.encode_char c = Some [b0; b1; b2; b3].
Proof.
  intros c H0 H1 H2 H3 Hc. subst c.
  unfold Utf8.is_cont, Utf8.encode_char, Utf8.is_scalar, Utf8.is_surrogate in *.
  repeat case_match; try lia; do 2 f_equal;
    [lia|f_equal; [lia|f_equal; [lia|f_equal; lia]]].
Qed.

Lemma utf8_decode_encode bs s :
  Utf8.decode bs = Some s → Utf8.encode s = Some bs.
Proof.
  remember (length bs) as n eqn:Hn. revert bs s Hn.
  induction n as [n IH] using lt_wf_ind. intros bs s Hn.
  destruct bs as [|b0 r0]; [by intros [= <-]|].
  cbn [Utf8.decode]. cbn [length] in Hn.
  destruct ((0 <=? b0) && (b0 <? 0x80)) eqn:E1.
  { intros (s' & Hs' & ->)%fmap_Some.
    apply (utf8_encode_cons b0 s' [b0] r0).
    - unfold Utf8.encode_char, Utf8.is_scalar, Utf8.is_surrogate.
      repeat case_match; try lia; done.
    - eapply IH; [|done..]. lia. }
  destruct ((0xC2 <=? b0) && (b0 <? 0xE0)) eqn:E2.
  { destruct r0 as [|b1 r1]; [done|].
    destruct (Utf8.is_cont b1) eqn:C1; [|done].
    intros (s' & Hs' & ->)%fmap_Some.
    apply (utf8_encode_cons _ s' [b0; b1] r1).
    - apply utf8_encode_char_2; [lia|done].
    - eapply IH; [|done..]. cbn [length] in *. lia. }
  destruct ((0xE0 <=? b0) && (b0 <? 0xF0)) eqn:E3.
  { destruct r0 as [|b1 [|b2 r2]]; [done..|]. cbv zeta.
    destruct (Utf8.is_cont b1) eqn:C1; [|done].
    destruct (Utf8.is_cont b2) eqn:C2; [|done]. cbn [andb].
    destruct (0x800 <=? _) eqn:C3; [|done]. cbn [andb].
    destruct (Utf8.is_surrogate _) eqn:C4; [done|]. cbn [negb].
    intros (s' & Hs' & ->)%fmap_Some.
    apply (utf8_encode_cons _ s' [b0; b1; b2] r2).
    - apply utf8_encode_char_3; try done; lia.
    - eapply IH; [|done..]. cbn [length] in *. lia. }
  destruct ((0xF0 <=? b0) && (b0 <? 0xF5)) eqn:E4; [|done].
  destruct r0 as [|b1 [|b2 [|b3 r3]]]; [done..|]. cbv zeta.
  destruct (Utf8.is_cont b1) eqn:C1; [|done].
  destruct (Utf8.is_cont b2) eqn:C2; [|done].
  destruct (Utf8.is_cont b3) eqn:C3; [|done]. cbn [andb].
  destruct (0x10000 <=? _) eqn:C4; [|done]. cbn [andb].
  destruct (_ <? 0x110000) eqn:C5; [|done].
  intros (s' & Hs' & ->)%fmap_Some.
  apply (utf8_encode_cons _ s' [b0; b1; b2; b3] r3).
  - apply utf8_encode_char_4; try done; lia.
  - eapply IH; [|done..]. cbn [length] in *. lia.
Qed.

(** X23. Decoding is strict and the inverse of encoding: a byte string
    decodes to a text exactly when it is the UTF-8 encoding of that text. So
    what the handler stores decodes to the output text, and a text taken
    over from the dataset is stored as the bytes it was read from (a
    byte-order mark aside, which is dropped). *)
Theorem utf8_decode_iff_encode bs s :
  Utf8.decode bs = Some s ↔ Utf8.encode s = Some bs.
Proof. split; [apply utf8_decode_encode|apply utf8_roundtrip]. Qed.

(** ** The metadata object *)

Lemma lstrip_app_space ws s :
  Forall (λ c, Py.isspace c = true) ws → Py.lstrip (ws ++ s) = Py.lstrip s.
Proof.
  induction 1 as [|c ws Hc _ IH]; [done|]. cbn [app Py.lstrip]. by rewrite Hc.
Qed.

Lemma lstrip_space_app s ws :
  Forall (λ c, Py.isspace c = true) ws →
  Py.lstrip (s ++ ws)
  = match Py.lstrip s with [] => [] | l => l ++ ws end.
Proof.
  intros Hws. induction s as [|c s IH].
  - cbn [app Py.lstrip]. rewrite <- (app_nil_r ws).
    by rewrite lstrip_app_space.
  - cbn [app Py.lstrip]. by destruct (Py.isspace c).
Qed.

Lemma strip_app ws1 s ws2 :
  Forall (λ c, Py.isspace c = true) ws1 →
  Forall (λ c, Py.isspace c = true) ws2 →
  Py.strip (ws1 ++ s ++ ws2) = Py.strip s.
Proof.
  intros H1 H2. unfold Py.strip.
  rewrite lstrip_app_space, lstrip_space_app by done.
  destruct (Py.lstrip s) as [|c l]; [done|].
  rewrite reverse_app, lstrip_app_space; [done|].
  by apply Forall_reverse.
Qed.

(** X24. White space around the text of the metadata object is ignored: two
    objects whose texts differ by leading and trailing white space only (a
    final line feed, say) give the same field list, or fail alike. *)
Theorem metadata_whitespace_is_ignored
    rt bucket key key' body body' content ws1 ws2 :
  get_object (s3 rt) bucket key = Some body →
  get_object (s3 rt) bucket key' = Some body' →
  Utf8.decode_sig body = Some content →
  Utf8.decode_sig body' = Some (ws1 ++ content ++ ws2) →
  Forall (λ c, Py.isspace c = true) (ws1 ++ ws2) →
  (load_pii_fields rt bucket key' []).2 = (load_pii_fields rt bucket key []).2.
Proof.
  intros Hk Hk' Hb Hb' [H1 H2]%Forall_app.
  unfold load_pii_fields, io_bind, lift, s3_get_object, of_option.
  cbn [fst snd app]. rewrite Hk, Hk', Hb, Hb'.
  cbn [fmap option_fmap option_map snd]. by rewrite strip_app.
Qed.

Lemma metadata_whitespace_is_ignored_witness :
  let rt := Example.runtime_of
    [(text "a_pii_fields.json", Example.metadata);
     (text "b_pii_fields.json", [SPACE] ++ Example.metadata ++ [LF])] in
  (load_pii_fields rt Example.BUCKET (text "b_pii_fields.json") []).2
  = (load_pii_fields rt Example.BUCKET (text "a_pii_fields.json") []).2.
Proof.
  apply (metadata_whitespace_is_ignored _ _ _ _
           Example.metadata ([SPACE] ++ Example.metadata ++ [LF])
           Example.metadata [SPACE] [LF]).
  - vm_compute. reflexivity.
  - vm_compute. reflexivity.
  - vm_compute. reflexivity.
  - vm_compute. reflexivity.
  - by_compute.
Defined.

(** ** The calls of a run *)



(** ** The characters of the output *)

Section Chars.

Variable P : Z → Prop.

Lemma parse_add_char_chars r c r' :
  P c → reader_chars P r → parse_add_char r c = Ok r' → reader_chars P r'.
Proof.
  unfold parse_add_char, reader_chars. intros Hc [Hf Hfs].
  case_match; [done|]. intros [= <-]. cbn. split; [|done].
  apply Forall_app. split; [done|by constructor].
Qed.

Lemma parse_save_field_chars r :
  reader_chars P r → reader_chars P (parse_save_field r).
Proof.
  intros [Hf Hfs]. split; [constructor|]. cbn.
  apply Forall_app. split; [done|by constructor].
Qed.

Lemma parse_process_char_chars d r i r' :
  (∀ c, i = Char c → P c) → reader_chars P r →
  parse_process_char d r i = Ok r' → reader_chars P r'.
Proof.
  intros Hi Hr. unfold parse_process_char, at_start_field.
  pose proof (parse_save_field_chars r Hr) as Hsave.
  destruct (state r), i as [c|]; repeat case_match; intros Hstep;
    simplify_eq; try done;
    repeat match goal with
    | H : bind (parse_add_char ?r0 ?c0) _ = Ok _ |- _ =>
      destruct (parse_add_char r0 c0) as [r1|] eqn:Hadd; [|done];
      cbn [bind] in H; simplify_eq;
      apply parse_add_char_chars in Hadd; [|by apply Hi|done]
    | H : parse_add_char _ _ = Ok _ |- _ =>
      apply parse_add_char_chars in H; [|by apply Hi|done]
    end; try done.
Qed.

Lemma parse_process_char_raise d r i e :
  parse_process_char d r i = Raise e → ∃ c, e = CsvError c.
Proof.
  unfold parse_process_char, at_start_field, parse_add_char.
  destruct (state r), i as [c|]; repeat case_match; cbn [bind];
    intros Hstep; simplify_eq; by eexists.
Qed.

Lemma process_line_chars d r line r' :
  Forall P line → reader_chars P r →
  process_line d r line = Ok r' → reader_chars P r'.
Proof.
  unfold process_line. intros Hline. revert r.
  induction Hline as [|c line Hc _ IH]; intros r Hr.
  - cbn. by apply parse_process_char_chars.
  - cbn [feed].
    destruct (parse_process_char d r (Char c)) as [r1|] eqn:H1; [|done].
    cbn [bind]. apply IH. eapply parse_process_char_chars; [|done..].
    by intros ? [= <-].
Qed.

Lemma process_line_raise d r line e :
  process_line d r line = Raise e → ∃ c, e = CsvError c.
Proof.
  unfold process_line. revert r. induction line as [|c line IH]; intros r.
  - cbn. apply parse_process_char_raise.
  - cbn [feed].
    destruct (parse_process_char d r (Char c)) as [r1|] eqn:H1; cbn [bind].
    + apply IH.
    + intros [= <-]. by eapply parse_process_char_raise.
Qed.

Lemma read_chars d r lines :
  Forall (Forall P) lines → reader_chars P r →
  records_ok (Forall (Forall P)) (read d r lines).
Proof.
  intros Hlines. revert r.
  induction Hlines as [|l ls Hl _ IH]; intros r Hr; cbn [read].
  - case_match; [|done]. split; [|done]. by apply parse_save_field_chars.
  - destruct (process_line d r l) as [r'|] eqn:Hline.
    + pose proof (process_line_chars _ _ _ _ Hl Hr Hline) as Hr'.
      case_bool_decide; [|by apply IH]. split; [apply Hr'|].
      apply IH. by split; constructor.
    + by eapply process_line_raise.
Qed.

Lemma readlines_chars s : Forall P s → Forall (Forall P) (readlines s).
Proof.
  induction 1 as [|c s Hc _ IH]; cbn [readlines]; [constructor|].
  case_match; [by repeat constructor|].
  destruct (readlines s) as [|l ls]; [by repeat constructor|].
  apply Forall_cons in IH as [Hl Hls]. by repeat constructor.
Qed.

Lemma reader_of_chars d s :
  Forall P s → records_ok (Forall (Forall P)) (reader_of d s).
Proof.
  intros Hs. apply read_chars; [by apply readlines_chars|].
  by split; constructor.
Qed.

End Chars.




(** ** Where the written values come from *)

Lemma dict_zip_cell (ks vs : list str) acc k v :
  dict_zip ks vs acc !! k = Some (Some v) →
  v ∈ vs ∨ acc !! k = Some (Some v).
Proof.
  revert vs acc. induction ks as [|k' ks IH]; intros [|v' vs] acc;
    cbn [dict_zip]; auto.
  intros [H|H]%IH; [left; by right|].
  destruct (decide (k' = k)) as [->|Hne].
  - rewrite lookup_insert_eq in H. injection H as <-. left. by left.
  - rewrite lookup_insert_ne in H by done. by right.
Qed.

Lemma fill_restval_cell (keys : list str) (acc : gmap str (option str)) k v :
  fill_restval keys acc !! k = Some (Some v) → acc !! k = Some (Some v).
Proof.
  unfold fill_restval. revert acc.
  induction keys as [|k' keys IH]; intros acc; cbn [foldl]; [done|].
  intros H%IH. destruct (decide (k' = k)) as [->|Hne].
  - by rewrite lookup_insert_eq in H.
  - by rewrite lookup_insert_ne in H.
Qed.

Lemma to_dict_cell fieldnames r k v :
  cells (to_dict fieldnames r) !! k = Some (Some v) → v ∈ r.
Proof.
  unfold to_dict. case_bool_decide; cbn [cells].
  - by intros [?|?]%dict_zip_cell.
  - by intros [?|?]%fill_restval_cell%dict_zip_cell.
Qed.

(** A value handed to the writer is a field of the record read, or the
    empty string, or a token. *)
Lemma written_value_origin fieldnames pii_fields r row values :
  mask_row pii_fields (to_dict fieldnames r) = Ok row →
  dict_to_list fieldnames row = Ok values →
  Forall (λ v, v ∈ r ∨ v = [] ∨ ∃ u, tokenize u = Ok v) values.
Proof.
  intros Hrow (_ & _ & ->)%dict_to_list_inv.
  apply Forall_fmap, Forall_forall. intros k _. cbn.
  destruct (cells (to_dict fieldnames r) !! k) as [[v|]|] eqn:Hcell.
  - destruct (decide (v = [])) as [->|Hv].
    + rewrite (mask_row_pass _ _ _ k Hrow), Hcell by auto. cbn. auto.
    + destruct (decide (k ∈ pii_fields)) as [Hk|Hk].
      * destruct (mask_row_hit _ _ _ _ _ Hrow Hcell Hv) as (t & Ht & ->).
        cbn. right. right.
        apply occurrences_pos in Hk.
        destruct (occurrences k pii_fields) as [|n]; [lia|].
        rewrite tokenize_n_last in Ht.
        destruct (tokenize_n n v) as [u|]; [|done]. by exists u.
      * rewrite (mask_row_pass _ _ _ k Hrow), Hcell by auto. cbn.
        left. by eapply to_dict_cell.
  - rewrite (mask_row_pass _ _ _ k Hrow), Hcell by auto. cbn. auto.
  - rewrite (mask_row_pass _ _ _ k Hrow), Hcell by auto. cbn. auto.
Qed.


Section Output.

Variable P : Z → Prop.
Variable d : Z.
Hypothesis P_delimiter : P d.
Hypothesis P_quote : P DQUOTE.
Hypothesis P_cr : P CR.
Hypothesis P_lf : P LF.
Hypothesis P_token : ∀ c, 43 <= c <= 122 → P c.

Lemma tokenize_chars u t : tokenize u = Ok t → Forall P t.
Proof.
  intros (bs & Hbs & ->)%tokenize_inv.
  eapply Forall_impl; [by eapply b64encode_alphabet, utf8_encode_bytes|].
  intros c Hc. by apply P_token.
Qed.

Lemma write_field_chars f : Forall P f → Forall P (write_field d f).
Proof.
  intros Hf. unfold write_field, quote, double_quotes. case_match; [|done].
  constructor; [done|]. apply Forall_app. split; [|by constructor].
  apply Forall_flat_map. eapply Forall_impl; [done|]. intros c Hc. cbn.
  case_match; by repeat constructor.
Qed.

Lemma join_chars fs : Forall (Forall P) fs → Forall P (join d fs).
Proof.
  induction 1 as [|f fs Hf Hfs IH]; [constructor|]. cbn [join].
  destruct fs as [|f' fs]; [done|].
  apply Forall_app. split; [done|]. by constructor.
Qed.

Lemma writerow_chars row : Forall (Forall P) row → Forall P (writerow d row).
Proof.
  intros Hrow.
  assert (Forall P (join d (map (write_field d) row) ++ [CR; LF])) as H.
  { apply Forall_app. split; [|by repeat constructor].
    apply join_chars. change map with (@fmap list _).
    apply Forall_fmap. eapply Forall_impl; [done|].
    intros f. apply write_field_chars. }
  unfold writerow. repeat case_match; try done. by repeat constructor.
Qed.

Lemma render_chars rows :
  Forall (Forall (Forall P)) rows → Forall P (render d rows).
Proof.
  unfold render. induction 1 as [|row rows Hrow _ IH]; [constructor|].
  cbn [map concat]. apply Forall_app. split; [by apply writerow_chars|done].
Qed.

Lemma transform_records_chars h pii rs vs :
  records_ok (Forall (Forall P)) rs →
  transform_records h pii rs = Ok vs → Forall (Forall (Forall P)) vs.
Proof.
  revert vs. induction rs as [|r rest IH|e]; intros vs; cbn.
  - intros _ [= <-]. constructor.
  - intros [Hr Hrest]. destruct r as [|f r]; [by apply IH|].
    destruct (mask_row _ _) as [row|] eqn:Hrow; [|done]. cbn [bind].
    destruct (dict_to_list h row) as [values|] eqn:Hv; [|done].
    cbn [bind]. destruct (transform_records _ _ rest) as [more|]; [|done].
    cbn [bind]. intros [= <-]. constructor; [|by apply IH].
    eapply Forall_impl; [by eapply written_value_origin|].
    intros v [Hin|[->|[u Hu]]]; cbn.
    + rewrite Forall_forall in Hr. by apply Hr.
    + constructor.
    + by eapply tokenize_chars.
  - done.
Qed.

Lemma transform_chars pii raw out :
  Forall P raw → transform d pii raw = Ok out → Forall P out.
Proof.
  intros Hraw. rewrite transform_written. unfold written.
  pose proof (reader_of_chars P d raw Hraw) as Hrs.
  destruct (reader_of d raw) as [|h rs|]; try done.
  destruct Hrs as [Hh Hrs].
  destruct (transform_records h pii rs) as [more|] eqn:Hmore; [|done].
  cbn [bind fst snd]. intros [= <-]. apply render_chars. constructor; [done|].
  by eapply transform_records_chars.
Qed.



End Output.





(** ** The exceptions and the bytes of a run *)

Lemma utf8_decode_text bs s : Utf8.decode bs = Some s → is_text s.
Proof. intros H%utf8_decode_encode. by eapply utf8_encode_text. Qed.

Lemma utf8_decode_sig_text bs s : Utf8.decode_sig bs = Some s → is_text s.
Proof.
  unfold Utf8.decode_sig. repeat case_match; apply utf8_decode_text.
Qed.














(** ** A comma-separated dataset, from the event to the store *)

Lemma row_masked h pii r :
  NoDup h → r ≠ [] → (length r ≤ length h)%nat → Forall is_text r →
  ∃ row values,
    mask_row pii (to_dict h r) = Ok row
    ∧ dict_to_list h row = Ok values
    ∧ masked pii h r values.
Proof.
  intros Hnd Hr Hlen Htext.
  destruct (mask_row_ok pii (to_dict h r)) as [row Hrow];
    [by apply to_dict_text|].
  destruct (short_row_written h pii r row)
    as (values & Hvalues & Hlength & Hshort); [done..|].
  exists row, values. split; [done|]. split; [done|].
  split; [done|]. split; [|done]. intros i k v Hk Hv.
  pose proof (to_dict_lookup _ _ _ _ _ Hnd Hk Hv) as Hcell.
  rewrite (dict_to_list_lookup _ _ _ _ _ Hvalues Hk).
  destruct (decide (v = [])) as [->|Hne].
  - exists []. split.
    + clear. induction (occurrences k pii) as [|n IH]; [done|].
      cbn [tokenize_n]. by replace (tokenize []) with (Ok (@nil Z)).
    + rewrite (mask_row_pass _ _ _ k Hrow), Hcell by auto. done.
  - destruct (mask_row_hit _ _ _ _ _ Hrow Hcell Hne) as (t & Ht & Hk').
    exists t. by rewrite Hk'.
Qed.

Lemma records_masked h pii rows :
  NoDup h →
  Forall (λ r, (0 < length r ≤ length h)%nat ∧ Forall is_text r) rows →
  ∃ rows', transform_records h pii (yields rows) = Ok rows'
           ∧ Forall2 (masked pii h) rows rows'.
Proof.
  intros Hnd. induction 1 as [|r rows [Hlen Htext] _ (rows' & IH & Hrows')].
  - by exists [].
  - destruct (row_masked h pii r) as (row & values & Hrow & Hvalues & Hm);
      [done| |lia|done|].
    { intros ->. cbn in Hlen. lia. }
    exists (values :: rows'). cbn [yields foldr].
    change (foldr Yield Stop rows) with (yields rows).
    destruct r as [|f r]; [cbn in Hlen; lia|].
    cbn [transform_records]. rewrite Hrow. cbn [bind]. rewrite Hvalues.
    cbn [bind]. rewrite IH. cbn [bind]. split; [done|]. by constructor.
Qed.

Lemma records_ok_yields Q rows : records_ok Q (yields rows) ↔ Forall Q rows.
Proof.
  induction rows as [|r rows IH]; cbn.
  - split; [constructor|done].
  - rewrite Forall_cons. fold (yields rows). by rewrite IH.
Qed.

Lemma join_plain d names :
  Forall (plain d) names → join d (map (write_field d) names) = join d names.
Proof.
  intros Hn. f_equal. rewrite <- (map_id names) at 2.
  apply map_ext_Forall. eapply Forall_impl; [done|].
  intros f Hf. apply write_field_plain. eapply Forall_impl; [done|].
  intros x (Hd & Hq & Hl). cbv beta.
  unfold special, Sniffer.is_quote, Py.is_linebreak, DQUOTE, CR, LF in *. lia.
Qed.

Lemma header_line_sniffed isalnum names rest :
  Forall (plain 44) names → (2 ≤ length names)%nat →
  detect_delimiter isalnum (writerow 44 names ++ rest) = Ok 44.
Proof.
  intros Hn Hlen.
  assert (writerow 44 names = join 44 names ++ [CR; LF]) as ->.
  { unfold writerow. rewrite join_plain by done.
    destruct names as [|f [|f' names]]; cbn in Hlen; try lia.
    by destruct f. }
  assert (Forall (λ x, Sniffer.is_quote x = false ∧ Py.is_linebreak x = false)
            (join 44 names)) as Hline.
  { apply join_chars; [done|]. eapply Forall_impl; [done|].
    intros f Hf. eapply Forall_impl; [done|]. by intros x (_ & ? & ?). }
  rewrite <- app_assoc. cbn [app]. unfold detect_delimiter.
  pose proof (splitlines_first (join 44 names) CR (LF :: rest)) as Hhead.
  destruct (Py.splitlines _) as [|l ls].
  { cbn in Hhead. discriminate Hhead; [|done].
    eapply Forall_impl; [done|]. by intros x [_ ?]. }
  cbn in Hhead. injection Hhead as ->; [| |done].
  2:{ eapply Forall_impl; [done|]. by intros x [_ ?]. }
  apply (sniff_preferred isalnum _ 0%nat); [|done| |].
  - eapply Forall_impl; [done|]. by intros x [? _].
  - destruct names as [|f [|f' names]]; cbn in Hlen; try lia.
    cbn [join]. apply elem_of_app. right. by left.
  - by intros q ?%elem_of_nil.
Qed.

(** X28. The handler on a comma-separated dataset. Where the metadata
    text evaluates to a list of strings and the dataset is written as the
    writer writes it, with at least two distinct column names that hold no
    comma, quote or line boundary, and no row is empty or longer than the
    header: the comma is detected, both objects are read and, as the last
    call of the run, one is stored, the UTF-8 encoding of the header as
    read, followed by every row with each value tokenized once per
    occurrence of its column in the field list (not at all for a column
    that is not listed) and the missing columns of a short row empty. *)
Theorem comma_separated_dataset_is_masked rt ev pii_fields header rows :
  (load_pii_fields rt (bucket_name ev) (object_key ev) []).2
  = Ok (strings pii_fields) →
  (load_raw_csv rt (bucket_name ev) (raw_key (object_key ev)) []).2
  = Ok (render 44 (header :: rows)) →
  NoDup header → (2 ≤ length header)%nat → Forall (plain 44) header →
  Forall (λ r, (0 < length r ≤ length header)%nat) rows →
  Forall (Forall fits) (header :: rows) →
  ∃ rows' body,
    Forall2 (masked pii_fields header) rows rows'
    ∧ Utf8.encode (render 44 (header :: rows')) = Some body
    ∧ lambda_handler rt ev []
      = (GetObject (bucket_name ev) (object_key ev) :: evaluated rt ev
         ++ [GetObject (bucket_name ev) (raw_key (object_key ev));
             PutObject (bucket_name ev) (output_key (object_key ev)) body],
         if put_object (s3 rt) (bucket_name ev) (output_key (object_key ev))
              body
         then Ok () else Raise ClientError).
Proof.
  intros Hpii Hraw Hnd Hlen Hplain Hrows Hfit.
  assert (delim_ok 44) as Hd by (repeat split; discriminate).
  assert (is_text (render 44 (header :: rows))) as Htext.
  { revert Hraw. unfold load_raw_csv, io_bind, lift, s3_get_object, of_option.
    cbn [fst snd]. destruct (get_object _ _ _); [|done]. cbn [snd].
    destruct (Utf8.decode_sig _) eqn:Hdec; [|done]. intros [= <-].
    by eapply utf8_decode_sig_text. }
  pose proof (reader_of_chars _ 44 _ Htext) as Hrec.
  rewrite reader_of_render in Hrec by done.
  apply records_ok_yields, Forall_cons in Hrec as [_ Hrec].
  destruct (records_masked header pii_fields rows Hnd) as (rows' & Hrows' & Hm).
  { apply Forall_forall. intros r Hr. rewrite !Forall_forall in Hrows, Hrec.
    split; [by apply Hrows|by apply Hrec]. }
  assert (transform 44 pii_fields (render 44 (header :: rows))
          = Ok (render 44 (header :: rows'))) as Htrans.
  { rewrite transform_of_reader, reader_of_render by done.
    cbn [yields foldr]. change (foldr Yield Stop rows) with (yields rows).
    by rewrite Hrows'. }
  assert (is_text (render 44 (header :: rows'))) as Hout.
  { apply (transform_chars (λ c, Utf8.is_scalar c = true) 44)
      with (pii := pii_fields) (raw := render 44 (header :: rows)); try done.
    intros x Hx. apply is_ascii_scalar. unfold is_ascii. lia. }
  destruct (utf8_encode_scalar _ Hout) as [body Hbody].
  exists rows', body. split; [done|]. split; [done|].
  pose proof (lambda_handler_run rt ev) as Hrun. cbv zeta in Hrun.
  assert (complete_output rt ev = Ok body) as Hcomplete.
  { unfold complete_output. rewrite Hpii, Hraw. cbn [bind].
    unfold render at 1. cbn [map concat].
    rewrite header_line_sniffed by done. cbn [bind].
    change (writerow 44 header ++ concat (map (writerow 44) rows))
      with (render 44 (header :: rows)).
    rewrite transform_with_strings, Htrans. cbn [bind]. by rewrite Hbody. }
  by rewrite Hcomplete in Hrun.
Qed.

Lemma comma_separated_dataset_is_masked_witness :
  let key := text "metadata/customers_pii_fields.json" in
  let header := [text "id"; text "email"; text "ssn"] in
  let rows := [[text "1"; text "a@b.com"; text "123-45-6789"];
               [text "2"; []]] in
  let rt := Example.runtime_of
    [(key, Example.metadata);
     (text "raw/customers.csv", render 44 (header :: rows))] in
  let ev := Event Example.BUCKET key in
  ∃ rows' body,
    Forall2 (masked Example.pii_fields header) rows rows'
    ∧ Utf8.encode (render 44 (header :: rows')) = Some body
    ∧ lambda_handler rt ev []
      = (GetObject (bucket_name ev) (object_key ev) :: evaluated rt ev
         ++ [GetObject (bucket_name ev) (raw_key (object_key ev));
             PutObject (bucket_name ev) (output_key (object_key ev)) body],
         if put_object (s3 rt) (bucket_name ev) (output_key (object_key ev))
              body
         then Ok () else Raise ClientError).
Proof.
  cbv zeta. apply comma_separated_dataset_is_masked.
  - vm_compute. reflexivity.
  - vm_compute. reflexivity.
  - by_compute.
  - cbn. lia.
  - by_compute.
  - repeat constructor; cbn; lia.
  - by_compute.
Defined.
